(** * Ashby pipeline aggregator: the API client and the extract command

    A shallow embedding of the direct-API client (token fetch, GraphQL
    calls, organisation discovery and switching, pipeline fetch with
    pagination, normalisation, enrichment) and of the [extract] command
    that drives it, followed by the properties proved about them.

    Asynchronous code is read sequentially: every [await] is a step of a
    state-and-exception monad over the shared [session] object and the
    trace of requests, sleeps and console lines issued so far.  The
    remote application is a deterministic oracle over that trace. *)

From Stdlib Require Import String Ascii List ZArith Bool Lia Permutation.
From Stdlib Require Import DecimalString.
Import ListNotations.

Local Open Scope Z_scope.
Local Open Scope list_scope.

(* ================================================================== *)
(** * JavaScript values and built-ins used by the client *)
(* ================================================================== *)

Module Js.

(** A JS [number] that is either an integer or [NaN]; the only numbers the
    client computes with are day counts, priorities and indices. *)
Inductive JsNum : Type :=
| JNaN
| JNum (z : Z).

(** [a >= b]; every comparison with [NaN] is false. *)
Definition num_geq (a : JsNum) (b : Z) : bool :=
  match a with
  | JNaN => false
  | JNum z => b <=? z
  end.

(** Truthiness of a string: every string but the empty one. *)
Definition truthy (s : string) : bool :=
  match s with
  | EmptyString => false
  | String _ _ => true
  end.

(** Truthiness of [string | null | undefined]. *)
Definition truthy_opt (o : option string) : bool :=
  match o with
  | Some s => truthy s
  | None => false
  end.

(** [a || b] on strings. *)
Definition or_else (a b : string) : string :=
  if truthy a then a else b.

(** [a || b] where [a] may be absent. *)
Definition opt_or_else (a : option string) (b : string) : string :=
  match a with
  | Some s => or_else s b
  | None => b
  end.

(** [a || null]. *)
Definition or_null (a : option string) : option string :=
  match a with
  | Some s => if truthy s then Some s else None
  | None => None
  end.

Definition lower_ascii (c : ascii) : ascii :=
  let n := nat_of_ascii c in
  if (Nat.leb 65 n && Nat.leb n 90)%bool then ascii_of_nat (n + 32) else c.

(** [String.prototype.toLowerCase] on strings of bytes: the letters A-Z
    are mapped, every other byte is kept. *)
Fixpoint toLowerCase (s : string) : string :=
  match s with
  | EmptyString => EmptyString
  | String c r => String (lower_ascii c) (toLowerCase r)
  end.

(** [s.includes(k)]. *)
Fixpoint includes (s k : string) : bool :=
  (String.prefix k s
   || match s with
      | EmptyString => false
      | String _ r => includes r k
      end)%bool.

Definition is_space (c : ascii) : bool :=
  let n := nat_of_ascii c in
  (Nat.eqb n 32 || (Nat.leb 9 n && Nat.leb n 13))%bool.

Fixpoint trimStart (s : string) : string :=
  match s with
  | EmptyString => EmptyString
  | String c r => if is_space c then trimStart r else s
  end.

Fixpoint trimEnd (s : string) : string :=
  match s with
  | EmptyString => EmptyString
  | String c r =>
      match trimEnd r with
      | EmptyString => if is_space c then EmptyString else String c EmptyString
      | r' => String c r'
      end
  end.

(** [s.trim()]. *)
Definition trim (s : string) : string := trimEnd (trimStart s).

(** [s.split(sep)] for a one-character separator. *)
Fixpoint split (sep : ascii) (s : string) : list string :=
  match s with
  | EmptyString => [EmptyString]
  | String c r =>
      if Ascii.eqb c sep then EmptyString :: split sep r
      else match split sep r with
           | p :: ps => String c p :: ps
           | [] => [String c EmptyString]
           end
  end.

(** [Array.prototype.slice(start, end)]: a negative index counts from the
    end, and both are clamped to the array. *)
Definition slice {A : Type} (l : list A) (start stop : Z) : list A :=
  let len := Z.of_nat (length l) in
  let norm i := if i <? 0 then Z.max 0 (len + i) else Z.min i len in
  let k := norm start in
  let final := norm stop in
  firstn (Z.to_nat (final - k)) (skipn (Z.to_nat k) l).

End Js.

Import Js.

(* ================================================================== *)
(** * The scheduling heuristic *)
(* ================================================================== *)

Module Scheduling.

Definition interviewKeywords : list string :=
  ["interview"; "onsite"; "technical"; "screening"; "call"]%string.

(** [computeNeedsScheduling(stageType, daysInStage, threshold = 7)]. *)
Definition computeNeedsScheduling
  (stageType : option string) (daysInStage : JsNum) (threshold : Z) : bool :=
  match stageType with
  | None => false
  | Some st =>
      if negb (truthy st) then false
      else
        let isInterviewStage :=
          existsb (fun keyword => includes (toLowerCase st) keyword)
                  interviewKeywords in
        (isInterviewStage && num_geq daysInStage threshold)%bool
  end.

(** The default of the [threshold] parameter. *)
Definition defaultThreshold : Z := 7.

End Scheduling.

Import Scheduling.

(* ================================================================== *)
(** * Data model *)
(* ================================================================== *)

Module Data.

(** [Record<string, string>]: the cookie jar of the session. *)
Definition Cookies : Type := list (string * string).

Fixpoint cookie_get (cs : Cookies) (name : string) : option string :=
  match cs with
  | [] => None
  | (k, v) :: r => if String.eqb k name then Some v else cookie_get r name
  end.

(** [cookies[name] = value]. *)
Fixpoint cookie_set (cs : Cookies) (name value : string) : Cookies :=
  match cs with
  | [] => [(name, value)]
  | (k, v) :: r =>
      if String.eqb k name then (k, value) :: r
      else (k, v) :: cookie_set r name value
  end.

Record AshbySession : Type := mkSession {
  cookies : Cookies;
  csrfToken : option string;
  orgIds : list string
}.

(** The request headers the client varies: the cookie header and
    [x-csrf-token]. *)
Record Headers : Type := mkHeaders {
  h_cookie : Cookies;
  h_csrf : option string
}.

Record Company : Type := mkCompany {
  company_id : string;
  company_name : string
}.

Record Job : Type := mkJob {
  job_id : string;
  job_title : string;
  job_companyId : string
}.

Record Interviewer : Type := mkInterviewer {
  iv_name : string;
  iv_email : string;
  iv_overallRecommendation : option string;
  iv_isFeedbackSubmitted : bool
}.

Record InterviewEvent : Type := mkInterviewEvent {
  ie_id : string;
  ie_interviewTitle : string;
  ie_startTime : string;
  ie_endTime : string;
  ie_interviewers : list Interviewer
}.

Record InterviewFeedback : Type := mkFeedback {
  fb_interviewTitle : string;
  fb_interviewer : string;
  fb_interviewerEmail : string;
  fb_submittedAt : string;
  fb_overallRecommendation : option string;
  fb_feedbackText : option string;
  fb_isFeedbackSubmitted : bool
}.

(** [Candidate].  The contact fields that the client always leaves [null]
    (email, phone, location, the URLs) are not carried. *)
Record Candidate : Type := mkCandidate {
  id : string;
  applicationId : string;
  name : string;
  currentStage : string;
  pipelineStage : option string;
  stageType : option string;
  currentStageIndex : option Z;
  totalStages : option Z;
  stageProgress : option string;
  jobId : string;
  companyId : string;
  orgId : string;
  orgName : option string;
  lastActivityAt : string;
  daysInStage : JsNum;
  needsScheduling : bool;
  creditedTo : option string;
  source : option string;
  decisionStatus : option string;
  statusPriority : option Z;
  statusDueAt : option string;
  interviewEvents : option (list InterviewEvent);
  allFeedback : option (list InterviewFeedback);
  latestOverallRecommendation : option string;
  latestFeedbackAuthor : option string;
  latestFeedbackDate : option string;
  feedbackCount : option Z
}.

Record PipelineFetchResult : Type := mkResult {
  companies : list Company;
  jobs : list Job;
  candidates : list Candidate
}.

(** [OrgInfoWithUserId]. *)
Record OrgInfo : Type := mkOrg {
  org_id : string;
  org_name : string;
  org_userId : string
}.

(** ** Shapes of the remote responses *)

(** [AvailableIdentityResponse], the fields that are read. *)
Record Identity : Type := mkIdentity {
  idn_userId : string;
  idn_orgId : string;
  idn_orgName : string
}.

Record SessionUser : Type := mkSessionUser {
  organizationId : string;
  organizationName : string
}.

Record JobPipeline : Type := mkJobPipeline {
  jp_jobId : string;
  jp_jobTitle : string
}.

Record CreditedUser : Type := mkCredited {
  cu_firstName : string;
  cu_lastName : string;
  cu_email : string
}.

Record ApplicationStatus : Type := mkStatus {
  st_description : string;
  st_priority : option Z;
  st_dueAt : option string
}.

Record InterviewStage : Type := mkStage {
  stg_id : string;
  stg_title : option string;
  stg_stageType : string
}.

(** [ApplicationResult]. *)
Record ApplicationResult : Type := mkApplication {
  app_id : string;
  app_jobId : string;
  app_jobTitle : string;
  app_candidateId : string;
  app_candidateName : string;
  app_candidateCompany : option string;
  app_sourceTitle : option string;
  app_creditedToUser : option CreditedUser;
  app_applicationStatus : option ApplicationStatus;
  app_createdAt : string;
  app_currentInterviewStage : option InterviewStage
}.

(** [ApplicationsResponse.result]. *)
Record ApplicationsPage : Type := mkPage {
  results : list ApplicationResult;
  nextCursor : option string;
  moreDataAvailable : bool
}.

Record FieldEntry : Type := mkFieldEntry {
  fe_field : string;
  fe_value : option string
}.

Record FormRender : Type := mkFormRender {
  fr_fieldEntries : option (list FieldEntry);
  fr_sections : option (list (option (list FieldEntry)))
}.

Record Scorecard : Type := mkScorecard {
  sc_overallRecommendation : option string;
  sc_submittedAt : option string;
  sc_submittedFormRender : option FormRender
}.

Record RawInterviewerEvent : Type := mkRawInterviewer {
  rie_firstName : string;
  rie_lastName : string;
  rie_email : string;
  rie_scorecardSubmission : option Scorecard;
  rie_isFeedbackSubmitted : bool
}.

Record RawInterviewEvent : Type := mkRawEvent {
  re_id : string;
  re_startTime : string;
  re_endTime : string;
  re_interviewTitle : string;
  re_interviewerEvents : list RawInterviewerEvent
}.

Record PlanStage : Type := mkPlanStage {
  pst_id : string;
  pst_title : string;
  pst_stageType : string
}.

(** The interview plan of an application. *)
Record InterviewPlan : Type := mkPlan {
  plan_id : string;
  plan_interviewStages : list PlanStage
}.

(** An interview plan in a job's plan list: the stage array is optional. *)
Record JobInterviewPlan : Type := mkJobPlan {
  jplan_id : string;
  jplan_interviewStages : option (list PlanStage)
}.

Record PlanWithActivities : Type := mkPlanConfig {
  pc_isDefault : bool;
  pc_interviewPlan : option JobInterviewPlan
}.

(** [ApplicationDetailResponse.application], the fields that are read. *)
Record ApplicationDetail : Type := mkDetail {
  ad_interviewEvents : option (list RawInterviewEvent);
  ad_applicationStatus : option ApplicationStatus;
  ad_currentInterviewStage : option InterviewStage;
  ad_interviewPlan : option InterviewPlan;
  ad_jobPlans : option (option (list PlanWithActivities))
}.

(** What [fetchApplicationDetails] hands back. *)
Record Details : Type := mkDetails {
  dt_interviewEvents : list RawInterviewEvent;
  dt_applicationStatus : option ApplicationStatus;
  dt_currentInterviewStage : option InterviewStage;
  dt_interviewPlan : option InterviewPlan;
  dt_job : option (option (list PlanWithActivities))
}.

(** The [data] member of a GraphQL response, by operation. *)
Inductive GqlData : Type :=
| DSessionUser (user : SessionUser)
| DJobsPipelines (jobsPipelines : list JobPipeline)
| DApplications (result : ApplicationsPage)
| DApplication (application : option ApplicationDetail)
| DNull.

End Data.

Import Data.

(* ================================================================== *)
(** * The remote application, the trace and the monad *)
(* ================================================================== *)

Module Net.

(** The outcome of one [fetch]: the promise rejects, or a response with a
    status and a body arrives. *)
Inductive Http (B : Type) : Type :=
| NetworkError
| Response (status : Z) (body : B).

Arguments NetworkError {B}.
Arguments Response {B} status body.

(** [res.ok]. *)
Definition ok (status : Z) : bool := ((200 <=? status) && (status <=? 299))%bool.

(** The text of a GraphQL response: not JSON, or JSON with [data] and an
    optional [errors] array. *)
Inductive GqlBody : Type :=
| GqlUnparsable
| GqlJson (data : GqlData) (errors : option (list string)).

Inductive OpName : Type :=
| ApiGetSessionUser
| ApiOpenJobs
| ApiGetActiveApplications
| ApiApplication.

(** The [variables] of a GraphQL call. *)
Inductive Vars : Type :=
| VNone
| VOpenJobs (onlyIncludeOpenJobs onlyIncludeJobsUserFollowsOrHasRole : bool)
| VActiveApplications (cursor : option string) (limit : Z)
| VApplication (applicationId : string).

(** Console lines that mark a decision of the client. *)
Inductive ConsoleMsg : Type :=
| LogFetchingCsrf
| LogRefreshingCsrf
| LogSwitchedRefreshed
| WarnCsrfAfterSwitch
| LogVerifiedSwitch (org : string)
| WarnCouldNotVerify
| WarnIdentities (status : Z)
| ErrFetchingOrgs
| ErrFailedToSwitch (orgId : string)
| LogFetchingPipeline (orgId : string)
| LogFoundOpenJobs (n : nat)
| ErrFetchingJobs
| LogFetchedApplications (n total : nat) (more : bool)
| LogTotalApplications (total : nat)
| ErrFetchingApplications
| WarnOrgName (orgId : string)
| LogProcessingOrg (i n : nat) (displayName orgId : string)
| LogSkippingNoUserId
| LogRetryAttempt (attempt maxRetries : Z)
| LogFound (ncompanies njobs ncandidates : nat)
| ErrFailedAfter (maxRetries : Z)
| WarnAttemptFailed (attempt : Z)
| ErrDetails (applicationId : string)
| LogNoUserIdForOrg (orgId : string) (n : nat)
| LogSwitchingToOrg (org : string)
| ErrEnrichSwitch (orgId : string)
| LogEnrichedOrg (n : nat) (org : string).

(** What the client has done so far, oldest first. *)
Inductive Event : Type :=
| EvCsrfToken (h : Headers) (r : Http (option string))
| EvChangeUser (userId : string) (h : Headers) (r : Http (option string))
| EvIdentities (h : Headers) (r : Http (option (list Identity)))
| EvGraphQL (op : OpName) (vars : Vars) (h : Headers) (r : Http GqlBody)
| EvReadQueryFile (r : option string)
| EvSleep (ms : Z)
| EvConsole (m : ConsoleMsg).

(** The environment of a run.  Every remote answer may depend on all that
    happened before it.
    - [remote_csrf]: GET /api/csrf/token; the body is the token when the
      response parses.
    - [remote_change_user]: POST /api/auth/change_user/<userId>; the body
      is the [set-cookie] response header.
    - [remote_identities]: GET /api/auth/available_identities.
    - [remote_graphql]: POST /api/graphql?op=<operation>.
    - [query_file]: the contents of query_ApiApplication.graphql, when the
      file can be read.
    - [clock]: [Date.now()], in milliseconds.
    - [date_parse]: [new Date(s).getTime()], [None] for an invalid date. *)
Record Env : Type := mkEnv {
  remote_csrf : list Event -> Headers -> Http (option string);
  remote_change_user : list Event -> string -> Headers -> Http (option string);
  remote_identities : list Event -> Headers -> Http (option (list Identity));
  remote_graphql : list Event -> OpName -> Vars -> Headers -> Http GqlBody;
  query_file : list Event -> option string;
  clock : list Event -> Z;
  date_parse : string -> option Z
}.

(** What a [throw] carries, one constructor per throwing site. *)
Inductive Error : Type :=
| MissingAuthCookies
| CsrfUnauthorized (hasAuthCookie : bool)
| CsrfFailedAfter (attempts status : Z)
| UnreachableCode
| NetworkFailure
| InvalidBody
| GraphQLRequestFailed (status : Z)
| InvalidJsonResponse
| GraphQLErrors (messages : list string)
| SwitchOrgFailed (status : Z)
| CsrfRefreshAfterSwitchFailed
| TypeError
| FileReadError.

(** How a computation ends: with a value, with an exception, or not within
    the loop iterations it was allowed. *)
Inductive Result (A : Type) : Type :=
| Ret (a : A)
| Throw (e : Error)
| OutOfFuel.

Arguments Ret {A} a.
Arguments Throw {A} e.
Arguments OutOfFuel {A}.

Record World : Type := mkWorld {
  session : AshbySession;
  trace : list Event
}.

Definition M (A : Type) : Type := World -> Result A * World.

Definition ret {A : Type} (a : A) : M A := fun w => (Ret a, w).

Definition throw {A : Type} (e : Error) : M A := fun w => (Throw e, w).

Definition bind {A B : Type} (m : M A) (k : A -> M B) : M B :=
  fun w =>
    match m w with
    | (Ret a, w') => k a w'
    | (Throw e, w') => (Throw e, w')
    | (OutOfFuel, w') => (OutOfFuel, w')
    end.

(** [try { m } catch (error) { handler error }]. *)
Definition try_catch {A : Type} (m : M A) (handler : Error -> M A) : M A :=
  fun w =>
    match m w with
    | (Throw e, w') => handler e w'
    | other => other
    end.

Definition get_session : M AshbySession := fun w => (Ret (session w), w).

Definition set_csrfToken (t : option string) : M unit :=
  fun w =>
    (Ret tt,
     mkWorld (mkSession (cookies (session w)) t (orgIds (session w))) (trace w)).

Definition set_cookies (cs : Cookies) : M unit :=
  fun w =>
    (Ret tt,
     mkWorld (mkSession cs (csrfToken (session w)) (orgIds (session w)))
             (trace w)).

Definition emit (e : Event) : M unit :=
  fun w => (Ret tt, mkWorld (session w) (trace w ++ [e])).

Definition console (m : ConsoleMsg) : M unit := emit (EvConsole m).

(** [await new Promise(resolve => setTimeout(resolve, ms))]. *)
Definition sleep (ms : Z) : M unit := emit (EvSleep ms).

End Net.

Import Net.

Declare Scope monad_scope.
Delimit Scope monad_scope with monad.
Notation "x <- m ;; k" := (bind m (fun x => k))
  (at level 61, m at next level, right associativity) : monad_scope.
Notation "m ;;; k" := (bind m (fun _ => k))
  (at level 61, right associativity) : monad_scope.
Local Open Scope monad_scope.

(* ================================================================== *)
(** * The client *)
(* ================================================================== *)

Module Client.

Section WithEnv.

Variable env : Env.

Definition hasAuthCookie (s : AshbySession) : bool :=
  (truthy_opt (cookie_get (cookies s) "ashby_session_token")
   || truthy_opt (cookie_get (cookies s) "authenticated"))%bool.

Definition createAuthHeaders (s : AshbySession) : Headers :=
  mkHeaders (cookies s)
            (if truthy_opt (csrfToken s) then csrfToken s else None).

(** [headers['x-csrf-token'] = t]. *)
Definition with_csrf (h : Headers) (t : string) : Headers :=
  mkHeaders (h_cookie h) (Some t).

(** ** The four remote calls.  A rejected [fetch] throws. *)

Definition respond {B : Type} (ev : Http B -> Event) (r : Http B)
  : M (Z * B) :=
  fun w =>
    let w' := mkWorld (session w) (trace w ++ [ev r]) in
    match r with
    | NetworkError => (Throw NetworkFailure, w')
    | Response status body => (Ret (status, body), w')
    end.

Definition fetch_csrf (h : Headers) : M (Z * option string) :=
  fun w => respond (EvCsrfToken h) (remote_csrf env (trace w) h) w.

Definition fetch_change_user (userId : string) (h : Headers)
  : M (Z * option string) :=
  fun w =>
    respond (EvChangeUser userId h) (remote_change_user env (trace w) userId h) w.

Definition fetch_identities (h : Headers) : M (Z * option (list Identity)) :=
  fun w => respond (EvIdentities h) (remote_identities env (trace w) h) w.

Definition fetch_graphql (op : OpName) (vars : Vars) (h : Headers)
  : M (Z * GqlBody) :=
  fun w =>
    respond (EvGraphQL op vars h) (remote_graphql env (trace w) op vars h) w.

(** ** [fetchCsrfToken(session, retries = 2)] *)

(** The [for (attempt = 0; attempt <= retries; attempt++)] loop, with [k]
    the number of iterations left: [retries - attempt + 1]. *)
Fixpoint csrfAttempts (headers : Headers) (k : nat) (attempt retries : Z)
  : M string :=
  match k with
  | O => throw UnreachableCode
  | S k' =>
      res <- fetch_csrf headers ;;
      let '(status, body) := res in
      if ok status then
        match body with
        | Some token => ret token
        | None => throw InvalidBody
        end
      else if status =? 401 then
        s <- get_session ;;
        throw (CsrfUnauthorized (hasAuthCookie s))
      else if attempt <? retries then
        sleep (500 * (attempt + 1)) ;;;
        csrfAttempts headers k' (attempt + 1) retries
      else
        throw (CsrfFailedAfter (retries + 1) status)
  end.

Definition fetchCsrfToken (retries : Z) : M string :=
  s <- get_session ;;
  let headers := createAuthHeaders s in
  if negb (hasAuthCookie s) then throw MissingAuthCookies
  else csrfAttempts headers (Z.to_nat (retries + 1)) 0 retries.

Definition defaultRetries : Z := 2.

(** ** [graphqlQuery(session, operationName, query, variables,
       forceRefreshCsrf = false)] *)

(** The headers of a GraphQL call: those of the session, with
    [x-csrf-token] set to the token in hand when that one is truthy. *)
Definition queryHeaders (csrf : option string) (s : AshbySession) : Headers :=
  match csrf with
  | Some t => if truthy t then with_csrf (createAuthHeaders s) t
              else createAuthHeaders s
  | None => createAuthHeaders s
  end.

Definition graphqlQuery (op : OpName) (variables : Vars)
  (forceRefreshCsrf : bool) : M GqlData :=
  s <- get_session ;;
  csrf <- (if (negb (truthy_opt (csrfToken s)) || forceRefreshCsrf)%bool then
             console (if forceRefreshCsrf then LogRefreshingCsrf
                      else LogFetchingCsrf) ;;;
             t <- fetchCsrfToken defaultRetries ;;
             set_csrfToken (Some t) ;;;
             ret (Some t)
           else ret (csrfToken s)) ;;
  s' <- get_session ;;
  let headers := queryHeaders csrf s' in
  res <- fetch_graphql op variables headers ;;
  let '(status, body) := res in
  if negb (ok status) then throw (GraphQLRequestFailed status)
  else
    match body with
    | GqlUnparsable => throw InvalidJsonResponse
    | GqlJson data (Some messages) => throw (GraphQLErrors messages)
    | GqlJson data None => ret data
    end.

(** [response.user]: a property access on a value of another shape throws. *)
Definition user_of (d : GqlData) : M SessionUser :=
  match d with
  | DSessionUser u => ret u
  | _ => throw TypeError
  end.

Definition jobsPipelines_of (d : GqlData) : M (list JobPipeline) :=
  match d with
  | DJobsPipelines js => ret js
  | _ => throw TypeError
  end.

Definition result_of (d : GqlData) : M ApplicationsPage :=
  match d with
  | DApplications p => ret p
  | _ => throw TypeError
  end.

(** ** [fetchAllAvailableOrgs(session)] *)

Definition hasOrg (orgMap : list OrgInfo) (orgId : string) : bool :=
  existsb (fun o => String.eqb (org_id o) orgId) orgMap.

(** The [Map] keyed by organisation id, in insertion order, keeping the
    first user id seen for each organisation. *)
Fixpoint collectOrgs (orgMap : list OrgInfo) (identities : list Identity)
  : list OrgInfo :=
  match identities with
  | [] => orgMap
  | identity :: rest =>
      if hasOrg orgMap (idn_orgId identity) then collectOrgs orgMap rest
      else collectOrgs
             (orgMap ++ [mkOrg (idn_orgId identity) (idn_orgName identity)
                               (idn_userId identity)])
             rest
  end.

Definition fetchAllAvailableOrgs : M (list OrgInfo) :=
  csrf <- try_catch (t <- fetchCsrfToken defaultRetries ;;
                     set_csrfToken (Some t) ;;; ret t)
                    (fun error => throw error) ;;
  s <- get_session ;;
  let headers := with_csrf (createAuthHeaders s) csrf in
  res <- fetch_identities headers ;;
  let '(status, body) := res in
  if negb (ok status) then
    console (WarnIdentities status) ;;; ret []
  else
    match body with
    | None => throw InvalidBody
    | Some identities => ret (collectOrgs [] identities)
    end.

(** ** [fetchAvailableOrgs(session)]; the result is [OrgInfo] without the
    user id, carried here as the empty string. *)

Definition fetchAvailableOrgs : M (list OrgInfo) :=
  allOrgs <- fetchAllAvailableOrgs ;;
  if (0 <? Z.of_nat (length allOrgs)) then
    ret (map (fun org => mkOrg (org_id org) (org_name org) "") allOrgs)
  else
    try_catch
      (response <- graphqlQuery ApiGetSessionUser VNone false ;;
       user <- user_of response ;;
       if truthy (organizationId user) then
         ret [mkOrg (organizationId user)
                    (or_else (organizationName user) (organizationId user))
                    ""]
       else ret [])
      (fun error => console ErrFetchingOrgs ;;; ret []).

(** ** [switchOrgContext(session, userId)] *)

(** The loop over the parts of the [set-cookie] header. *)
Definition updateCookies (setCookie : string) (cs : Cookies) : Cookies :=
  fold_left
    (fun cs cookie =>
       let nameValue := hd EmptyString (split ";" cookie) in
       match split "=" nameValue with
       | name :: value :: _ =>
           if (truthy name && truthy value)%bool
           then cookie_set cs (trim name) (trim value)
           else cs
       | _ => cs
       end)
    (map trim (split "," setCookie)) cs.

(** The last block of [switchOrgContext]: the query that checks the
    switch, inside its [try]. *)
Definition verifySwitch : M unit :=
  try_catch
    (userResponse <- graphqlQuery ApiGetSessionUser VNone false ;;
     user <- user_of userResponse ;;
     console (LogVerifiedSwitch
                (or_else (organizationName user) (organizationId user))))
    (fun error => console WarnCouldNotVerify).

Definition switchOrgContext (userId : string) : M unit :=
  csrf <- fetchCsrfToken defaultRetries ;;
  s <- get_session ;;
  let headers := with_csrf (createAuthHeaders s) csrf in
  res <- fetch_change_user userId headers ;;
  let '(status, setCookieHeaders) := res in
  if negb (ok status) then throw (SwitchOrgFailed status)
  else
    sleep 500 ;;;
    (match setCookieHeaders with
     | Some hdr =>
         if truthy hdr then
           s1 <- get_session ;;
           set_cookies (updateCookies hdr (cookies s1))
         else ret tt
     | None => ret tt
     end) ;;;
    try_catch
      (newCsrfToken <- fetchCsrfToken defaultRetries ;;
       set_csrfToken (Some newCsrfToken) ;;;
       console LogSwitchedRefreshed)
      (fun error =>
         console WarnCsrfAfterSwitch ;;;
         set_csrfToken None ;;;
         throw CsrfRefreshAfterSwitchFailed) ;;;
    verifySwitch.

(** ** [computeDaysInStage(lastActivityAt)], at the clock value [now] *)

Definition msPerDay : Z := 1000 * 60 * 60 * 24.

Definition computeDaysInStage (lastActivityAt : string) (now : Z) : JsNum :=
  match date_parse env lastActivityAt with
  | None => JNaN
  | Some last => JNum (Z.max 0 ((now - last) / msPerDay))
  end.

(** ** [normalizePipelineData(jobsPipelines, applications, orgId, orgName)] *)

Definition hasCompany (m : list Company) (cid : string) : bool :=
  existsb (fun c => String.eqb (company_id c) cid) m.

Definition hasJob (m : list Job) (jid : string) : bool :=
  existsb (fun j => String.eqb (job_id j) jid) m.

Definition addCompany (m : list Company) (cid cname : string) : list Company :=
  if hasCompany m cid then m else m ++ [mkCompany cid cname].

Definition addJob (m : list Job) (jid title cid : string) : list Job :=
  if hasJob m jid then m else m ++ [mkJob jid title cid].

Definition companyIdOf (companyName : string) : string :=
  String.append "company-" companyName.

Definition companyNameOf (app : ApplicationResult) : string :=
  let companyName := opt_or_else (app_candidateCompany app) "Default Company" in
  if (negb (truthy companyName) || String.eqb (trim companyName) "")%bool
  then "Default Company"%string
  else companyName.

(** [x || null] on a number. *)
Definition num_or_null (x : option Z) : option Z :=
  match x with
  | Some z => if z =? 0 then None else Some z
  | None => None
  end.

Definition candidateOf (now : Z) (theOrgId : string) (theOrgName : option string)
  (app : ApplicationResult) : Candidate :=
  let status := app_applicationStatus app in
  let stage := app_currentInterviewStage app in
  let theStageType := or_null (option_map stg_stageType stage) in
  let days := computeDaysInStage (app_createdAt app) now in
  {| id := app_candidateId app;
     applicationId := app_id app;
     name := app_candidateName app;
     currentStage :=
       opt_or_else (option_map st_description status)
         (opt_or_else (option_map stg_stageType stage) "Unknown");
     pipelineStage :=
       or_null (match stage with Some g => stg_title g | None => None end);
     stageType := theStageType;
     currentStageIndex := None;
     totalStages := None;
     stageProgress := None;
     jobId := app_jobId app;
     companyId := companyIdOf (companyNameOf app);
     orgId := theOrgId;
     orgName := theOrgName;
     lastActivityAt := app_createdAt app;
     daysInStage := days;
     needsScheduling := computeNeedsScheduling theStageType days defaultThreshold;
     creditedTo :=
       option_map
         (fun u =>
            or_else
              (trim (String.append (cu_firstName u)
                       (String.append " " (cu_lastName u))))
              (cu_email u))
         (app_creditedToUser app);
     source := or_null (app_sourceTitle app);
     decisionStatus := or_null (option_map st_description status);
     statusPriority :=
       num_or_null (match status with Some t => st_priority t | None => None end);
     statusDueAt :=
       or_null (match status with Some t => st_dueAt t | None => None end);
     interviewEvents := None;
     allFeedback := None;
     latestOverallRecommendation := None;
     latestFeedbackAuthor := None;
     latestFeedbackDate := None;
     feedbackCount := None |}.

Definition normalizePipelineData (now : Z) (jobsPipelines : list JobPipeline)
  (applications : list ApplicationResult) (theOrgId : string)
  (theOrgName : option string) : PipelineFetchResult :=
  let fromJobs :=
    fold_left
      (fun (st : list Company * list Job) jobPipeline =>
         let companyName := "Default Company"%string in
         let cid := companyIdOf companyName in
         (addCompany (fst st) cid companyName,
          addJob (snd st) (jp_jobId jobPipeline) (jp_jobTitle jobPipeline) cid))
      jobsPipelines ([], []) in
  let fromApps :=
    fold_left
      (fun (st : list Company * list Job * list Candidate) app =>
         let companyName := companyNameOf app in
         let cid := companyIdOf companyName in
         (addCompany (fst (fst st)) cid companyName,
          addJob (snd (fst st)) (app_jobId app) (app_jobTitle app) cid,
          snd st ++ [candidateOf now theOrgId theOrgName app]))
      applications (fromJobs, []) in
  mkResult (fst (fst fromApps)) (snd (fst fromApps)) (snd fromApps).

(** ** [fetchPipelineForOrg(session, orgId, userId?)] *)

(** The variables of the pagination loop. *)
Record PageVars : Type := mkPageVars {
  allApplications : list ApplicationResult;
  cursor : option string;
  hasMore : bool
}.

Definition pageLimit : Z := 100.

(** [while (hasMore) { ... }], allowed [fuel] iterations.  The variables
    are handed back with every outcome: the [catch] around the loop goes
    on with whatever [allApplications] holds by then. *)
Fixpoint fetchPages (fuel : nat) (v : PageVars) (w : World)
  : Result unit * PageVars * World :=
  if negb (hasMore v) then (Ret tt, v, w)
  else
    match fuel with
    | O => (OutOfFuel, v, w)
    | S fuel' =>
        match (data <- graphqlQuery ApiGetActiveApplications
                         (VActiveApplications (cursor v) pageLimit) false ;;
               result_of data) w with
        | (Ret page, w1) =>
            let v' := mkPageVars (allApplications v ++ results page)
                                 (nextCursor page)
                                 (moreDataAvailable page) in
            let (_, w2) :=
              console (LogFetchedApplications (length (results page))
                         (length (allApplications v'))
                         (hasMore v')) w1 in
            fetchPages fuel' v' w2
        | (Throw e, w1) => (Throw e, v, w1)
        | (OutOfFuel, w1) => (OutOfFuel, v, w1)
        end
    end.

Definition initialPageVars : PageVars := mkPageVars [] None true.

(** The [try { while ... } catch { ... }] block; its value is
    [allApplications] after it. *)
Definition fetchAllApplications (fuel : nat) : M (list ApplicationResult) :=
  fun w =>
    match fetchPages fuel initialPageVars w with
    | (Ret _, v, w1) =>
        (console (LogTotalApplications (length (allApplications v))) ;;;
         ret (allApplications v)) w1
    | (Throw e, v, w1) =>
        (console ErrFetchingApplications ;;; ret (allApplications v)) w1
    | (OutOfFuel, v, w1) => (OutOfFuel, w1)
    end.

Definition emptyResult : PipelineFetchResult := mkResult [] [] [].

(** Steps 1 to 4 of [fetchPipelineForOrg]: the job listing, the pages of
    active applications, the organisation name, the normalisation. *)
Definition pipelineQueries (fuel : nat) (theOrgId : string)
  (switchedOrg : bool) : M PipelineFetchResult :=
  console (LogFetchingPipeline theOrgId) ;;;
  jobsPipelines <-
    try_catch
      (jobsData <- graphqlQuery ApiOpenJobs (VOpenJobs true false)
                     switchedOrg ;;
       js <- jobsPipelines_of jobsData ;;
       console (LogFoundOpenJobs (length js)) ;;;
       ret js)
      (fun error => console ErrFetchingJobs ;;; throw error) ;;
  applications <- fetchAllApplications fuel ;;
  theOrgName <-
    try_catch
      (userResponse <- graphqlQuery ApiGetSessionUser VNone false ;;
       user <- user_of userResponse ;;
       if String.eqb (organizationId user) theOrgId
       then ret (Some (organizationName user))
       else ret None)
      (fun error => console (WarnOrgName theOrgId) ;;; ret None) ;;
  fun w =>
    (Ret (normalizePipelineData (clock env (trace w)) jobsPipelines
            applications theOrgId theOrgName), w).

(** The switch at the head of [fetchPipelineForOrg]: [Some switchedOrg]
    to go on, [None] when the switch threw and the empty result is
    returned. *)
Definition switchIfNeeded (theOrgId : string) (userId : option string)
  : M (option bool) :=
  match userId with
  | Some u =>
      if (truthy u && negb (String.eqb theOrgId "default"))%bool then
        try_catch (switchOrgContext u ;;; ret (Some true))
                  (fun error =>
                     console (ErrFailedToSwitch theOrgId) ;;; ret None)
      else ret (Some false)
  | None => ret (Some false)
  end.

Definition fetchPipelineForOrg (fuel : nat) (theOrgId : string)
  (userId : option string) : M PipelineFetchResult :=
  switched <- switchIfNeeded theOrgId userId ;;
  match switched with
  | None => ret emptyResult
  | Some switchedOrg => pipelineQueries fuel theOrgId switchedOrg
  end.

(** ** [extractFeedbackText(submittedFormRender)] *)

Definition feedbackFieldNames : list string :=
  ["overallFeedback"; "overall_feedback"; "feedback"; "comments"; "notes";
   "assessment"; "evaluation"]%string.

(** The scan of one [fieldEntries] array: the first usable value. *)
Fixpoint scanEntries (entries : list FieldEntry) : option string :=
  match entries with
  | [] => None
  | entry :: rest =>
      if negb (truthy (fe_field entry)) then scanEntries rest
      else
        let fieldLower := toLowerCase (fe_field entry) in
        if existsb (fun n => includes fieldLower n) feedbackFieldNames then
          match fe_value entry with
          | Some value =>
              if (truthy value && truthy (trim value))%bool
              then Some (trim value)
              else scanEntries rest
          | None => scanEntries rest
          end
        else scanEntries rest
  end.

Fixpoint scanSections (sections : list (option (list FieldEntry)))
  : option string :=
  match sections with
  | [] => None
  | Some entries :: rest =>
      match scanEntries entries with
      | Some v => Some v
      | None => scanSections rest
      end
  | None :: rest => scanSections rest
  end.

Definition extractFeedbackText (submittedFormRender : option FormRender)
  : option string :=
  match submittedFormRender with
  | None => None
  | Some form =>
      match (match fr_fieldEntries form with
             | Some entries => scanEntries entries
             | None => None
             end) with
      | Some v => Some v
      | None =>
          match fr_sections form with
          | Some sections => scanSections sections
          | None => None
          end
      end
  end.

(** ** [fetchApplicationDetails(session, applicationId)] *)

Definition read_query_file : M string :=
  fun w =>
    let r := query_file env (trace w) in
    let w' := mkWorld (session w) (trace w ++ [EvReadQueryFile r]) in
    match r with
    | Some q => (Ret q, w')
    | None => (Throw FileReadError, w')
    end.

Definition fetchApplicationDetails (theApplicationId : string)
  : M (option Details) :=
  try_catch
    (query <- read_query_file ;;
     response <- graphqlQuery ApiApplication (VApplication theApplicationId)
                   false ;;
     match response with
     | DApplication (Some application) =>
         ret (Some
                {| dt_interviewEvents :=
                     match ad_interviewEvents application with
                     | Some evs => evs
                     | None => []
                     end;
                   dt_applicationStatus := ad_applicationStatus application;
                   dt_currentInterviewStage :=
                     ad_currentInterviewStage application;
                   dt_interviewPlan := ad_interviewPlan application;
                   dt_job := ad_jobPlans application |})
     | _ => ret None
     end)
    (fun error => console (ErrDetails theApplicationId) ;;; ret None).

(** ** [enrichCandidatesWithDetails(session, candidates, orgInfos,
       { maxConcurrent = 5, fetchAll = false })] *)

(** [new Map(orgInfos.map(org => [org.id, org.userId])).get(orgId)]: of
    two entries with one key the later one stays. *)
Definition userIdOf (orgInfos : list OrgInfo) (theOrgId : string)
  : option string :=
  fold_left
    (fun found org =>
       if String.eqb (org_id org) theOrgId then Some (org_userId org)
       else found)
    orgInfos None.

(** [orgInfos.find(o => o.id === orgId)?.name || orgId]. *)
Definition orgLabel (orgInfos : list OrgInfo) (theOrgId : string) : string :=
  match find (fun o => String.eqb (org_id o) theOrgId) orgInfos with
  | Some o => or_else (org_name o) theOrgId
  | None => theOrgId
  end.

(** One step of the grouping loop: [candidatesByOrg] keeps its keys in
    insertion order and every group in input order. *)
Fixpoint groupInsert (groups : list (string * list Candidate)) (c : Candidate)
  : list (string * list Candidate) :=
  match groups with
  | [] => [(orgId c, [c])]
  | (k, cs) :: rest =>
      if String.eqb k (orgId c) then (k, cs ++ [c]) :: rest
      else (k, cs) :: groupInsert rest c
  end.

Definition groupByOrg (cands : list Candidate)
  : list (string * list Candidate) :=
  fold_left groupInsert cands [].

Definition interviewEventOf (event : RawInterviewEvent) : InterviewEvent :=
  {| ie_id := re_id event;
     ie_interviewTitle := re_interviewTitle event;
     ie_startTime := re_startTime event;
     ie_endTime := re_endTime event;
     ie_interviewers :=
       map (fun ie =>
              {| iv_name := String.append (rie_firstName ie)
                              (String.append " " (rie_lastName ie));
                 iv_email := rie_email ie;
                 iv_overallRecommendation :=
                   or_null (match rie_scorecardSubmission ie with
                            | Some sc => sc_overallRecommendation sc
                            | None => None
                            end);
                 iv_isFeedbackSubmitted := rie_isFeedbackSubmitted ie |})
           (re_interviewerEvents event) |}.

Definition feedbackOf (event : RawInterviewEvent) (ie : RawInterviewerEvent)
  : InterviewFeedback :=
  let sc := rie_scorecardSubmission ie in
  {| fb_interviewTitle := re_interviewTitle event;
     fb_interviewer := String.append (rie_firstName ie)
                         (String.append " " (rie_lastName ie));
     fb_interviewerEmail := rie_email ie;
     fb_submittedAt :=
       opt_or_else (match sc with Some c => sc_submittedAt c | None => None end)
                   (re_endTime event);
     fb_overallRecommendation :=
       or_null (match sc with
                | Some c => sc_overallRecommendation c
                | None => None
                end);
     fb_feedbackText :=
       extractFeedbackText (match sc with
                            | Some c => sc_submittedFormRender c
                            | None => None
                            end);
     fb_isFeedbackSubmitted := rie_isFeedbackSubmitted ie |}.

Definition allFeedbackOf (events : list RawInterviewEvent)
  : list InterviewFeedback :=
  flat_map
    (fun event =>
       map (feedbackOf event)
           (filter rie_isFeedbackSubmitted (re_interviewerEvents event)))
    events.

(** The comparator [new Date(b.submittedAt) - new Date(a.submittedAt)]
    says that [x] goes before [y]; a [NaN] difference orders nothing. *)
Definition newerThan (x y : InterviewFeedback) : bool :=
  match date_parse env (fb_submittedAt x), date_parse env (fb_submittedAt y) with
  | Some tx, Some ty => ty <? tx
  | _, _ => false
  end.

Fixpoint insertFeedback (x : InterviewFeedback) (l : list InterviewFeedback)
  : list InterviewFeedback :=
  match l with
  | [] => [x]
  | y :: r => if newerThan x y then x :: y :: r else y :: insertFeedback x r
  end.

(** [Array.prototype.sort] with that comparator, as a stable insertion
    sort. *)
Definition sortFeedback (l : list InterviewFeedback) : list InterviewFeedback :=
  fold_left (fun sorted x => insertFeedback x sorted) l [].

Definition decimal (n : nat) : string :=
  NilZero.string_of_uint (Nat.to_uint n).

(** [findIndex]. *)
Fixpoint findIndex {A : Type} (p : A -> bool) (l : list A) : option nat :=
  match l with
  | [] => None
  | x :: r => if p x then Some O else option_map S (findIndex p r)
  end.

(** The plan whose stages are counted: the application's own plan, else
    the job's default plan when that one lists its stages. *)
Definition planStagesOf (details : Details) : option (list PlanStage) :=
  match dt_interviewPlan details with
  | Some plan => Some (plan_interviewStages plan)
  | None =>
      match dt_job details with
      | Some (Some configs) =>
          match find pc_isDefault configs with
          | Some config =>
              match pc_interviewPlan config with
              | Some jplan => jplan_interviewStages jplan
              | None => None
              end
          | None => None
          end
      | _ => None
      end
  end.

(** The object built from [...candidate] and the details. *)
Definition applyDetails (candidate : Candidate) (details : Details)
  : Candidate :=
  let events := map interviewEventOf (dt_interviewEvents details) in
  let feedback := allFeedbackOf (dt_interviewEvents details) in
  let sortedFeedback :=
    sortFeedback (filter (fun f => truthy (fb_submittedAt f)) feedback) in
  let latestFeedback := hd_error sortedFeedback in
  let position :=
    match planStagesOf details, dt_currentInterviewStage details with
    | Some allStages, Some current =>
        let interviewStages :=
          filter (fun st =>
                    (String.eqb (pst_stageType st) "Active"
                     || String.eqb (pst_stageType st) "Offer")%bool)
                 allStages in
        let total := length interviewStages in
        match findIndex (fun st => String.eqb (pst_id st) (stg_id current))
                        interviewStages with
        | Some stageIdx =>
            (Some (Z.of_nat (stageIdx + 1)), Some (Z.of_nat total),
             Some (String.append (decimal (stageIdx + 1))
                     (String.append "/" (decimal total))))
        | None => (None, Some (Z.of_nat total), None)
        end
    | _, _ => (None, None, None)
    end in
  {| id := id candidate;
     applicationId := applicationId candidate;
     name := name candidate;
     currentStage := currentStage candidate;
     pipelineStage :=
       match or_null (match dt_currentInterviewStage details with
                      | Some g => stg_title g
                      | None => None
                      end) with
       | Some t => Some t
       | None => pipelineStage candidate
       end;
     stageType := stageType candidate;
     currentStageIndex := fst (fst position);
     totalStages := snd (fst position);
     stageProgress := snd position;
     jobId := jobId candidate;
     companyId := companyId candidate;
     orgId := orgId candidate;
     orgName := orgName candidate;
     lastActivityAt := lastActivityAt candidate;
     daysInStage := daysInStage candidate;
     needsScheduling := needsScheduling candidate;
     creditedTo := creditedTo candidate;
     source := source candidate;
     decisionStatus := decisionStatus candidate;
     statusPriority := statusPriority candidate;
     statusDueAt := statusDueAt candidate;
     interviewEvents := Some events;
     allFeedback := Some feedback;
     latestOverallRecommendation :=
       or_null (match latestFeedback with
                | Some f => fb_overallRecommendation f
                | None => None
                end);
     latestFeedbackAuthor :=
       or_null (option_map fb_interviewer latestFeedback);
     latestFeedbackDate :=
       or_null (option_map fb_submittedAt latestFeedback);
     feedbackCount := Some (Z.of_nat (length feedback)) |}.

(** The function mapped over a batch. *)
Definition enrichOne (fetchAll : bool) (candidate : Candidate) : M Candidate :=
  if (negb fetchAll && negb (needsScheduling candidate))%bool then ret candidate
  else
    details <- fetchApplicationDetails (applicationId candidate) ;;
    match details with
    | None => ret candidate
    | Some d => ret (applyDetails candidate d)
    end.

(** [await Promise.all(batch.map(f))]: the calls are made in batch order
    and the array of results is in batch order. *)
Fixpoint promiseAll {A B : Type} (f : A -> M B) (batch : list A) : M (list B) :=
  match batch with
  | [] => ret []
  | x :: rest =>
      y <- f x ;;
      ys <- promiseAll f rest ;;
      ret (y :: ys)
  end.

(** [for (let i = 0; i < orgCandidates.length; i += maxConcurrent)],
    allowed [fuel] iterations; [enriched] is [enrichedCandidates]. *)
Fixpoint enrichBatches (fuel : nat) (fetchAll : bool) (maxConcurrent : Z)
  (orgCandidates : list Candidate) (i : Z) (enriched : list Candidate)
  : M (list Candidate) :=
  if negb (i <? Z.of_nat (length orgCandidates)) then ret enriched
  else
    match fuel with
    | O => fun w => (OutOfFuel, w)
    | S fuel' =>
        let batch := slice orgCandidates i (i + maxConcurrent) in
        enrichedBatch <- promiseAll (enrichOne fetchAll) batch ;;
        enrichBatches fuel' fetchAll maxConcurrent orgCandidates
                      (i + maxConcurrent) (enriched ++ enrichedBatch)
    end.

(** The loop over [candidatesByOrg.entries()]. *)
Fixpoint enrichGroups (fuel : nat) (fetchAll : bool) (maxConcurrent : Z)
  (orgInfos : list OrgInfo) (groups : list (string * list Candidate))
  (currentOrgContext : option string) (enriched : list Candidate)
  : M (list Candidate) :=
  match groups with
  | [] => ret enriched
  | (theOrgId, orgCandidates) :: rest =>
      if negb (truthy_opt (userIdOf orgInfos theOrgId)) then
        console (LogNoUserIdForOrg theOrgId (length orgCandidates)) ;;;
        enrichGroups fuel fetchAll maxConcurrent orgInfos rest
                     currentOrgContext (enriched ++ orgCandidates)
      else
        let userId := opt_or_else (userIdOf orgInfos theOrgId) "" in
        switched <-
          (if match currentOrgContext with
              | Some c => negb (String.eqb c theOrgId)
              | None => true
              end
           then
             console (LogSwitchingToOrg (orgLabel orgInfos theOrgId)) ;;;
             try_catch (switchOrgContext userId ;;; ret true)
                       (fun error =>
                          console (ErrEnrichSwitch theOrgId) ;;; ret false)
           else ret true) ;;
        if negb switched then
          enrichGroups fuel fetchAll maxConcurrent orgInfos rest
                       currentOrgContext (enriched ++ orgCandidates)
        else
          enriched' <- enrichBatches fuel fetchAll maxConcurrent
                         orgCandidates 0 enriched ;;
          console (LogEnrichedOrg (length orgCandidates)
                     (orgLabel orgInfos theOrgId)) ;;;
          enrichGroups fuel fetchAll maxConcurrent orgInfos rest
                       (Some theOrgId) enriched'
  end.

Definition defaultMaxConcurrent : Z := 5.

(** The groups are worked through in the order of the map; the count
    lines printed before and after the loop leave no mark in the trace. *)
Definition enrichCandidatesWithDetails (fuel : nat)
  (cands : list Candidate) (orgInfos : list OrgInfo)
  (maxConcurrent : Z) (fetchAll : bool) : M (list Candidate) :=
  enrichGroups fuel fetchAll maxConcurrent orgInfos (groupByOrg cands) None [].

End WithEnv.

End Client.

Import Client.

(* ================================================================== *)
(** * The extract command *)
(* ================================================================== *)

Module Extract.

(** [ExtractOptions]; an absent number also stands for [NaN]. *)
Record ExtractOptions : Type := mkOptions {
  opt_csv : option string;
  opt_json : option string;
  opt_maxOrgs : option Z;
  opt_retries : option Z;
  opt_detailed : bool;
  opt_detailedConcurrent : option Z;
  opt_orgFilter : option string
}.

(** The four accumulators of the command. *)
Record Acc : Type := mkAcc {
  allCompanies : list Company;
  allJobs : list Job;
  allCandidates : list Candidate;
  failedOrgs : list string
}.

(** How the command ends: one of the early exits with exit code 1, or the
    data handed to the exporters with the list of failed organisations
    and the files written. *)
Inductive Outcome : Type :=
| ExitNoSession
| ExitMissingAuthCookies
| ExitDiscoveryFailed (e : Error)
| ExitNoOrganizations
| ExitNoMatchingOrganization
| ExitNoCandidates (failed : list string)
| Exported (data : PipelineFetchResult) (failed : list string)
           (files : list string).

(** [x || d] on an optional number. *)
Definition num_or (x : option Z) (d : Z) : Z :=
  match x with
  | Some z => if z =? 0 then d else z
  | None => d
  end.

Section WithEnv.

Variable env : Env.

Definition addResult (acc : Acc) (r : PipelineFetchResult) : Acc :=
  mkAcc (allCompanies acc ++ companies r)
        (allJobs acc ++ jobs r)
        (allCandidates acc ++ candidates r)
        (failedOrgs acc).

Definition addFailed (acc : Acc) (entry : string) : Acc :=
  mkAcc (allCompanies acc) (allJobs acc) (allCandidates acc)
        (failedOrgs acc ++ [entry]).

(** [for (attempt = 1; attempt <= maxRetries && !success; attempt++)],
    with [k] the number of values of [attempt] left up to [maxRetries]. *)
Fixpoint attemptOrg (fuel : nat) (k : nat) (attempt maxRetries : Z)
  (orgInfo : OrgInfo) (orgDisplayName : string) (acc : Acc) : M Acc :=
  match k with
  | O => ret acc
  | S k' =>
      (if 1 <? attempt then console (LogRetryAttempt attempt maxRetries)
       else ret tt) ;;;
      step <-
        try_catch
          (r <- fetchPipelineForOrg env fuel (org_id orgInfo)
                  (Some (org_userId orgInfo)) ;;
           console (LogFound (length (companies r)) (length (jobs r))
                      (length (candidates r))) ;;;
           ret (true, addResult acc r))
          (fun error =>
             if attempt =? maxRetries then
               console (ErrFailedAfter maxRetries) ;;;
               ret (false, addFailed acc orgDisplayName)
             else
               console (WarnAttemptFailed attempt) ;;;
               sleep (1000 * attempt) ;;;
               ret (false, acc)) ;;
      let '(success, acc') := step in
      if success then ret acc'
      else attemptOrg fuel k' (attempt + 1) maxRetries orgInfo
                      orgDisplayName acc'
  end.

(** [for (let i = 0; i < orgsToProcess.length; i++)], at index [i] of an
    array of [n] organisations of which [orgs] are left. *)
Fixpoint processOrgs (fuel : nat) (maxRetries : Z) (n i : nat)
  (orgs : list OrgInfo) (acc : Acc) : M Acc :=
  match orgs with
  | [] => ret acc
  | orgInfo :: rest =>
      let orgDisplayName := or_else (org_name orgInfo) (org_id orgInfo) in
      console (LogProcessingOrg (i + 1) n orgDisplayName (org_id orgInfo)) ;;;
      if negb (truthy (org_userId orgInfo)) then
        console LogSkippingNoUserId ;;;
        processOrgs fuel maxRetries n (S i) rest
                    (addFailed acc (String.append orgDisplayName " - no userId"))
      else
        acc' <- attemptOrg fuel (Z.to_nat maxRetries) 1 maxRetries orgInfo
                  orgDisplayName acc ;;
        (if Z.of_nat i <? Z.of_nat n - 1 then sleep 500 else ret tt) ;;;
        processOrgs fuel maxRetries n (S i) rest acc'
  end.

Definition emptyAcc : Acc := mkAcc [] [] [] [].

(** The organisations left by [--org] and [--max-orgs]; [None] when the
    filter leaves none. *)
Definition selectOrgs (options : ExtractOptions) (orgInfos : list OrgInfo)
  : option (list OrgInfo) :=
  let capped (l : list OrgInfo) :=
    match opt_maxOrgs options with
    | Some m => if m =? 0 then l else slice l 0 m
    | None => l
    end in
  if truthy_opt (opt_orgFilter options) then
    let filterLower := toLowerCase (opt_or_else (opt_orgFilter options) "") in
    let matching :=
      filter (fun org => includes (toLowerCase (org_name org)) filterLower)
             orgInfos in
    match matching with
    | [] => None
    | _ => Some (capped matching)
    end
  else Some (capped orgInfos).

Definition exportedFiles (options : ExtractOptions) : list string :=
  (if truthy_opt (opt_json options)
   then [opt_or_else (opt_json options) ""] else [])
  ++ (if truthy_opt (opt_csv options)
      then [opt_or_else (opt_csv options) ""] else []).

(** The command once [loadSession] has produced a session. *)
Definition extractWithSession (fuel : nat) (options : ExtractOptions)
  : M Outcome :=
  s <- get_session ;;
  if negb (hasAuthCookie s) then ret ExitMissingAuthCookies
  else
    discovered <-
      try_catch (orgInfos <- fetchAllAvailableOrgs env ;; ret (inr orgInfos))
                (fun error => ret (inl error)) ;;
    match discovered with
    | inl error => ret (ExitDiscoveryFailed error)
    | inr [] => ret ExitNoOrganizations
    | inr orgInfos =>
        match selectOrgs options orgInfos with
        | None => ret ExitNoMatchingOrganization
        | Some orgsToProcess =>
            acc <- processOrgs fuel (num_or (opt_retries options) 1)
                     (length orgsToProcess) 0 orgsToProcess emptyAcc ;;
            match allCandidates acc with
            | [] => ret (ExitNoCandidates (failedOrgs acc))
            | _ =>
                finalCandidates <-
                  (if opt_detailed options then
                     try_catch
                       (enrichCandidatesWithDetails env fuel
                          (allCandidates acc) orgInfos
                          (num_or (opt_detailedConcurrent options) 5) true)
                       (fun error => ret (allCandidates acc))
                   else ret (allCandidates acc)) ;;
                ret (Exported
                       (mkResult (allCompanies acc) (allJobs acc)
                                 finalCandidates)
                       (failedOrgs acc)
                       (exportedFiles options))
            end
        end
    end.

(** [extractCommand(options)], given what [loadSession] yields; the value
    is the outcome with the trace of the run. *)
Definition extractCommand (fuel : nat) (options : ExtractOptions)
  (loaded : option AshbySession) : Result Outcome * list Event :=
  match loaded with
  | None => (Ret ExitNoSession, [])
  | Some s =>
      let (r, w) := extractWithSession fuel options (mkWorld s []) in
      (r, trace w)
  end.

End WithEnv.

End Extract.

Import Extract.


(* ================================================================== *)
(** * The CSV export *)
(* ================================================================== *)

Module Csv.

Definition comma : ascii := ","%char.
Definition dquote : ascii := "034"%char.
Definition newline : ascii := "010"%char.

(** The [replace] that [escaped] applies to a field: every double quote
    is written twice. *)
Fixpoint doubleQuotes (s : string) : string :=
  match s with
  | EmptyString => EmptyString
  | String c r =>
      if Ascii.eqb c dquote
      then String dquote (String dquote (doubleQuotes r))
      else String c (doubleQuotes r)
  end.

(** The function mapped over a row: a field with a comma, a quote or a
    line feed is put in quotes, its own quotes doubled. *)
Definition escapeField (fieldStr : string) : string :=
  if (includes fieldStr (String comma EmptyString)
      || includes fieldStr (String dquote EmptyString)
      || includes fieldStr (String newline EmptyString))%bool
  then String dquote
         (String.append (doubleQuotes fieldStr) (String dquote EmptyString))
  else fieldStr.

(** [parts.join(sep)]. *)
Fixpoint join (sep : string) (parts : list string) : string :=
  match parts with
  | [] => EmptyString
  | p :: rest =>
      match rest with
      | [] => p
      | _ => String.append p (String.append sep (join sep rest))
      end
  end.

(** [escaped.join(',')]: one line of the file. *)
Definition csvLine (row : list string) : string :=
  join (String comma EmptyString) (map escapeField row).

Definition header : list string :=
  ["company_name"; "job_title"; "job_id"; "candidate_name"; "candidate_id";
   "pipeline_stage"; "decision_status"; "stage_type"; "current_stage_index";
   "total_stages"; "stage_progress"; "last_activity_at"; "days_in_stage";
   "needs_scheduling"; "credited_to"; "source"; "feedback_count";
   "latest_recommendation"; "latest_feedback_author"; "latest_feedback_date";
   "current_stage_interviews"; "current_stage_avg_score";
   "current_stage_date"; "interview_history_summary"]%string.

(** [String(n)] for an integer. *)
Definition showZ (z : Z) : string := NilZero.string_of_int (Z.to_int z).

(** [String(x)] for a number. *)
Definition showNum (x : JsNum) : string :=
  match x with
  | JNaN => "NaN"%string
  | JNum z => showZ z
  end.

Definition showBool (b : bool) : string :=
  if b then "true"%string else "false"%string.

(** [x ?? ''] on a string. *)
Definition or_empty (x : option string) : string :=
  match x with
  | Some s => s
  | None => EmptyString
  end.

(** [new Map(items.map(x => [key x, x])).get(k)]: of two items with one
    key the later one stays. *)
Definition lookupLast {A : Type} (key : A -> string) (items : list A)
  (k : string) : option A :=
  fold_left (fun found x => if String.eqb (key x) k then Some x else found)
            items None.

(** The four columns worked out from the interview events of a
    candidate: the interviews of the current stage, their average score,
    their date and the summary of the earlier interviews.  They are
    computed with calendar dates and floating point numbers and are taken
    as given here. *)
Record InterviewColumns : Type := mkColumns {
  currentStageInterviews : string;
  currentStageAvgScore : string;
  currentStageDate : string;
  interviewHistorySummary : string
}.

(** The row of one candidate, before escaping. *)
Definition csvRow (data : PipelineFetchResult) (cols : InterviewColumns)
  (cand : Candidate) : list string :=
  let company := lookupLast company_id (companies data) (companyId cand) in
  let job := lookupLast job_id (jobs data) (jobId cand) in
  [ match or_null (orgName cand) with
    | Some n => n
    | None => opt_or_else (option_map company_name company) ""
    end;
    or_empty (option_map job_title job);
    jobId cand;
    name cand;
    id cand;
    or_empty (pipelineStage cand);
    or_empty (decisionStatus cand);
    or_empty (stageType cand);
    or_empty (option_map showZ (currentStageIndex cand));
    or_empty (option_map showZ (totalStages cand));
    or_empty (stageProgress cand);
    lastActivityAt cand;
    showNum (daysInStage cand);
    showBool (needsScheduling cand);
    or_empty (creditedTo cand);
    or_empty (source cand);
    or_empty (option_map showZ (feedbackCount cand));
    or_empty (latestOverallRecommendation cand);
    or_empty (latestFeedbackAuthor cand);
    or_empty (latestFeedbackDate cand);
    currentStageInterviews cols;
    currentStageAvgScore cols;
    currentStageDate cols;
    interviewHistorySummary cols ].

(** The lines of the file: the header, then one line for each candidate
    in the order of the data. *)
Definition csvLines (data : PipelineFetchResult)
  (columns : Candidate -> InterviewColumns) : list string :=
  join (String comma EmptyString) header
  :: map (fun cand => csvLine (csvRow data (columns cand) cand))
         (candidates data).

(** [lines.join('\n')]: the text written to the file. *)
Definition csvText (lines : list string) : string :=
  join (String newline EmptyString) lines.

End Csv.

Import Csv.

(* ================================================================== *)
(** * The session and its cookie header *)
(* ================================================================== *)

Module SessionFile.

(** The [cookie] header that [createAuthHeaders] builds from the cookies
    of the session: the entries as [name=value], joined with a semicolon
    and a space. *)
Definition cookieHeaderOf (cs : Cookies) : string :=
  join "; " (map (fun kv => String.append (fst kv)
                              (String.append "=" (snd kv))) cs).

(** [s.indexOf(c)] for a character; [None] stands for -1. *)
Fixpoint indexOf (c : ascii) (s : string) : option nat :=
  match s with
  | EmptyString => None
  | String d r => if Ascii.eqb d c then Some O else option_map S (indexOf c r)
  end.

(** The body of the [forEach] of [createSessionFromCookieHeader]: a part
    without an equals sign, or with an empty name or value, is passed
    over. *)
Definition addPair (cookieMap : Cookies) (pair : string) : Cookies :=
  match indexOf "="%char pair with
  | None => cookieMap
  | Some eqIndex =>
      let name := trim (substring 0 eqIndex pair) in
      let value :=
        trim (substring (eqIndex + 1) (String.length pair - (eqIndex + 1))
                        pair) in
      if (truthy name && truthy value)%bool
      then cookie_set cookieMap name value
      else cookieMap
  end.

(** The cookie map made from a pasted cookie string. *)
Definition cookiesOfHeader (cookieHeader : string) : Cookies :=
  fold_left addPair
            (filter truthy (map trim (split ";"%char cookieHeader))) [].

(** [createSessionFromCookieHeader(cookieHeader)]: the session that is
    returned, which is also the one written to the session file. *)
Definition createSessionFromCookieHeader (cookieHeader : string)
  : AshbySession :=
  let cookieMap := cookiesOfHeader cookieHeader in
  mkSession cookieMap (cookie_get cookieMap "csrf") [].

End SessionFile.

Import SessionFile.

(* ================================================================== *)
(** * Vocabulary of the statements *)
(* ================================================================== *)

Module Spec.

(** [k] occurs in [s] as a contiguous run of characters. *)
Definition Substring (k s : string) : Prop :=
  exists a b : string, s = String.append a (String.append k b).

(** The events one call of [fetchCsrfToken] can add to the trace, from
    attempt number [a] on, with the way the call ends: a single fetch that
    settles the call, or a fetch that failed with a status other than 401,
    the backoff sleep, and the rest of the run. *)
Inductive CsrfRun (h : Headers) (retries : Z) (hasCookie : bool)
  : Z -> list Event -> Result string -> Prop :=
| run_unreachable (a : Z) :
    CsrfRun h retries hasCookie a [] (Throw UnreachableCode)
| run_rejected (a : Z) :
    CsrfRun h retries hasCookie a [EvCsrfToken h NetworkError]
            (Throw NetworkFailure)
| run_token (a st : Z) (t : string) :
    ok st = true ->
    CsrfRun h retries hasCookie a [EvCsrfToken h (Response st (Some t))] (Ret t)
| run_invalid (a st : Z) :
    ok st = true ->
    CsrfRun h retries hasCookie a [EvCsrfToken h (Response st None)]
            (Throw InvalidBody)
| run_unauthorized (a : Z) (b : option string) :
    CsrfRun h retries hasCookie a [EvCsrfToken h (Response 401 b)]
            (Throw (CsrfUnauthorized hasCookie))
| run_exhausted (a st : Z) (b : option string) :
    ok st = false -> st <> 401 ->
    CsrfRun h retries hasCookie a [EvCsrfToken h (Response st b)]
            (Throw (CsrfFailedAfter (retries + 1) st))
| run_retry (a st : Z) (b : option string) (evs : list Event)
            (r : Result string) :
    ok st = false -> st <> 401 -> a < retries ->
    CsrfRun h retries hasCookie (a + 1) evs r ->
    CsrfRun h retries hasCookie a
            (EvCsrfToken h (Response st b) :: EvSleep (500 * (a + 1)) :: evs) r.

(** [e] is a token fetch answered with status 401. *)
Definition Unauthorized (e : Event) : Prop :=
  exists h b, e = EvCsrfToken h (Response 401 b).

(** [e] is a token fetch answered with a failure other than 401. *)
Definition TransientFailure (e : Event) : Prop :=
  exists h st b, e = EvCsrfToken h (Response st b) /\ ok st = false /\ st <> 401.

(** Hoare triples over the monad: from a world satisfying [P], the run of
    [m] ends in a result and a world related by [Q]. *)
Definition hoare {A : Type} (P : World -> Prop) (m : M A)
  (Q : Result A -> World -> Prop) : Prop :=
  forall w, P w -> Q (fst (m w)) (snd (m w)).

(** [m] keeps the invariant [J], however it ends. *)
Definition preserves {A : Type} (J : World -> Prop) (m : M A) : Prop :=
  hoare J m (fun _ => J).

(** An invariant that no new event and no change of the session breaks:
    a fact about the trace written so far. *)
Record Stable (J : World -> Prop) : Prop := mkStable {
  stable_event : forall w e, J w -> J (mkWorld (session w) (trace w ++ [e]));
  stable_session : forall w s, J w -> J (mkWorld s (trace w))
}.

(** [m] runs no loop out of its allowance. *)
Definition halts {A : Type} (m : M A) : Prop :=
  forall w, fst (m w) <> OutOfFuel.

(** [m] catches every exception. *)
Definition catches {A : Type} (m : M A) : Prop :=
  forall w e, fst (m w) <> Throw e.

Definition isGraphQL (e : Event) : bool :=
  match e with
  | EvGraphQL _ _ _ _ => true
  | _ => false
  end.

(** The label under which the command reports an organisation:
    [orgInfo.name || orgId]. *)
Definition labelOf (o : OrgInfo) : string := or_else (org_name o) (org_id o).

(** The world after the events [evs]. *)
Definition after (evs : list Event) (w : World) : World :=
  mkWorld (session w) (trace w ++ evs).

(** [e] is a GraphQL call of the operation [op]. *)
Definition isQuery (op : OpName) (e : Event) : bool :=
  match e, op with
  | EvGraphQL ApiGetSessionUser _ _ _, ApiGetSessionUser => true
  | EvGraphQL ApiOpenJobs _ _ _, ApiOpenJobs => true
  | EvGraphQL ApiGetActiveApplications _ _ _, ApiGetActiveApplications => true
  | EvGraphQL ApiApplication _ _ _, ApiApplication => true
  | _, _ => false
  end.

(** The number of GraphQL calls of the operation [op] among [evs]. *)
Definition queryCount (op : OpName) (evs : list Event) : nat :=
  length (filter (isQuery op) evs).

(** The organisations that the answers to [ApiGetSessionUser] reported,
    in order. *)
Definition reportedOrgs (evs : list Event) : list string :=
  flat_map (fun e => match e with
                     | EvGraphQL ApiGetSessionUser _ _
                         (Response _ (GqlJson (DSessionUser user) _)) =>
                         [organizationId user]
                     | _ => []
                     end) evs.

(** The events after the first token fetch that was answered with 401,
    none when there is no such fetch. *)
Fixpoint afterUnauthorized (evs : list Event) : list Event :=
  match evs with
  | [] => []
  | EvCsrfToken _ (Response 401 _) :: rest => rest
  | _ :: rest => afterUnauthorized rest
  end.

(** [m], when it returns a value, returns one that satisfies [Q]. *)
Definition yields {A : Type} (m : M A) (Q : A -> Prop) : Prop :=
  forall w a w', m w = (Ret a, w') -> Q a.

(** The candidates of [acc'] are those of [acc] and then some more. *)
Definition grows (acc acc' : Acc) : Prop :=
  exists more, allCandidates acc' = allCandidates acc ++ more.

(** The request for a page of active applications at the cursor [c],
    with the answer [out]. *)
Definition pageQuery (h : Headers) (c : option string) (out : Http GqlBody)
  : Event :=
  EvGraphQL ApiGetActiveApplications (VActiveApplications c pageLimit) h out.

(** The answer that carries one page. *)
Definition pageAnswer (status : Z) (page : ApplicationsPage) : Http GqlBody :=
  Response status (GqlJson (DApplications page) None).

(** ** The token discipline around a switch *)

(** What a call sends for the token [t]: nothing when it is empty. *)
Definition sentToken (t : string) : option string :=
  if truthy t then Some t else None.

Definition sameToken (a b : option string) : bool :=
  match a, b with
  | Some x, Some y => String.eqb x y
  | None, None => true
  | _, _ => false
  end.

(** Where a trace stands: no switch has succeeded yet, or one has and
    [tokens] are the tokens fetched since the last one that did, newest
    first. *)
Inductive TokenState : Type :=
| Idle
| Since (tokens : list string).

Definition pushToken (t : string) (s : TokenState) : TokenState :=
  match s with
  | Idle => Idle
  | Since l => Since (t :: l)
  end.

(** One event; [None] once a GraphQL call went out, after a switch that
    succeeded, without one of the tokens fetched since. *)
Definition tokenStep (st : option TokenState) (e : Event)
  : option TokenState :=
  match st with
  | None => None
  | Some s =>
      match e with
      | EvChangeUser _ _ (Response status _) =>
          if ok status then Some (Since []) else Some s
      | EvCsrfToken _ (Response status (Some t)) =>
          if ok status then Some (pushToken t s) else Some s
      | EvGraphQL _ _ h _ =>
          match s with
          | Idle => Some Idle
          | Since l =>
              if existsb (fun t => sameToken (h_csrf h) (sentToken t)) l
              then Some s else None
          end
      | _ => Some s
      end
  end.

Definition tokenRun (evs : list Event) : option TokenState :=
  fold_left tokenStep evs (Some Idle).

(** Between a switch request that succeeded and any later GraphQL call, a
    token was fetched, and the call carries a token fetched in between. *)
Definition TokenDiscipline (evs : list Event) : Prop :=
  forall pre u h st b mid op vars hq out post,
    evs = pre ++ EvChangeUser u h (Response st b)
              :: mid ++ EvGraphQL op vars hq out :: post ->
    ok st = true ->
    exists h' st' tok,
      In (EvCsrfToken h' (Response st' (Some tok))) mid
      /\ ok st' = true
      /\ h_csrf hq = sentToken tok.

(** The invariant of the session between the steps of the client: the
    trace is in order so far, and once a switch has succeeded the session
    holds no usable token or one fetched since. *)
Definition TokenInv (w : World) : Prop :=
  match tokenRun (trace w) with
  | None => False
  | Some Idle => True
  | Some (Since l) =>
      truthy_opt (csrfToken (session w)) = false
      \/ exists t, In t l /\ csrfToken (session w) = Some t
  end.

(** The headers [h] may go out in the world [w]. *)
Definition Accepted (h : Headers) (w : World) : Prop :=
  match tokenRun (trace w) with
  | None => False
  | Some Idle => True
  | Some (Since l) => exists t, In t l /\ h_csrf h = sentToken t
  end.

(** The token [t] is one fetched since the last switch that succeeded. *)
Definition Fetched (t : string) (w : World) : Prop :=
  match tokenRun (trace w) with
  | None => False
  | Some Idle => True
  | Some (Since l) => In t l
  end.

(** An event that is neither a switch, nor a token fetch, nor a GraphQL
    call. *)
Definition neutral (e : Event) : bool :=
  match e with
  | EvIdentities _ _ | EvReadQueryFile _ | EvSleep _ | EvConsole _ => true
  | _ => false
  end.

(** A switch request went through and nothing has been fetched since. *)
Definition Switched (w : World) : Prop :=
  tokenRun (trace w) = Some (Since []).

(** ** Enrichment *)

(** The pair that identifies a record within its tenant. *)
Definition candidateKey (c : Candidate) : string * string :=
  (id c, applicationId c).

(** [c'] is the record [c] as it was, or [c] with the enrichment fields
    worked out from some details. *)
Definition EnrichedOrSame (env : Env) (c c' : Candidate) : Prop :=
  c' = c \/ exists d, c' = applyDetails env c d.

(** The fields of a record that the enrichment does not set. *)
Definition copiedFields (c : Candidate) :=
  (id c, applicationId c, name c, currentStage c, stageType c, jobId c,
   companyId c, orgId c, orgName c, lastActivityAt c, daysInStage c,
   needsScheduling c, creditedTo c, source c, decisionStatus c,
   statusPriority c, statusDueAt c).

(** The users a switch was requested for, in order. *)
Definition switchRequests (evs : list Event) : list string :=
  flat_map (fun e => match e with
                     | EvChangeUser u _ _ => [u]
                     | _ => []
                     end) evs.

(** ** Discovery and normalisation *)

(** The entry that discovery makes for an identity. *)
Definition orgOf (i : Identity) : OrgInfo :=
  mkOrg (idn_orgId i) (idn_orgName i) (idn_userId i).

(** The two maps fit: no id twice, and the company of every job is in
    the company map. *)
Definition Fit (cs : list Company) (js : list Job) : Prop :=
  NoDup (map company_id cs) /\ NoDup (map job_id js)
  /\ forall j, In j js -> In (job_companyId j) (map company_id cs).


(** The groups after the records [seen]. *)
Definition Grouped (seen : list Candidate)
  (groups : list (string * list Candidate)) : Prop :=
  NoDup (map fst groups)
  /\ (forall k cs, In (k, cs) groups ->
        cs <> [] /\ cs = filter (fun c => String.eqb (orgId c) k) seen)
  /\ (forall c, In c seen -> In (orgId c) (map fst groups)).


(** ** Counting what a call does *)

Definition isTokenRequest (e : Event) : bool :=
  match e with
  | EvCsrfToken _ _ => true
  | _ => false
  end.

(** The number of token requests among [evs]. *)
Definition tokenRequests (evs : list Event) : nat :=
  length (filter isTokenRequest evs).

(** The time spent sleeping in [evs], in milliseconds. *)
Definition sleepTotal (evs : list Event) : Z :=
  fold_right (fun e acc => match e with
                           | EvSleep ms => ms + acc
                           | _ => acc
                           end) 0 evs.

(** [e] is a token request or a sleep. *)
Definition isTokenStep (e : Event) : bool :=
  match e with
  | EvCsrfToken _ _ | EvSleep _ => true
  | _ => false
  end.

(** ** The cookie jar *)

(** No cookie of the session [s0] is missing from the session of [w]. *)
Definition KeepsCookies (s0 : AshbySession) (w : World) : Prop :=
  forall n, cookie_get (cookies s0) n <> None ->
            cookie_get (cookies (session w)) n <> None.

(** ** What the remote said about the session *)

(** The answer to a session-user query that reports the organisation
    [o] under the name [n]. *)
Definition reportsOrg (o n : string) (e : Event) : Prop :=
  exists vars h st,
    e = EvGraphQL ApiGetSessionUser vars h
          (Response st (GqlJson (DSessionUser (mkSessionUser o n)) None))
    /\ ok st = true.

(** ** Feedback forms *)

(** The entries of a form in the order they are scanned: the entries of
    the form itself, then those of its sections. *)
Definition allEntries (form : FormRender) : list FieldEntry :=
  match fr_fieldEntries form with
  | Some entries => entries
  | None => []
  end
  ++ match fr_sections form with
     | Some sections =>
         flat_map (fun section => match section with
                                  | Some entries => entries
                                  | None => []
                                  end) sections
     | None => []
     end.

(** The field name of [entry] holds one of the feedback names, whatever
    the case of its letters. *)
Definition isFeedbackField (entry : FieldEntry) : bool :=
  existsb (fun n => includes (toLowerCase (fe_field entry)) n)
          feedbackFieldNames.

(** ** The organisations of a run *)

(** The organisation passes the [--org] filter of the options; every
    organisation does when there is none. *)
Definition matchesFilter (options : ExtractOptions) (org : OrgInfo) : bool :=
  if truthy_opt (opt_orgFilter options) then
    includes (toLowerCase (org_name org))
             (toLowerCase (opt_or_else (opt_orgFilter options) ""))
  else true.

(** What the loop of the command leaves of one organisation in its
    accumulators: without a user id an entry in the list of failures that
    says so; with one, the result of a fetch or an entry in the list of
    failures. *)
Definition settles (o : OrgInfo) (acc acc' : Acc) : Prop :=
  if truthy (org_userId o) then
    (exists r, acc' = addResult acc r) \/ acc' = addFailed acc (labelOf o)
  else
    acc' = addFailed acc (String.append (labelOf o) " - no userId").

(** The organisations [orgs] settled one after the other, from [acc] to
    [acc']. *)
Fixpoint settledAll (orgs : list OrgInfo) (acc acc' : Acc) : Prop :=
  match orgs with
  | [] => acc' = acc
  | o :: rest => exists acc1, settles o acc acc1 /\ settledAll rest acc1 acc'
  end.

(** ** Reading CSV text *)

(** Where a reader of CSV text stands: at the start of a field, within a
    field without quotes, within a quoted field, or just after a quote
    met within a quoted field. *)
Inductive CsvMode : Type := AtStart | InPlain | InQuoted | AfterQuote.

(** The rows and the fields of the current row read so far, and the
    characters of the current field. *)
Record CsvState : Type := mkCsv {
  cs_rows : list (list string);
  cs_fields : list string;
  cs_cur : string;
  cs_mode : CsvMode
}.

Definition snoc (s : string) (c : ascii) : string :=
  String.append s (String c EmptyString).

Definition endField (st : CsvState) : CsvState :=
  mkCsv (cs_rows st) (cs_fields st ++ [cs_cur st]) EmptyString AtStart.

Definition endRow (st : CsvState) : CsvState :=
  mkCsv (cs_rows st ++ [cs_fields st ++ [cs_cur st]]) [] EmptyString AtStart.

(** One character: a comma ends a field and a line feed a row, unless
    within quotes; a quote opens a quoted field at the start of a field;
    within a quoted field two quotes stand for one, and one quote closes
    the field. *)
Definition csvStep (st : CsvState) (c : ascii) : CsvState :=
  let keep m := mkCsv (cs_rows st) (cs_fields st) (cs_cur st) m in
  let add x m := mkCsv (cs_rows st) (cs_fields st) (snoc (cs_cur st) x) m in
  match cs_mode st with
  | InQuoted => if Ascii.eqb c dquote then keep AfterQuote else add c InQuoted
  | AfterQuote =>
      if Ascii.eqb c dquote then add dquote InQuoted
      else if Ascii.eqb c comma then endField st
      else if Ascii.eqb c newline then endRow st
      else add c InPlain
  | AtStart =>
      if Ascii.eqb c dquote then keep InQuoted
      else if Ascii.eqb c comma then endField st
      else if Ascii.eqb c newline then endRow st
      else add c InPlain
  | InPlain =>
      if Ascii.eqb c comma then endField st
      else if Ascii.eqb c newline then endRow st
      else add c InPlain
  end.

Fixpoint csvRun (st : CsvState) (s : string) : CsvState :=
  match s with
  | EmptyString => st
  | String c r => csvRun (csvStep st c) r
  end.

(** The rows that a reader finds in a text. *)
Definition readCsv (s : string) : list (list string) :=
  cs_rows (endRow (csvRun (mkCsv [] [] EmptyString AtStart) s)).

(** ** Cookies *)

(** [s] does not hold the character [c]. *)
Fixpoint lacks (c : ascii) (s : string) : Prop :=
  match s with
  | EmptyString => True
  | String d r => d <> c /\ lacks c r
  end.

(** A string that is not empty and has no white space at either end. *)
Definition Tight (s : string) : Prop := s <> EmptyString /\ trim s = s.

(** A cookie that a cookie header can carry: name and value are tight
    and hold no semicolon, and the name holds no equals sign. *)
Definition Portable (kv : string * string) : Prop :=
  Tight (fst kv) /\ Tight (snd kv)
  /\ lacks ";"%char (fst kv) /\ lacks ";"%char (snd kv)
  /\ lacks "="%char (fst kv).

(** ** Feedback in time *)

(** The time at which the feedback [f] was submitted, when its date can
    be read. *)
Definition submittedTime (env : Env) (f : InterviewFeedback) : option Z :=
  date_parse env (fb_submittedAt f).

(** Newest first: every feedback of the list has a time that can be
    read, and none is newer than one before it. *)
Fixpoint NewestFirst (env : Env) (l : list InterviewFeedback) : Prop :=
  match l with
  | [] => True
  | f :: r =>
      exists t,
        submittedTime env f = Some t
        /\ (forall g, In g r ->
              exists tg, submittedTime env g = Some tg /\ tg <= t)
        /\ NewestFirst env r
  end.

(** ** Counting switches *)

(** The number of switch requests among [evs]. *)
Definition switchCount (evs : list Event) : nat :=
  length (switchRequests evs).

(** [m] makes at most [k] switch requests. *)
Definition adds {A : Type} (k : nat) (m : M A) : Prop :=
  forall w,
    (switchCount (trace (snd (m w))) <= switchCount (trace w) + k)%nat.

Definition isSwitch (e : Event) : bool :=
  match e with
  | EvChangeUser _ _ _ => true
  | _ => false
  end.

(** ** Counting GraphQL calls *)

(** [m] makes at most [k] GraphQL calls of the operation [op]. *)
Definition sends {A : Type} (op : OpName) (k : nat) (m : M A) : Prop :=
  forall w,
    (queryCount op (trace (snd (m w))) <= queryCount op (trace w) + k)%nat.

(** The candidates whose details enrichment asks for: those that the
    mapper does not hand back at once. *)
Definition wantsDetails (fetchAll : bool) (c : Candidate) : bool :=
  negb (negb fetchAll && negb (needsScheduling c)).

(** ** The joins of the export *)

(** The candidate names a job among [js] and a company among [cs]. *)
Definition Linked (cs : list Company) (js : list Job) (c : Candidate) : Prop :=
  In (jobId c) (map job_id js) /\ In (companyId c) (map company_id cs).

(** Every candidate gathered so far names a job and a company gathered so
    far. *)
Definition AccLinked (acc : Acc) : Prop :=
  Forall (Linked (allCompanies acc) (allJobs acc)) (allCandidates acc).

End Spec.

Import Spec.

(* ================================================================== *)
(** * Sample sessions and remotes *)
(* ================================================================== *)

Module Fixtures.

Definition aliceCookies : Cookies := [("ashby_session_token", "s3cr3t")]%string.

Definition aliceSession : AshbySession := mkSession aliceCookies None [].

Definition start (s : AshbySession) : World := mkWorld s [].

(** The number of token fetches made so far. *)
Definition csrfCalls (history : list Event) : nat :=
  length (filter (fun e => match e with EvCsrfToken _ _ => true | _ => false end)
                 history).

(** A remote that answers nothing: every call fails with status 500. *)
Definition deadEnv : Env :=
  {| remote_csrf := fun _ _ => Response 500 None;
     remote_change_user := fun _ _ _ => Response 500 None;
     remote_identities := fun _ _ => Response 500 None;
     remote_graphql := fun _ _ _ _ => Response 500 GqlUnparsable;
     query_file := fun _ => None;
     clock := fun _ => 0;
     date_parse := fun _ => None |}.

(** The token endpoint fails once with 503 and then rejects the session. *)
Definition expiringEnv : Env :=
  {| remote_csrf := fun history _ =>
       if Nat.eqb (csrfCalls history) 0 then Response 503 None
       else Response 401 None;
     remote_change_user := remote_change_user deadEnv;
     remote_identities := remote_identities deadEnv;
     remote_graphql := remote_graphql deadEnv;
     query_file := query_file deadEnv;
     clock := clock deadEnv;
     date_parse := date_parse deadEnv |}.

(** ** A scripted remote

    The tenant bound on the remote side is the user of the last switch
    that succeeded; the answers may depend on it. *)

Fixpoint boundUser (history : list Event) (bound : option string)
  : option string :=
  match history with
  | [] => bound
  | EvChangeUser u _ (Response st _) :: rest =>
      boundUser rest (if ok st then Some u else bound)
  | _ :: rest => boundUser rest bound
  end.

Record Mock : Type := mkMock {
  mock_identities : list Identity;
  mock_csrf : list Event -> Http (option string);
  mock_switch : string -> Http (option string);
  mock_sessionUser : option string -> Http GqlBody;
  mock_jobs : option string -> Http GqlBody;
  mock_applications : option string -> option string -> Http GqlBody;
  mock_detail : string -> Http GqlBody
}.

Definition mockEnv (m : Mock) : Env :=
  {| remote_csrf := fun history _ => mock_csrf m history;
     remote_change_user := fun _ u _ => mock_switch m u;
     remote_identities := fun _ _ => Response 200 (Some (mock_identities m));
     remote_graphql := fun history op vars _ =>
       let bound := boundUser history None in
       match op, vars with
       | ApiGetSessionUser, _ => mock_sessionUser m bound
       | ApiOpenJobs, _ => mock_jobs m bound
       | ApiGetActiveApplications, VActiveApplications c _ =>
           mock_applications m bound c
       | ApiApplication, VApplication a => mock_detail m a
       | _, _ => Response 400 GqlUnparsable
       end;
     query_file := fun _ => Some "query ApiApplication"%string;
     clock := fun _ => 864000000;
     date_parse := fun _ => Some 0 |}.

Definition good (d : GqlData) : Http GqlBody := Response 200 (GqlJson d None).

Definition application (n : string) : ApplicationResult :=
  {| app_id := String.append "app-" n;
     app_jobId := "job-1";
     app_jobTitle := "Engineer";
     app_candidateId := String.append "cand-" n;
     app_candidateName := n;
     app_candidateCompany := None;
     app_sourceTitle := None;
     app_creditedToUser := None;
     app_applicationStatus := None;
     app_createdAt := "2024-01-01";
     app_currentInterviewStage := None |}.

Definition acme : Identity := mkIdentity "user-a" "org-a" "Acme".
Definition globex : Identity := mkIdentity "user-b" "org-b" "Globex".

Definition acmeApplications : list ApplicationResult :=
  [application "ann"; application "bob"; application "cy"].

Definition globexApplications : list ApplicationResult :=
  [application "dee"; application "eve"].

Definition sessionUserOf (bound : option string) : Http GqlBody :=
  match bound with
  | Some "user-a"%string => good (DSessionUser (mkSessionUser "org-a" "Acme"))
  | Some "user-b"%string => good (DSessionUser (mkSessionUser "org-b" "Globex"))
  | _ => good (DSessionUser (mkSessionUser "org-home" "Home"))
  end.

Definition applicationsOf (bound : option string) (c : option string)
  : Http GqlBody :=
  match bound with
  | Some "user-a"%string =>
      good (DApplications (mkPage acmeApplications None false))
  | Some "user-b"%string =>
      good (DApplications (mkPage globexApplications None false))
  | _ => good (DApplications (mkPage [] None false))
  end.

(** Two tenants, every call answered. *)
Definition twoTenants : Mock :=
  {| mock_identities := [acme; globex];
     mock_csrf := fun history =>
       Response 200 (Some (String.append "token-" (decimal (csrfCalls history))));
     mock_switch := fun _ => Response 200 None;
     mock_sessionUser := sessionUserOf;
     mock_jobs := fun _ => good (DJobsPipelines [mkJobPipeline "job-1" "Engineer"]);
     mock_applications := applicationsOf;
     mock_detail := fun _ => good (DApplication None) |}.

(** The same, but the switch to Globex is refused. *)
Definition globexSwitchRefused : Mock :=
  {| mock_identities := mock_identities twoTenants;
     mock_csrf := mock_csrf twoTenants;
     mock_switch := fun u =>
       if String.eqb u "user-b" then Response 403 None else Response 200 None;
     mock_sessionUser := mock_sessionUser twoTenants;
     mock_jobs := mock_jobs twoTenants;
     mock_applications := mock_applications twoTenants;
     mock_detail := mock_detail twoTenants |}.

(** The same as [twoTenants], but the fourth token fetch of the run, the
    forced refresh before Acme's job listing, is answered with 401. *)
Definition sessionRejectedAtAcme : Mock :=
  {| mock_identities := mock_identities twoTenants;
     mock_csrf := fun history =>
       if Nat.eqb (csrfCalls history) 3 then Response 401 None
       else mock_csrf twoTenants history;
     mock_switch := mock_switch twoTenants;
     mock_sessionUser := mock_sessionUser twoTenants;
     mock_jobs := mock_jobs twoTenants;
     mock_applications := mock_applications twoTenants;
     mock_detail := mock_detail twoTenants |}.

(** The same as [twoTenants], but the session stays bound to the home
    organisation whatever switch is asked for. *)
Definition switchHasNoEffect : Mock :=
  {| mock_identities := mock_identities twoTenants;
     mock_csrf := mock_csrf twoTenants;
     mock_switch := mock_switch twoTenants;
     mock_sessionUser := fun _ => sessionUserOf None;
     mock_jobs := mock_jobs twoTenants;
     mock_applications := fun _ _ =>
       good (DApplications (mkPage [application "zed"] None false));
     mock_detail := mock_detail twoTenants |}.

(** The same as [twoTenants], but the query that verifies a switch
    fails. *)
Definition verificationFails : Mock :=
  {| mock_identities := mock_identities twoTenants;
     mock_csrf := mock_csrf twoTenants;
     mock_switch := mock_switch twoTenants;
     mock_sessionUser := fun _ => Response 500 GqlUnparsable;
     mock_jobs := mock_jobs twoTenants;
     mock_applications := mock_applications twoTenants;
     mock_detail := mock_detail twoTenants |}.

(** No identity is listed, yet the session is bound to an organisation. *)
Definition noIdentities : Mock :=
  {| mock_identities := [];
     mock_csrf := mock_csrf twoTenants;
     mock_switch := mock_switch twoTenants;
     mock_sessionUser := mock_sessionUser twoTenants;
     mock_jobs := mock_jobs twoTenants;
     mock_applications := mock_applications twoTenants;
     mock_detail := mock_detail twoTenants |}.

(** Every page of applications reports more data and hands back the
    cursor it was asked with. *)
Definition cursorStuck : Mock :=
  {| mock_identities := mock_identities twoTenants;
     mock_csrf := mock_csrf twoTenants;
     mock_switch := mock_switch twoTenants;
     mock_sessionUser := mock_sessionUser twoTenants;
     mock_jobs := mock_jobs twoTenants;
     mock_applications := fun _ c =>
       good (DApplications (mkPage [] c true));
     mock_detail := mock_detail twoTenants |}.

(** A remote that answers the requests for a page of applications from
    the list [pages], one page per request in order, and with status 500
    once the list is used up. *)
Definition pagesEnv (pages : list ApplicationsPage) : Env :=
  {| remote_csrf := fun _ _ => Response 200 (Some "token"%string);
     remote_change_user := fun _ _ _ => Response 200 None;
     remote_identities := fun _ _ => Response 200 (Some []);
     remote_graphql := fun history op _ _ =>
       match op with
       | ApiGetActiveApplications =>
           match nth_error pages
                   (queryCount ApiGetActiveApplications history) with
           | Some page => pageAnswer 200 page
           | None => Response 500 GqlUnparsable
           end
       | _ => Response 500 GqlUnparsable
       end;
     query_file := fun _ => None;
     clock := fun _ => 0;
     date_parse := fun _ => None |}.

(** [n] applications, numbered from [from]. *)
Definition applicationsFrom (from n : nat) : list ApplicationResult :=
  map (fun k => application (decimal k)) (seq from n).

Definition firstPage : ApplicationsPage :=
  mkPage (applicationsFrom 0 100) (Some "cursor-1"%string) true.

Definition secondPage : ApplicationsPage :=
  mkPage (applicationsFrom 100 20) None false.

(** A session that holds a token. *)
Definition tokenSession : AshbySession :=
  mkSession aliceCookies (Some "token"%string) [].

Definition defaultOptions : ExtractOptions :=
  {| opt_csv := Some "out.csv"%string;
     opt_json := Some "out.json"%string;
     opt_maxOrgs := None;
     opt_retries := None;
     opt_detailed := false;
     opt_detailedConcurrent := None;
     opt_orgFilter := None |}.

(** Details of Ann's application: one interview with feedback, second of
    two stages. *)
Definition annDetail : ApplicationDetail :=
  {| ad_interviewEvents :=
       Some [mkRawEvent "ev-1" "2024-02-01T10:00" "2024-02-01T11:00"
               "Tech screen"
               [mkRawInterviewer "Ira" "Moss" "ira@acme.test"
                  (Some (mkScorecard (Some "4") (Some "2024-02-01T12:00")
                           None))
                  true]];
     ad_applicationStatus := None;
     ad_currentInterviewStage := Some (mkStage "st-2" (Some "Onsite") "Active");
     ad_interviewPlan :=
       Some (mkPlan "plan-1" [mkPlanStage "st-1" "Screen" "Active";
                              mkPlanStage "st-2" "Onsite" "Active"]);
     ad_jobPlans := None |}%string.

(** Two tenants; Ann's details are there, the call for Bob's is answered
    with status 500, every other application is unknown. *)
Definition someDetails : Mock :=
  {| mock_identities := mock_identities twoTenants;
     mock_csrf := mock_csrf twoTenants;
     mock_switch := mock_switch twoTenants;
     mock_sessionUser := mock_sessionUser twoTenants;
     mock_jobs := mock_jobs twoTenants;
     mock_applications := mock_applications twoTenants;
     mock_detail := fun a =>
       if String.eqb a "app-ann" then good (DApplication (Some annDetail))
       else if String.eqb a "app-bob" then Response 500 GqlUnparsable
       else good (DApplication None) |}.

(** Records of both tenants, interleaved. *)
Definition mixedCandidates : list Candidate :=
  [candidateOf (mockEnv twoTenants) 0 "org-a" (Some "Acme") (application "ann");
   candidateOf (mockEnv twoTenants) 0 "org-b" (Some "Globex") (application "dee");
   candidateOf (mockEnv twoTenants) 0 "org-a" (Some "Acme") (application "bob");
   candidateOf (mockEnv twoTenants) 0 "org-b" (Some "Globex") (application "eve");
   candidateOf (mockEnv twoTenants) 0 "org-a" (Some "Acme") (application "cy")]%string.

(** Only Acme comes with a user id. *)
Definition acmeOnly : list OrgInfo := [mkOrg "org-a" "Acme" "user-a"]%string.


(** The entries that discovery makes of Acme and Globex, and Initech,
    which comes without a user id. *)
Definition threeOrgs : list OrgInfo :=
  [mkOrg "org-a" "Acme" "user-a"; mkOrg "org-c" "Initech" "";
   mkOrg "org-b" "Globex" "user-b"]%string.

(** A cookie jar with a token whose value ends in an equals sign. *)
Definition sampleJar : Cookies :=
  [("ashby_session_token", "s3cr3t"); ("csrf", "t0k3n=")]%string.

(** The details of Ann's application as [fetchApplicationDetails] hands
    them on. *)
Definition annDetails : Details :=
  {| dt_interviewEvents :=
       match ad_interviewEvents annDetail with
       | Some evs => evs
       | None => []
       end;
     dt_applicationStatus := ad_applicationStatus annDetail;
     dt_currentInterviewStage := ad_currentInterviewStage annDetail;
     dt_interviewPlan := ad_interviewPlan annDetail;
     dt_job := ad_jobPlans annDetail |}.

End Fixtures.

Import Fixtures.

(* ================================================================== *)
(** * Properties *)
(* ================================================================== *)

Section StringFacts.

Lemma prefix_append (k b : string) : String.prefix k (String.append k b) = true.
Proof.
  induction k as [|c k IH]; simpl.
  - now destruct b.
  - destruct (Ascii.ascii_dec c c) as [_|ne]; [exact IH | now elim ne].
Qed.

Lemma includes_of_prefix (s k : string) :
  String.prefix k s = true -> includes s k = true.
Proof.
  intros H. destruct s; cbn [includes]; rewrite H; reflexivity.
Qed.

Lemma includes_append (a k b : string) :
  includes (String.append a (String.append k b)) k = true.
Proof.
  induction a as [|c a IH].
  - apply includes_of_prefix. exact (prefix_append k b).
  - cbn [String.append includes]. rewrite IH. apply orb_true_r.
Qed.

Lemma toLowerCase_append (a b : string) :
  toLowerCase (String.append a b)
  = String.append (toLowerCase a) (toLowerCase b).
Proof.
  induction a as [|c a IH]; simpl; [reflexivity | now rewrite IH].
Qed.

Lemma Substring_includes (k s : string) :
  Substring k s -> includes s k = true.
Proof.
  intros (a & b & ->). apply includes_append.
Qed.

Lemma Substring_lower (k s : string) :
  Substring k s -> Substring (toLowerCase k) (toLowerCase s).
Proof.
  intros (a & b & ->). exists (toLowerCase a), (toLowerCase b).
  now rewrite !toLowerCase_append.
Qed.

Lemma Substring_truthy (k s : string) :
  Substring k s -> truthy k = true -> truthy s = true.
Proof.
  intros (a & b & ->) Hk.
  destruct a; simpl; [| reflexivity].
  destruct k; [discriminate | reflexivity].
Qed.

End StringFacts.

(** C9. The scheduling-needed predicate, at the default threshold of 7
    days: a stage type that contains "interview" is flagged when the
    record has spent 7 days in its stage and is not flagged at 6 days; the
    stage type "offer" is never flagged, whatever the day count (a number
    or NaN). *)
Theorem needs_scheduling_interview_offer :
  (forall st : string, Substring "interview" st ->
     computeNeedsScheduling (Some st) (JNum 7) defaultThreshold = true)
  /\ (forall st : string, Substring "interview" st ->
     computeNeedsScheduling (Some st) (JNum 6) defaultThreshold = false)
  /\ (forall days : JsNum,
     computeNeedsScheduling (Some "offer"%string) days defaultThreshold = false).
Proof.
  assert (key : forall st, Substring "interview" st ->
            truthy st = true /\
            existsb (fun keyword => includes (toLowerCase st) keyword)
                    interviewKeywords = true).
  { intros st H. split.
    - now apply (Substring_truthy "interview").
    - cbn [interviewKeywords existsb].
      rewrite (Substring_includes "interview" (toLowerCase st)).
      + reflexivity.
      + exact (Substring_lower "interview" st H). }
  split; [| split].
  - intros st H. destruct (key st H) as [Ht He].
    unfold computeNeedsScheduling. now rewrite Ht, He.
  - intros st H. destruct (key st H) as [Ht He].
    unfold computeNeedsScheduling. now rewrite Ht, He.
  - intros days. unfold computeNeedsScheduling.
    cbn. reflexivity.
Qed.

Lemma needs_scheduling_interview_offer_witness :
  computeNeedsScheduling (Some "onsite interview loop"%string) (JNum 7)
                         defaultThreshold = true
  /\ computeNeedsScheduling (Some "phone interview"%string) (JNum 6)
                            defaultThreshold = false.
Proof.
  destruct needs_scheduling_interview_offer as (H7 & H6 & _).
  split.
  - apply H7. exists "onsite "%string, " loop"%string. reflexivity.
  - apply H6. exists "phone "%string, ""%string. reflexivity.
Defined.

(* ------------------------------------------------------------------ *)
(** ** Reading a run of the monad *)

Section MonadFacts.

Context {A B : Type}.

Lemma bind_inv (m : M A) (k : A -> M B) (w w' : World) (r : Result B) :
  bind m k w = (r, w') ->
  (exists a w1, m w = (Ret a, w1) /\ k a w1 = (r, w'))
  \/ (exists e, m w = (Throw e, w') /\ r = Throw e)
  \/ (m w = (OutOfFuel, w') /\ r = OutOfFuel).
Proof.
  unfold bind. destruct (m w) as [[a|e|] w1]; intros H.
  - left. eauto.
  - right; left. injection H as <- <-. eauto.
  - right; right. injection H as <- <-. eauto.
Qed.

Lemma try_catch_inv (m : M A) (handler : Error -> M A) (w w' : World)
  (r : Result A) :
  try_catch m handler w = (r, w') ->
  (exists a, m w = (Ret a, w') /\ r = Ret a)
  \/ (exists e w1, m w = (Throw e, w1) /\ handler e w1 = (r, w'))
  \/ (m w = (OutOfFuel, w') /\ r = OutOfFuel).
Proof.
  unfold try_catch. destruct (m w) as [[a|e|] w1]; intros H.
  - left. injection H as <- <-. eauto.
  - right; left. eauto.
  - right; right. injection H as <- <-. eauto.
Qed.

End MonadFacts.

(** Splits a hypothesis [bind m k w = (r, w')] into its three cases. *)
Ltac bind_cases H :=
  let a := fresh "a" in
  let e := fresh "e" in
  let w1 := fresh "w" in
  let Hm := fresh "Hm" in
  let Hk := fresh "Hk" in
  apply bind_inv in H;
  destruct H as [(a & w1 & Hm & Hk) | [(e & Hm & Hk) | (Hm & Hk)]].

Section HoareRules.

Context {A B : Type}.

Lemma hoare_bind (P : World -> Prop) (m : M A) (Q : Result A -> World -> Prop)
  (k : A -> M B) (R : Result B -> World -> Prop) :
  hoare P m Q ->
  (forall a, hoare (Q (Ret a)) (k a) R) ->
  (forall e w, Q (Throw e) w -> R (Throw e) w) ->
  (forall w, Q OutOfFuel w -> R OutOfFuel w) ->
  hoare P (bind m k) R.
Proof.
  intros Hm Hk He Hf w Hw. specialize (Hm w Hw). unfold bind.
  destruct (m w) as [[a|e|] w1]; cbn [fst snd] in *.
  - now apply Hk.
  - now apply He.
  - now apply Hf.
Qed.

Lemma hoare_try_catch (P : World -> Prop) (m : M A)
  (Q : Result A -> World -> Prop) (handler : Error -> M A)
  (R : Result A -> World -> Prop) :
  hoare P m Q ->
  (forall e, hoare (Q (Throw e)) (handler e) R) ->
  (forall a w, Q (Ret a) w -> R (Ret a) w) ->
  (forall w, Q OutOfFuel w -> R OutOfFuel w) ->
  hoare P (try_catch m handler) R.
Proof.
  intros Hm Hh Hr Hf w Hw. specialize (Hm w Hw). unfold try_catch.
  destruct (m w) as [[a|e|] w1]; cbn [fst snd] in *.
  - now apply Hr.
  - now apply Hh.
  - now apply Hf.
Qed.

Lemma hoare_weaken (P P' : World -> Prop) (m : M A)
  (Q Q' : Result A -> World -> Prop) :
  hoare P' m Q' -> (forall w, P w -> P' w) ->
  (forall r w, Q' r w -> Q r w) -> hoare P m Q.
Proof. intros H HP HQ w Hw. apply HQ, H, HP, Hw. Qed.

Lemma preserves_bind (J : World -> Prop) (m : M A) (k : A -> M B) :
  preserves J m -> (forall a, preserves J (k a)) -> preserves J (bind m k).
Proof. intros Hm Hk. apply (hoare_bind J m (fun _ => J)); auto. Qed.

Lemma preserves_try_catch (J : World -> Prop) (m : M A) (handler : Error -> M A) :
  preserves J m -> (forall e, preserves J (handler e)) ->
  preserves J (try_catch m handler).
Proof. intros Hm Hh. apply (hoare_try_catch J m (fun _ => J)); auto. Qed.

Lemma preserves_ret (J : World -> Prop) (a : A) : preserves J (ret a).
Proof. intros w Hw. exact Hw. Qed.

Lemma preserves_throw (J : World -> Prop) (e : Error) :
  preserves J (@throw A e).
Proof. intros w Hw. exact Hw. Qed.

Lemma halts_bind (m : M A) (k : A -> M B) :
  halts m -> (forall a, halts (k a)) -> halts (bind m k).
Proof.
  intros Hm Hk w. specialize (Hm w). unfold bind.
  destruct (m w) as [[a|e|] w1]; cbn [fst] in *.
  - apply Hk.
  - discriminate.
  - now elim Hm.
Qed.

Lemma halts_try_catch (m : M A) (handler : Error -> M A) :
  halts m -> (forall e, halts (handler e)) -> halts (try_catch m handler).
Proof.
  intros Hm Hh w. specialize (Hm w). unfold try_catch.
  destruct (m w) as [[a|e|] w1]; cbn [fst] in *.
  - discriminate.
  - apply Hh.
  - exact Hm.
Qed.

Lemma halts_ret (a : A) : halts (ret a).
Proof. intros w. discriminate. Qed.

Lemma halts_throw (e : Error) : halts (@throw A e).
Proof. intros w. discriminate. Qed.

Lemma catches_bind (m : M A) (k : A -> M B) :
  catches m -> (forall a, catches (k a)) -> catches (bind m k).
Proof.
  intros Hm Hk w e. specialize (Hm w). unfold bind.
  destruct (m w) as [[a|e'|] w1]; cbn [fst] in *.
  - apply Hk.
  - now elim (Hm e').
  - discriminate.
Qed.

Lemma catches_try_catch (m : M A) (handler : Error -> M A) :
  (forall e, catches (handler e)) -> catches (try_catch m handler).
Proof.
  intros Hh w e. unfold try_catch.
  destruct (m w) as [[a|e'|] w1]; cbn [fst].
  - discriminate.
  - apply Hh.
  - discriminate.
Qed.

Lemma catches_ret (a : A) : catches (ret a).
Proof. intros w e. discriminate. Qed.

End HoareRules.

Lemma preserves_get_session (J : World -> Prop) : preserves J get_session.
Proof. intros w Hw. exact Hw. Qed.

Lemma halts_get_session : halts get_session.
Proof. intros w. discriminate. Qed.

Lemma halts_emit (e : Event) : halts (emit e).
Proof. intros w. discriminate. Qed.

Lemma halts_set_csrfToken (t : option string) : halts (set_csrfToken t).
Proof. intros w. discriminate. Qed.

Lemma halts_set_cookies (cs : Cookies) : halts (set_cookies cs).
Proof. intros w. discriminate. Qed.

Lemma catches_emit (e : Event) : catches (emit e).
Proof. intros w e'. discriminate. Qed.

Lemma halts_respond {B : Type} (ev : Http B -> Event) (r : Http B) :
  halts (respond ev r).
Proof. intros w. unfold respond. destruct r; discriminate. Qed.

Section StableRules.

Variable J : World -> Prop.
Hypothesis J_stable : Stable J.

Lemma preserves_emit (e : Event) : preserves J (emit e).
Proof. intros w Hw. cbn. now apply (stable_event J J_stable w). Qed.

Lemma preserves_set_csrfToken (t : option string) :
  preserves J (set_csrfToken t).
Proof. intros w Hw. cbn. now apply (stable_session J J_stable w). Qed.

Lemma preserves_set_cookies (cs : Cookies) : preserves J (set_cookies cs).
Proof. intros w Hw. cbn. now apply (stable_session J J_stable w). Qed.

Lemma preserves_respond {B : Type} (ev : Http B -> Event) (r : Http B) :
  preserves J (respond ev r).
Proof.
  intros w Hw. unfold respond.
  destruct r; cbn [snd]; now apply (stable_event J J_stable w).
Qed.

End StableRules.

Create HintDb keeps.

(** One step of a proof that a computation keeps an invariant, halts or
    catches: through the structure of the program. *)
Ltac through :=
  repeat match goal with
    | |- preserves _ (bind _ _) => apply preserves_bind; [| intros ?]
    | |- preserves _ (try_catch _ _) => apply preserves_try_catch; [| intros ?]
    | |- preserves _ (ret _) => apply preserves_ret
    | |- preserves _ (throw _) => apply preserves_throw
    | |- preserves _ get_session => apply preserves_get_session
    | |- halts (bind _ _) => apply halts_bind; [| intros ?]
    | |- halts (try_catch _ _) => apply halts_try_catch; [| intros ?]
    | |- halts (ret _) => apply halts_ret
    | |- halts (throw _) => apply halts_throw
    | |- halts get_session => apply halts_get_session
    | |- halts (emit _) => apply halts_emit
    | |- halts (console _) => apply halts_emit
    | |- halts (sleep _) => apply halts_emit
    | |- halts (set_csrfToken _) => apply halts_set_csrfToken
    | |- halts (set_cookies _) => apply halts_set_cookies
    | |- catches (bind _ _) => apply catches_bind; [| intros ?]
    | |- catches (try_catch _ _) => apply catches_try_catch; intros ?
    | |- catches (ret _) => apply catches_ret
    | |- catches (emit _) => apply catches_emit
    | |- catches (console _) => apply catches_emit
    | |- catches (sleep _) => apply catches_emit
    | |- preserves _ (if ?b then _ else _) => destruct b
    | |- halts (if ?b then _ else _) => destruct b
    | |- catches (if ?b then _ else _) => destruct b
    | |- preserves _ (match ?x with _ => _ end) => destruct x
    | |- halts (match ?x with _ => _ end) => destruct x
    | |- catches (match ?x with _ => _ end) => destruct x
    | |- preserves _ (let _ := _ in _) => cbv zeta
    | |- halts (let _ := _ in _) => cbv zeta
    | |- catches (let _ := _ in _) => cbv zeta
    end.

(* ------------------------------------------------------------------ *)
(** ** The token fetch *)

Section CsrfFacts.

Variable env : Env.

Lemma fetch_csrf_eq (h : Headers) (w : World) :
  fetch_csrf env h w
  = let r := remote_csrf env (trace w) h in
    let w' := mkWorld (session w) (trace w ++ [EvCsrfToken h r]) in
    match r with
    | NetworkError => (Throw NetworkFailure, w')
    | Response status body => (Ret (status, body), w')
    end.
Proof. reflexivity. Qed.

Lemma csrfAttempts_run (h : Headers) (retries : Z) (k : nat) :
  forall (a : Z) (w w' : World) (r : Result string),
    csrfAttempts env h k a retries w = (r, w') ->
    exists evs,
      w' = mkWorld (session w) (trace w ++ evs)
      /\ CsrfRun h retries (hasAuthCookie (session w)) a evs r.
Proof.
  induction k as [|k IH]; intros a w w' r H.
  - injection H as <- <-. exists []. rewrite app_nil_r.
    destruct w; split; [reflexivity | constructor].
  - cbn [csrfAttempts] in H. unfold bind at 1 in H.
    rewrite fetch_csrf_eq in H. cbv zeta in H.
    destruct (remote_csrf env (trace w) h) as [|st body].
    + injection H as <- <-. eexists; split; [reflexivity | constructor].
    + destruct (ok st) eqn:Hok.
      * destruct body as [t|]; injection H as <- <-;
          (eexists; split; [reflexivity | now constructor]).
      * destruct (st =? 401) eqn:H401.
        { apply Z.eqb_eq in H401; subst st. injection H as <- <-.
          eexists; split; [reflexivity | constructor]. }
        apply Z.eqb_neq in H401.
        destruct (a <? retries) eqn:Hlt.
        { apply Z.ltb_lt in Hlt.
          unfold bind at 1, sleep, emit in H. cbn [session trace] in H.
          apply IH in H. destruct H as (evs & -> & Hrun).
          cbn [session trace] in *.
          exists (EvCsrfToken h (Response st body)
                  :: EvSleep (500 * (a + 1)) :: evs).
          split.
          - now rewrite <- !app_assoc.
          - apply run_retry; auto. }
        injection H as <- <-.
        eexists; split; [reflexivity | now constructor].
Qed.

(** What a call of [fetchCsrfToken] does: the session is left as it was,
    and either the cookies are missing and nothing is sent, or the trace
    grows by a run of token fetches. *)
Lemma fetchCsrfToken_run (retries : Z) (w w' : World) (r : Result string) :
  fetchCsrfToken env retries w = (r, w') ->
  (hasAuthCookie (session w) = false /\ r = Throw MissingAuthCookies /\ w' = w)
  \/ (hasAuthCookie (session w) = true
      /\ exists evs,
        w' = mkWorld (session w) (trace w ++ evs)
        /\ CsrfRun (createAuthHeaders (session w)) retries true 0 evs r).
Proof.
  unfold fetchCsrfToken, bind, get_session.
  destruct (hasAuthCookie (session w)) eqn:Hc; cbn [negb]; intros H.
  - right. split; [reflexivity |].
    apply csrfAttempts_run in H. now rewrite Hc in H.
  - left. injection H as <- <-. auto.
Qed.

End CsrfFacts.

Section CsrfRunFacts.

Variables (h : Headers) (retries : Z) (c : bool).

Lemma CsrfRun_unauthorized_last (a : Z) (evs : list Event) (r : Result string) :
  CsrfRun h retries c a evs r ->
  forall pre e post, evs = pre ++ e :: post -> Unauthorized e ->
    post = [] /\ r = Throw (CsrfUnauthorized c).
Proof.
  induction 1 as [a|a|a st t Hok|a st Hok|a b|a st b Hok Hne
                 |a st b evs r Hok Hne Hlt Hrun IH];
    intros pre e post Heq (h' & b' & ->).
  - now destruct pre.
  - destruct pre as [|x [|y pre]]; discriminate.
  - destruct pre as [|x [|y pre]]; try discriminate.
    injection Heq as -> ->. discriminate.
  - destruct pre as [|x [|y pre]]; try discriminate.
    injection Heq as -> ->. discriminate.
  - destruct pre as [|x [|y pre]]; try discriminate.
    injection Heq as _ _ <-. auto.
  - destruct pre as [|x [|y pre]]; try discriminate.
    injection Heq as _ -> _. congruence.
  - destruct pre as [|x [|y pre]].
    + injection Heq as _ -> _. congruence.
    + discriminate.
    + injection Heq as _ _ Heq.
      apply (IH pre _ post Heq). now exists h', b'.
Qed.

Lemma CsrfRun_sleep_after_failure (a : Z) (evs : list Event) (r : Result string) :
  CsrfRun h retries c a evs r ->
  forall pre ms post, evs = pre ++ EvSleep ms :: post ->
    exists pre' e, pre = pre' ++ [e] /\ TransientFailure e.
Proof.
  induction 1 as [a|a|a st t Hok|a st Hok|a b|a st b Hok Hne
                 |a st b evs r Hok Hne Hlt Hrun IH];
    intros pre ms post Heq;
    try (destruct pre as [|x [|y pre]]; discriminate).
  destruct pre as [|x [|y pre]].
  - discriminate.
  - injection Heq as <- _ _.
    exists [], (EvCsrfToken h (Response st b)). split; [reflexivity |].
    now exists h, st, b.
  - injection Heq as <- <- Heq.
    destruct (IH pre ms post Heq) as (pre' & e & -> & He).
    exists (EvCsrfToken h (Response st b) :: EvSleep (500 * (a + 1)) :: pre'), e.
    split; [reflexivity | exact He].
Qed.

End CsrfRunFacts.

(** C7. In every call of [fetchCsrfToken], whatever the number of retries:
    the trace grows by [evs]; a token fetch answered with 401 is the last
    thing the call does (no later fetch, no sleep) and the call fails with
    the session-expired error; and every backoff sleep directly follows a
    token fetch that failed with a status other than 401. *)
Theorem csrf_unauthorized_never_retried (env : Env) (retries : Z) (w : World) :
  exists evs : list Event,
    trace (snd (fetchCsrfToken env retries w)) = trace w ++ evs
    /\ (forall pre e post, evs = pre ++ e :: post -> Unauthorized e ->
          post = []
          /\ fst (fetchCsrfToken env retries w) = Throw (CsrfUnauthorized true))
    /\ (forall pre ms post, evs = pre ++ EvSleep ms :: post ->
          exists pre' e, pre = pre' ++ [e] /\ TransientFailure e).
Proof.
  destruct (fetchCsrfToken env retries w) as [r w'] eqn:E.
  destruct (fetchCsrfToken_run env retries w w' r E)
    as [(_ & -> & ->) | (_ & evs & -> & Hrun)]; cbn [fst snd trace].
  - exists []. rewrite app_nil_r. split; [reflexivity |].
    split; intros pre; destruct pre; discriminate.
  - exists evs. split; [reflexivity |]. split.
    + intros pre e post Heq He.
      exact (CsrfRun_unauthorized_last _ _ _ _ _ _ Hrun pre e post Heq He).
    + intros pre ms post Heq.
      exact (CsrfRun_sleep_after_failure _ _ _ _ _ _ Hrun pre ms post Heq).
Qed.

(** A run of the token fetch against a remote that answers 503 and then
    401: one backoff sleep after the 503, nothing after the 401, although
    one more retry was left. *)
Example csrf_unauthorized_run :
  fetchCsrfToken expiringEnv defaultRetries (start aliceSession)
  = (Throw (CsrfUnauthorized true),
     mkWorld aliceSession
       [EvCsrfToken (mkHeaders aliceCookies None) (Response 503 None);
        EvSleep 500;
        EvCsrfToken (mkHeaders aliceCookies None) (Response 401 None)]).
Proof. vm_compute. reflexivity. Qed.

(* ------------------------------------------------------------------ *)
(** ** Facts about the trace that every client function keeps *)

Section StableClient.

Variable env : Env.
Variable J : World -> Prop.
Hypothesis J_stable : Stable J.

Ltac stable :=
  repeat first
    [ progress through
    | match goal with
      | |- preserves _ (emit _) => apply preserves_emit; exact J_stable
      | |- preserves _ (console _) => apply preserves_emit; exact J_stable
      | |- preserves _ (sleep _) => apply preserves_emit; exact J_stable
      | |- preserves _ (set_csrfToken _) =>
          apply preserves_set_csrfToken; exact J_stable
      | |- preserves _ (set_cookies _) =>
          apply preserves_set_cookies; exact J_stable
      end
    | solve [auto with keeps] ].

Lemma preserves_fetch_csrf (h : Headers) : preserves J (fetch_csrf env h).
Proof. intros w Hw. unfold fetch_csrf. now apply preserves_respond. Qed.

Lemma preserves_fetch_change_user (u : string) (h : Headers) :
  preserves J (fetch_change_user env u h).
Proof. intros w Hw. unfold fetch_change_user. now apply preserves_respond. Qed.

Lemma preserves_fetch_identities (h : Headers) :
  preserves J (fetch_identities env h).
Proof. intros w Hw. unfold fetch_identities. now apply preserves_respond. Qed.

Lemma preserves_fetch_graphql (op : OpName) (vars : Vars) (h : Headers) :
  preserves J (fetch_graphql env op vars h).
Proof. intros w Hw. unfold fetch_graphql. now apply preserves_respond. Qed.

#[local] Hint Resolve preserves_fetch_csrf preserves_fetch_change_user
  preserves_fetch_identities preserves_fetch_graphql : keeps.

Lemma preserves_csrfAttempts (h : Headers) (retries : Z) (k : nat) :
  forall a, preserves J (csrfAttempts env h k a retries).
Proof.
  induction k as [|k IH]; intros a; cbn [csrfAttempts]; stable.
Qed.

#[local] Hint Resolve preserves_csrfAttempts : keeps.

Lemma preserves_fetchCsrfToken (retries : Z) :
  preserves J (fetchCsrfToken env retries).
Proof. unfold fetchCsrfToken. stable. Qed.

#[local] Hint Resolve preserves_fetchCsrfToken : keeps.

Lemma preserves_graphqlQuery (op : OpName) (vars : Vars) (force : bool) :
  preserves J (graphqlQuery env op vars force).
Proof. unfold graphqlQuery. stable. Qed.

Lemma preserves_user_of (d : GqlData) : preserves J (user_of d).
Proof. unfold user_of. stable. Qed.

Lemma preserves_jobsPipelines_of (d : GqlData) :
  preserves J (jobsPipelines_of d).
Proof. unfold jobsPipelines_of. stable. Qed.

Lemma preserves_result_of (d : GqlData) : preserves J (result_of d).
Proof. unfold result_of. stable. Qed.

#[local] Hint Resolve preserves_graphqlQuery preserves_user_of
  preserves_jobsPipelines_of preserves_result_of : keeps.

Lemma preserves_verifySwitch : preserves J (verifySwitch env).
Proof. unfold verifySwitch. stable. Qed.

#[local] Hint Resolve preserves_verifySwitch : keeps.

Lemma preserves_switchOrgContext (u : string) :
  preserves J (switchOrgContext env u).
Proof. unfold switchOrgContext. stable. Qed.

#[local] Hint Resolve preserves_switchOrgContext : keeps.

Lemma preserves_fetchAllAvailableOrgs :
  preserves J (fetchAllAvailableOrgs env).
Proof. unfold fetchAllAvailableOrgs. stable. Qed.

Lemma preserves_read_query_file : preserves J (read_query_file env).
Proof.
  intros w Hw. unfold read_query_file.
  destruct (query_file env (trace w)); cbn [snd];
    now apply (stable_event J J_stable w).
Qed.

End StableClient.

(* ------------------------------------------------------------------ *)
(** ** Invariants of the composite functions

    An invariant that the console, the sleeps, the reading of the query
    file, the GraphQL call, the switch and the discovery keep is kept by
    everything the client and the command build from them. *)

Section Composite.

Variable env : Env.
Variable J : World -> Prop.

Hypothesis keeps_console : forall m, preserves J (console m).
Hypothesis keeps_sleep : forall ms, preserves J (sleep ms).
Hypothesis keeps_read : preserves J (read_query_file env).
Hypothesis keeps_graphqlQuery :
  forall op vars force, preserves J (graphqlQuery env op vars force).
Hypothesis keeps_switchOrgContext :
  forall u, preserves J (switchOrgContext env u).
Hypothesis keeps_discovery : preserves J (fetchAllAvailableOrgs env).

#[local] Hint Resolve keeps_console keeps_sleep keeps_read keeps_graphqlQuery
  keeps_switchOrgContext keeps_discovery : keeps.

Ltac composite := repeat first [progress through | solve [auto with keeps]].

Lemma keeps_user_of (d : GqlData) : preserves J (user_of d).
Proof. unfold user_of. composite. Qed.

Lemma keeps_jobsPipelines_of (d : GqlData) : preserves J (jobsPipelines_of d).
Proof. unfold jobsPipelines_of. composite. Qed.

Lemma keeps_result_of (d : GqlData) : preserves J (result_of d).
Proof. unfold result_of. composite. Qed.

#[local] Hint Resolve keeps_user_of keeps_jobsPipelines_of keeps_result_of
  : keeps.

Lemma keeps_fetchPages (fuel : nat) :
  forall v w, J w -> J (snd (fetchPages env fuel v w)).
Proof.
  induction fuel as [|fuel IH]; intros v w Hw; cbn [fetchPages].
  - destruct (hasMore v); exact Hw.
  - destruct (hasMore v); cbn [negb]; [| exact Hw].
    match goal with
    | |- context [bind ?m ?k w] =>
        assert (Hq : preserves J (bind m k)) by composite;
        specialize (Hq w Hw); cbv beta in Hq;
        destruct (bind m k w) as [[page|e|] w1]
    end; cbn [snd] in *; try exact Hq.
    match goal with
    | |- context [console ?m w1] =>
        pose proof (keeps_console m w1 Hq) as Hc;
        destruct (console m w1) as [u w2]
    end.
    apply IH. exact Hc.
Qed.

Lemma keeps_fetchAllApplications (fuel : nat) :
  preserves J (fetchAllApplications env fuel).
Proof.
  intros w Hw. unfold fetchAllApplications.
  pose proof (keeps_fetchPages fuel initialPageVars w Hw) as H.
  destruct (fetchPages env fuel initialPageVars w) as [[[u|e|] v] w1];
    cbn [snd] in *.
  - revert w1 H. change (preserves J
      (console (LogTotalApplications (length (allApplications v))) ;;;
       ret (allApplications v))). composite.
  - revert w1 H. change (preserves J
      (console ErrFetchingApplications ;;; ret (allApplications v))).
    composite.
  - exact H.
Qed.

#[local] Hint Resolve keeps_fetchAllApplications : keeps.

Lemma keeps_pipelineQueries (fuel : nat) (o : string) (b : bool) :
  preserves J (pipelineQueries env fuel o b).
Proof.
  unfold pipelineQueries. composite.
  all: intros w Hw; exact Hw.
Qed.

Lemma keeps_switchIfNeeded (o : string) (u : option string) :
  preserves J (switchIfNeeded env o u).
Proof. unfold switchIfNeeded. composite. Qed.

#[local] Hint Resolve keeps_pipelineQueries keeps_switchIfNeeded : keeps.

Lemma keeps_fetchPipelineForOrg (fuel : nat) (o : string) (u : option string) :
  preserves J (fetchPipelineForOrg env fuel o u).
Proof. unfold fetchPipelineForOrg. composite. Qed.

#[local] Hint Resolve keeps_fetchPipelineForOrg : keeps.

Lemma keeps_attemptOrg (fuel : nat) (maxRetries : Z) (o : OrgInfo)
  (label : string) (k : nat) :
  forall attempt acc,
    preserves J (attemptOrg env fuel k attempt maxRetries o label acc).
Proof.
  induction k as [|k IH]; intros attempt acc; cbn [attemptOrg]; composite.
Qed.

#[local] Hint Resolve keeps_attemptOrg : keeps.

Lemma keeps_processOrgs (fuel : nat) (maxRetries : Z) (n : nat)
  (orgs : list OrgInfo) :
  forall i acc, preserves J (processOrgs env fuel maxRetries n i orgs acc).
Proof.
  induction orgs as [|o orgs IH]; intros i acc; cbn [processOrgs]; composite.
Qed.

#[local] Hint Resolve keeps_processOrgs : keeps.

Lemma keeps_fetchApplicationDetails (a : string) :
  preserves J (fetchApplicationDetails env a).
Proof. unfold fetchApplicationDetails. composite. Qed.

#[local] Hint Resolve keeps_fetchApplicationDetails : keeps.

Lemma keeps_enrichOne (fetchAll : bool) (c : Candidate) :
  preserves J (enrichOne env fetchAll c).
Proof. unfold enrichOne. composite. Qed.

#[local] Hint Resolve keeps_enrichOne : keeps.

Lemma keeps_promiseAll (fetchAll : bool) (batch : list Candidate) :
  preserves J (promiseAll (enrichOne env fetchAll) batch).
Proof. induction batch as [|c batch IH]; cbn [promiseAll]; composite. Qed.

#[local] Hint Resolve keeps_promiseAll : keeps.

Lemma keeps_enrichBatches (fetchAll : bool) (maxConcurrent : Z)
  (cs : list Candidate) (fuel : nat) :
  forall i out,
    preserves J (enrichBatches env fuel fetchAll maxConcurrent cs i out).
Proof.
  induction fuel as [|fuel IH]; intros i out; cbn [enrichBatches]; composite.
  all: intros w Hw; exact Hw.
Qed.

#[local] Hint Resolve keeps_enrichBatches : keeps.

Lemma keeps_enrichGroups (fuel : nat) (fetchAll : bool) (maxConcurrent : Z)
  (orgInfos : list OrgInfo) (groups : list (string * list Candidate)) :
  forall current out,
    preserves J (enrichGroups env fuel fetchAll maxConcurrent orgInfos groups
                   current out).
Proof.
  induction groups as [|[o cs] groups IH]; intros current out;
    cbn [enrichGroups]; composite.
Qed.

Lemma keeps_enrichCandidatesWithDetails (fuel : nat) (cs : list Candidate)
  (orgInfos : list OrgInfo) (maxConcurrent : Z) (fetchAll : bool) :
  preserves J (enrichCandidatesWithDetails env fuel cs orgInfos maxConcurrent
                 fetchAll).
Proof. unfold enrichCandidatesWithDetails. apply keeps_enrichGroups. Qed.

#[local] Hint Resolve keeps_enrichCandidatesWithDetails : keeps.

Lemma keeps_extractWithSession (fuel : nat) (options : ExtractOptions) :
  preserves J (extractWithSession env fuel options).
Proof. unfold extractWithSession. composite. Qed.

End Composite.

Section StableComposite.

Variable env : Env.
Variable J : World -> Prop.
Hypothesis J_stable : Stable J.

Lemma preserves_attemptOrg (fuel : nat) (maxRetries : Z) (o : OrgInfo)
  (label : string) (k : nat) (attempt : Z) (acc : Acc) :
  preserves J (attemptOrg env fuel k attempt maxRetries o label acc).
Proof.
  apply keeps_attemptOrg.
  - intros m. now apply preserves_emit.
  - intros ms. now apply preserves_emit.
  - intros op vars force. now apply preserves_graphqlQuery.
  - intros u. now apply preserves_switchOrgContext.
Qed.

End StableComposite.


(* ------------------------------------------------------------------ *)
(** ** The organisation switch *)

Section SwitchFacts.

Variable env : Env.

Lemma CsrfRun_quiet (h : Headers) (retries : Z) (c : bool) (a : Z)
  (evs : list Event) (r : Result string) :
  CsrfRun h retries c a evs r -> existsb isGraphQL evs = false.
Proof. induction 1; cbn; auto. Qed.

Lemma CsrfRun_halts (h : Headers) (retries : Z) (c : bool) (a : Z)
  (evs : list Event) (r : Result string) :
  CsrfRun h retries c a evs r -> r <> OutOfFuel.
Proof. induction 1; auto; discriminate. Qed.

Lemma fetchCsrfToken_quiet (retries : Z) (w w' : World) (r : Result string) :
  fetchCsrfToken env retries w = (r, w') ->
  r <> OutOfFuel
  /\ exists evs, w' = after evs w /\ existsb isGraphQL evs = false.
Proof.
  intros H. apply fetchCsrfToken_run in H.
  destruct H as [(_ & -> & ->) | (_ & evs & -> & Hrun)].
  - split; [discriminate |]. exists []. unfold after. rewrite app_nil_r.
    now destruct w.
  - split.
    + eapply CsrfRun_halts; eauto.
    + exists evs. split; [reflexivity | eapply CsrfRun_quiet; eauto].
Qed.

End SwitchFacts.

Section QuietSteps.

Variable env : Env.
Variable l : list Event.

(** Since the trace was [l], no GraphQL call has been made. *)
Definition QuietSince (w : World) : Prop :=
  exists evs, trace w = l ++ evs /\ existsb isGraphQL evs = false.

Definition quietly {A : Type} (m : M A) : Prop :=
  hoare QuietSince m (fun r w => r <> OutOfFuel /\ QuietSince w).

Lemma QuietSince_after (e : Event) (w : World) (s : AshbySession) :
  isGraphQL e = false -> QuietSince w ->
  QuietSince (mkWorld s (trace w ++ [e])).
Proof.
  intros He (evs & Ht & Hq). exists (evs ++ [e]). cbn [trace]. split.
  - now rewrite Ht, app_assoc.
  - rewrite existsb_app, Hq. cbn. now rewrite He.
Qed.

Lemma QuietSince_session (w : World) (s : AshbySession) :
  QuietSince w -> QuietSince (mkWorld s (trace w)).
Proof. intros H. exact H. Qed.

Lemma quietly_bind {A B : Type} (m : M A) (k : A -> M B) :
  quietly m -> (forall a, quietly (k a)) -> quietly (bind m k).
Proof.
  intros Hm Hk.
  apply (hoare_bind _ _ _ _ _ Hm).
  - intros a w (_ & Hw). now apply Hk.
  - intros e w (_ & Hw). split; [discriminate | exact Hw].
  - intros w (Hne & _). now elim Hne.
Qed.

Lemma quietly_try_catch {A : Type} (m : M A) (handler : Error -> M A) :
  quietly m -> (forall e, quietly (handler e)) -> quietly (try_catch m handler).
Proof.
  intros Hm Hh.
  apply (hoare_try_catch _ _ _ _ _ Hm).
  - intros e w (_ & Hw). now apply Hh.
  - intros a w (_ & Hw). split; [discriminate | exact Hw].
  - intros w (Hne & _). now elim Hne.
Qed.

Lemma quietly_ret {A : Type} (a : A) : quietly (ret a).
Proof. intros w Hw. split; [discriminate | exact Hw]. Qed.

Lemma quietly_throw {A : Type} (e : Error) : quietly (@throw A e).
Proof. intros w Hw. split; [discriminate | exact Hw]. Qed.

Lemma quietly_get_session : quietly get_session.
Proof. intros w Hw. split; [discriminate | exact Hw]. Qed.

Lemma quietly_emit (e : Event) : isGraphQL e = false -> quietly (emit e).
Proof.
  intros He w Hw. split; [discriminate |]. now apply QuietSince_after.
Qed.

Lemma quietly_set_csrfToken (t : option string) : quietly (set_csrfToken t).
Proof. intros w Hw. split; [discriminate | exact Hw]. Qed.

Lemma quietly_set_cookies (cs : Cookies) : quietly (set_cookies cs).
Proof. intros w Hw. split; [discriminate | exact Hw]. Qed.

Lemma quietly_fetchCsrfToken (retries : Z) :
  quietly (fetchCsrfToken env retries).
Proof.
  intros w (evs0 & Ht & Hq0).
  destruct (fetchCsrfToken env retries w) as [r w'] eqn:E.
  apply fetchCsrfToken_quiet in E. destruct E as (Hne & evs & -> & Hq).
  split; [exact Hne |].
  exists (evs0 ++ evs). cbn [snd after trace]. split.
  - now rewrite Ht, app_assoc.
  - now rewrite existsb_app, Hq0, Hq.
Qed.

Lemma quietly_fetch_change_user (u : string) (h : Headers) :
  quietly (fetch_change_user env u h).
Proof.
  intros w Hw. unfold fetch_change_user, respond.
  destruct (remote_change_user env (trace w) u h); cbn [fst snd];
    (split; [discriminate | now apply QuietSince_after]).
Qed.

(** A quiet step followed by any continuation. *)
Lemma quiet_then {A B : Type} (m : M A) (k : A -> M B)
  (R : Result B -> World -> Prop) :
  quietly m ->
  (forall a, hoare QuietSince (k a) R) ->
  (forall e w, QuietSince w -> R (Throw e) w) ->
  hoare QuietSince (bind m k) R.
Proof.
  intros Hm Hk He.
  apply (hoare_bind _ _ _ _ _ Hm).
  - intros a w (_ & Hw). now apply Hk.
  - intros e w (_ & Hw). now apply He.
  - intros w (Hne & _). now elim Hne.
Qed.

End QuietSteps.

Ltac quiet :=
  repeat match goal with
    | |- quietly _ (bind _ _) => apply quietly_bind; [| intros ?]
    | |- quietly _ (try_catch _ _) => apply quietly_try_catch; [| intros ?]
    | |- quietly _ (ret _) => apply quietly_ret
    | |- quietly _ (throw _) => apply quietly_throw
    | |- quietly _ get_session => apply quietly_get_session
    | |- quietly _ (console _) => apply quietly_emit; reflexivity
    | |- quietly _ (sleep _) => apply quietly_emit; reflexivity
    | |- quietly _ (set_csrfToken _) => apply quietly_set_csrfToken
    | |- quietly _ (set_cookies _) => apply quietly_set_cookies
    | |- quietly _ (fetchCsrfToken _ _) => apply quietly_fetchCsrfToken
    | |- quietly _ (fetch_change_user _ _ _) => apply quietly_fetch_change_user
    | |- quietly _ (if ?b then _ else _) => destruct b
    | |- quietly _ (match ?x with _ => _ end) => destruct x
    end.

Section HaltingClient.

Variable env : Env.

Lemma halts_fetch_csrf (h : Headers) : halts (fetch_csrf env h).
Proof. intros w. unfold fetch_csrf. apply halts_respond. Qed.

Lemma halts_fetch_change_user (u : string) (h : Headers) :
  halts (fetch_change_user env u h).
Proof. intros w. unfold fetch_change_user. apply halts_respond. Qed.

Lemma halts_fetch_identities (h : Headers) : halts (fetch_identities env h).
Proof. intros w. unfold fetch_identities. apply halts_respond. Qed.

Lemma halts_fetch_graphql (op : OpName) (vars : Vars) (h : Headers) :
  halts (fetch_graphql env op vars h).
Proof. intros w. unfold fetch_graphql. apply halts_respond. Qed.

#[local] Hint Resolve halts_fetch_csrf halts_fetch_change_user
  halts_fetch_identities halts_fetch_graphql : keeps.

Ltac halting := repeat first [progress through | solve [auto with keeps]].

Lemma halts_csrfAttempts (h : Headers) (retries : Z) (k : nat) :
  forall a, halts (csrfAttempts env h k a retries).
Proof.
  induction k as [|k IH]; intros a; cbn [csrfAttempts]; halting.
Qed.

#[local] Hint Resolve halts_csrfAttempts : keeps.

Lemma halts_fetchCsrfToken (retries : Z) : halts (fetchCsrfToken env retries).
Proof. unfold fetchCsrfToken. halting. Qed.

#[local] Hint Resolve halts_fetchCsrfToken : keeps.

Lemma halts_graphqlQuery (op : OpName) (vars : Vars) (force : bool) :
  halts (graphqlQuery env op vars force).
Proof. unfold graphqlQuery. halting. Qed.

Lemma halts_user_of (d : GqlData) : halts (user_of d).
Proof. unfold user_of. halting. Qed.

#[local] Hint Resolve halts_graphqlQuery halts_user_of : keeps.

Lemma halts_verifySwitch : halts (verifySwitch env).
Proof. unfold verifySwitch. halting. Qed.

#[local] Hint Resolve halts_verifySwitch : keeps.

Lemma halts_switchOrgContext (u : string) : halts (switchOrgContext env u).
Proof. unfold switchOrgContext. halting. Qed.

Lemma halts_read_query_file : halts (read_query_file env).
Proof.
  intros w. unfold read_query_file.
  destruct (query_file env (trace w)); discriminate.
Qed.

#[local] Hint Resolve halts_switchOrgContext halts_read_query_file : keeps.

Lemma halts_fetchApplicationDetails (a : string) :
  halts (fetchApplicationDetails env a).
Proof. unfold fetchApplicationDetails. halting. Qed.

End HaltingClient.

(** The trace only grows: what was written stays a prefix. *)
Lemma Stable_extends (l : list Event) :
  Stable (fun w => exists evs, trace w = l ++ evs).
Proof.
  split.
  - intros w e (evs & H). exists (evs ++ [e]). cbn. now rewrite H, app_assoc.
  - intros w s H. exact H.
Qed.

Section SwitchOutcome.

Variable env : Env.

(** It ends normally whatever the query reports. *)
Lemma verifySwitch_returns (w : World) :
  fst (verifySwitch env w) = Ret tt
  /\ exists evs, trace (snd (verifySwitch env w)) = trace w ++ evs.
Proof.
  split.
  - assert (Hc : catches (verifySwitch env)) by (unfold verifySwitch; through).
    assert (Hh : halts (verifySwitch env)).
    { unfold verifySwitch. through.
      - apply halts_graphqlQuery.
      - apply halts_user_of. }
    specialize (Hc w). specialize (Hh w).
    destruct (fst (verifySwitch env w)) as [[]|e|].
    + reflexivity.
    + now elim (Hc e).
    + now elim Hh.
  - assert (Hp : preserves (fun w' => exists evs, trace w' = trace w ++ evs)
                   (verifySwitch env)).
    { pose proof (Stable_extends (trace w)) as HS.
      unfold verifySwitch.
      apply preserves_try_catch.
      - apply preserves_bind; [now apply preserves_graphqlQuery |].
        intros d. apply preserves_bind; [now apply preserves_user_of |].
        intros user. now apply preserves_emit.
      - intros e. now apply preserves_emit. }
    apply Hp. exists []. now rewrite app_nil_r.
Qed.

Lemma switchOrgContext_outcome (u : string) (w : World) :
  exists evs,
    trace (snd (switchOrgContext env u w)) = trace w ++ evs
    /\ (fst (switchOrgContext env u w) = Ret tt
        \/ ((exists e, fst (switchOrgContext env u w) = Throw e)
            /\ existsb isGraphQL evs = false)).
Proof.
  set (R := fun (r : Result unit) (w' : World) =>
              exists evs, trace w' = trace w ++ evs
                /\ (r = Ret tt
                    \/ ((exists e, r = Throw e)
                        /\ existsb isGraphQL evs = false))).
  assert (Hthrow : forall e w', QuietSince (trace w) w' -> R (Throw e) w').
  { intros e w' (evs & Ht & Hq). exists evs. split; [exact Ht |]. right; eauto. }
  assert (H : hoare (QuietSince (trace w)) (switchOrgContext env u) R).
  { unfold switchOrgContext.
    apply quiet_then; [quiet | intros csrf | exact Hthrow].
    apply quiet_then; [quiet | intros s | exact Hthrow].
    apply quiet_then; [quiet | intros [st hdr] | exact Hthrow].
    destruct (negb (ok st)).
    { intros w' Hw'. now apply Hthrow. }
    apply quiet_then; [quiet | intros _ | exact Hthrow].
    apply quiet_then; [quiet | intros _ | exact Hthrow].
    apply quiet_then; [quiet | intros _ | exact Hthrow].
    intros w' (evs0 & Ht & _).
    destruct (verifySwitch_returns w') as (Hr & evs & He).
    exists (evs0 ++ evs). split.
    - rewrite He, Ht. now rewrite app_assoc.
    - left. exact Hr. }
  apply H. exists []. split; [now rewrite app_nil_r | reflexivity].
Qed.

End SwitchOutcome.

(* ------------------------------------------------------------------ *)
(** ** Evaluating a run step by step *)

Section Evaluation.

Context {A B : Type}.

Lemma bind_ret_eq (m : M A) (k : A -> M B) (w w1 : World) (a : A) :
  m w = (Ret a, w1) -> bind m k w = k a w1.
Proof. intros H. unfold bind. now rewrite H. Qed.

Lemma bind_throw_eq (m : M A) (k : A -> M B) (w w1 : World) (e : Error) :
  m w = (Throw e, w1) -> bind m k w = (Throw e, w1).
Proof. intros H. unfold bind. now rewrite H. Qed.

Lemma try_catch_ret_eq (m : M A) (handler : Error -> M A) (w w1 : World)
  (a : A) :
  m w = (Ret a, w1) -> try_catch m handler w = (Ret a, w1).
Proof. intros H. unfold try_catch. now rewrite H. Qed.

Lemma try_catch_throw_eq (m : M A) (handler : Error -> M A) (w w1 : World)
  (e : Error) :
  m w = (Throw e, w1) -> try_catch m handler w = handler e w1.
Proof. intros H. unfold try_catch. now rewrite H. Qed.

End Evaluation.

(* ------------------------------------------------------------------ *)
(** ** C1: the verification after a switch *)

(** C1, counterexample.  Against a remote on which the switch has no
    effect, the verification query after the switch to Acme's user reports
    the home organisation; [switchOrgContext] returns normally all the
    same, and [fetchPipelineForOrg] for Acme goes on to list jobs and
    applications and returns a candidate.  The same happens when the
    verification query fails with status 500. *)
Lemma verification_mismatch_goes_unnoticed :
  fst (switchOrgContext (mockEnv switchHasNoEffect) "user-a"
         (start aliceSession)) = Ret tt
  /\ reportedOrgs
       (trace (snd (switchOrgContext (mockEnv switchHasNoEffect) "user-a"
                      (start aliceSession)))) = ["org-home"%string]
  /\ option_map (fun r => map id (candidates r))
       (match fst (fetchPipelineForOrg (mockEnv switchHasNoEffect) 5 "org-a"
                     (Some "user-a"%string) (start aliceSession)) with
        | Ret r => Some r
        | _ => None
        end) = Some ["cand-zed"%string]
  /\ queryCount ApiGetActiveApplications
       (trace (snd (fetchPipelineForOrg (mockEnv switchHasNoEffect) 5 "org-a"
                      (Some "user-a"%string) (start aliceSession)))) = 1%nat
  /\ fst (switchOrgContext (mockEnv verificationFails) "user-a"
            (start aliceSession)) = Ret tt
  /\ queryCount ApiGetActiveApplications
       (trace (snd (fetchPipelineForOrg (mockEnv verificationFails) 5 "org-a"
                      (Some "user-a"%string) (start aliceSession)))) = 1%nat.
Proof. repeat split; vm_compute; reflexivity. Qed.

(** C1, as the code has it.  [switchOrgContext] never compares the tenant
    that the verification query reports with the one asked for, and it
    swallows a failure of that query: in every run in which a GraphQL call
    was made at all, that is, in which the verification query was sent,
    the switch returns normally.  It fails only before that point.  And
    after a switch that returned normally, [fetchPipelineForOrg] runs the
    extraction queries from the world that the switch left. *)
Theorem switch_returns_whatever_verification_reports
  (env : Env) (u : string) (w : World) :
  (forall evs,
      trace (snd (switchOrgContext env u w)) = trace w ++ evs ->
      existsb isGraphQL evs = true ->
      fst (switchOrgContext env u w) = Ret tt)
  /\ (forall fuel o,
        truthy u = true -> String.eqb o "default" = false ->
        fst (switchOrgContext env u w) = Ret tt ->
        fetchPipelineForOrg env fuel o (Some u) w
        = pipelineQueries env fuel o true (snd (switchOrgContext env u w))).
Proof.
  split.
  - intros evs Ht Hq.
    destruct (switchOrgContext_outcome env u w)
      as (evs' & Ht' & [Hr | (_ & Hq')]); [exact Hr |].
    rewrite Ht' in Ht. apply app_inv_head in Ht. subst evs'. congruence.
  - intros fuel o Hu Ho Hr.
    destruct (switchOrgContext env u w) as [r w1] eqn:E. cbn [fst snd] in *.
    subst r. unfold fetchPipelineForOrg.
    rewrite (bind_ret_eq _ _ w w1 (Some true)); [reflexivity |].
    unfold switchIfNeeded. rewrite Hu, Ho. cbn [andb negb].
    apply try_catch_ret_eq.
    now rewrite (bind_ret_eq _ _ w w1 tt).
Qed.

(* ------------------------------------------------------------------ *)
(** ** C3: a tenant whose switch fails *)

Lemma after_after (a b : list Event) (w : World) :
  after b (after a w) = after (a ++ b) w.
Proof. unfold after. cbn. now rewrite app_assoc. Qed.

Lemma emit_eq (e : Event) (w : World) : emit e w = (Ret tt, after [e] w).
Proof. reflexivity. Qed.

Section OrgLoopSteps.

Variable env : Env.

Lemma fetchPipelineForOrg_switch_fails (fuel : nat) (o u : string)
  (w w1 : World) (e : Error) :
  truthy u = true -> String.eqb o "default" = false ->
  switchOrgContext env u w = (Throw e, w1) ->
  fetchPipelineForOrg env fuel o (Some u) w
  = (Ret emptyResult, after [EvConsole (ErrFailedToSwitch o)] w1).
Proof.
  intros Hu Ho Hs. unfold fetchPipelineForOrg.
  rewrite (bind_ret_eq _ _ w (after [EvConsole (ErrFailedToSwitch o)] w1) None);
    [reflexivity |].
  unfold switchIfNeeded. rewrite Hu, Ho. cbn [andb negb].
  rewrite (try_catch_throw_eq _ _ w w1 e).
  - reflexivity.
  - now rewrite (bind_throw_eq _ _ w w1 e).
Qed.

Lemma attemptOrg_first_success (fuel k : nat) (maxRetries : Z) (o : OrgInfo)
  (label : string) (acc : Acc) (w w1 : World) (r : PipelineFetchResult) :
  fetchPipelineForOrg env fuel (org_id o) (Some (org_userId o)) w = (Ret r, w1) ->
  attemptOrg env fuel (S k) 1 maxRetries o label acc w
  = (Ret (addResult acc r),
     after [EvConsole (LogFound (length (companies r)) (length (jobs r))
                         (length (candidates r)))] w1).
Proof.
  intros H. cbn [attemptOrg]. change (1 <? 1) with false. cbv iota.
  rewrite (bind_ret_eq _ _ w w tt); [| reflexivity].
  erewrite (bind_ret_eq _ _ w _ (true, addResult acc r)); [reflexivity |].
  apply try_catch_ret_eq.
  now rewrite (bind_ret_eq _ _ w w1 r).
Qed.

End OrgLoopSteps.

Lemma addResult_empty (acc : Acc) : addResult acc emptyResult = acc.
Proof. destruct acc. unfold addResult. cbn. now rewrite !app_nil_r. Qed.

(** C3, counterexample.  Acme's three records are in the output, and the
    switch to Globex is refused with status 403; the list of failed
    organisations that the command reports is empty all the same. *)
Lemma refused_switch_leaves_no_failure_entry :
  switchRequests
    (snd (extractCommand (mockEnv globexSwitchRefused) 5 defaultOptions
            (Some aliceSession)))
  = ["user-a"%string; "user-b"%string]
  /\ fst (switchOrgContext (mockEnv globexSwitchRefused) "user-b"
            (start aliceSession)) = Throw (SwitchOrgFailed 403)
  /\ exists data files,
      fst (extractCommand (mockEnv globexSwitchRefused) 5 defaultOptions
             (Some aliceSession))
      = Ret (Exported data [] files)
      /\ map id (candidates data)
         = ["cand-ann"%string; "cand-bob"%string; "cand-cy"%string].
Proof.
  split; [vm_compute; reflexivity |].
  split; [vm_compute; reflexivity |].
  eexists; eexists. split; vm_compute; reflexivity.
Qed.

(** C3, as the code has it.  In a run over the two tenants [A] and [B]:
    when the pipeline fetch for [A] returns the result [rA] and the switch
    to [B] throws, the loop ends with exactly [A]'s companies, jobs and
    candidates and with an EMPTY list of failed organisations.  [B]'s
    failed switch is caught inside [fetchPipelineForOrg], which returns
    the empty result; the command counts it as a success. *)
Theorem failed_switch_keeps_records_without_failure_entry
  (env : Env) (fuel : nat) (maxRetries : Z) (A B : OrgInfo) (w wA wB : World)
  (rA : PipelineFetchResult) (e : Error) :
  1 <= maxRetries ->
  truthy (org_userId A) = true ->
  truthy (org_userId B) = true ->
  String.eqb (org_id B) "default" = false ->
  fetchPipelineForOrg env fuel (org_id A) (Some (org_userId A))
    (after [EvConsole (LogProcessingOrg 1 2 (labelOf A) (org_id A))] w)
  = (Ret rA, wA) ->
  switchOrgContext env (org_userId B)
    (after [EvConsole (LogFound (length (companies rA)) (length (jobs rA))
                         (length (candidates rA)));
            EvSleep 500;
            EvConsole (LogProcessingOrg 2 2 (labelOf B) (org_id B))] wA)
  = (Throw e, wB) ->
  processOrgs env fuel maxRetries 2 0 [A; B] emptyAcc w
  = (Ret (mkAcc (companies rA) (jobs rA) (candidates rA) []),
     after [EvConsole (ErrFailedToSwitch (org_id B)); EvConsole (LogFound 0 0 0)]
           wB).
Proof.
  intros Hmr HuA HuB HoB HA HB.
  destruct (Z.to_nat maxRetries) as [|k] eqn:Hk; [lia |].
  cbn [processOrgs]. rewrite HuA, HuB, Hk. cbn [negb].
  fold (labelOf A). fold (labelOf B). unfold console, sleep.
  rewrite (bind_ret_eq _ _ w _ tt (emit_eq _ w)).
  rewrite (bind_ret_eq _ _ _ _ _
             (attemptOrg_first_success env fuel k maxRetries A (labelOf A)
                emptyAcc _ wA rA HA)).
  change (Z.of_nat 0 <? Z.of_nat 2 - 1) with true.
  change (Z.of_nat 1 <? Z.of_nat 2 - 1) with false.
  cbv iota. cbn [Nat.add].
  rewrite (bind_ret_eq _ _ _ _ tt (emit_eq _ _)).
  rewrite (bind_ret_eq _ _ _ _ tt (emit_eq _ _)).
  rewrite !after_after. cbn [app].
  rewrite (bind_ret_eq _ _ _ _ _
             (attemptOrg_first_success env fuel k maxRetries B (labelOf B)
                _ _ _ emptyResult
                (fetchPipelineForOrg_switch_fails env fuel (org_id B)
                   (org_userId B) _ wB e HuB HoB HB))).
  rewrite addResult_empty.
  unfold bind, ret. rewrite !after_after. cbn.
  destruct rA. reflexivity.
Qed.

Lemma failed_switch_keeps_records_witness :
  processOrgs (mockEnv globexSwitchRefused) 5 1 2 0
    [mkOrg "org-a" "Acme" "user-a"; mkOrg "org-b" "Globex" "user-b"]
    emptyAcc (start aliceSession)
  = (Ret (mkAcc
            (companies
               (normalizePipelineData (mockEnv globexSwitchRefused) 864000000
                  [mkJobPipeline "job-1" "Engineer"] acmeApplications
                  "org-a" (Some "Acme"%string)))
            (jobs
               (normalizePipelineData (mockEnv globexSwitchRefused) 864000000
                  [mkJobPipeline "job-1" "Engineer"] acmeApplications
                  "org-a" (Some "Acme"%string)))
            (candidates
               (normalizePipelineData (mockEnv globexSwitchRefused) 864000000
                  [mkJobPipeline "job-1" "Engineer"] acmeApplications
                  "org-a" (Some "Acme"%string)))
            []),
     snd (processOrgs (mockEnv globexSwitchRefused) 5 1 2 0
            [mkOrg "org-a" "Acme" "user-a"; mkOrg "org-b" "Globex" "user-b"]
            emptyAcc (start aliceSession))).
Proof.
  rewrite (failed_switch_keeps_records_without_failure_entry
             (mockEnv globexSwitchRefused) 5 1
             (mkOrg "org-a" "Acme" "user-a") (mkOrg "org-b" "Globex" "user-b")
             (start aliceSession)
             (snd (fetchPipelineForOrg (mockEnv globexSwitchRefused) 5 "org-a"
                     (Some "user-a"%string)
                     (after [EvConsole (LogProcessingOrg 1 2 "Acme" "org-a")]
                            (start aliceSession))))
             (snd (switchOrgContext (mockEnv globexSwitchRefused) "user-b"
                     (after [EvConsole (LogFound 1 1 3); EvSleep 500;
                             EvConsole (LogProcessingOrg 2 2 "Globex" "org-b")]
                        (snd (fetchPipelineForOrg (mockEnv globexSwitchRefused)
                                5 "org-a" (Some "user-a"%string)
                                (after [EvConsole
                                          (LogProcessingOrg 1 2 "Acme" "org-a")]
                                       (start aliceSession)))))))
             (normalizePipelineData (mockEnv globexSwitchRefused) 864000000
                [mkJobPipeline "job-1" "Engineer"] acmeApplications
                "org-a" (Some "Acme"%string))
             (SwitchOrgFailed 403)).
  - reflexivity.
  - lia.
  - reflexivity.
  - reflexivity.
  - reflexivity.
  - vm_compute. reflexivity.
  - vm_compute. reflexivity.
Defined.

(* ------------------------------------------------------------------ *)
(** ** C2: a tenant that fails *)

Section Yields.

Context {A B : Type}.

Lemma yields_bind (m : M A) (k : A -> M B) (Q1 : A -> Prop) (Q : B -> Prop) :
  yields m Q1 -> (forall a, Q1 a -> yields (k a) Q) -> yields (bind m k) Q.
Proof.
  intros Hm Hk w b w' H. bind_cases H; try discriminate.
  eapply Hk; eauto.
Qed.

Lemma yields_try_catch (m : M A) (handler : Error -> M A) (Q : A -> Prop) :
  yields m Q -> (forall e, yields (handler e) Q) ->
  yields (try_catch m handler) Q.
Proof.
  intros Hm Hh w a w' H. apply try_catch_inv in H.
  destruct H as [(a' & Hr & Heq) | [(e & w1 & Hr & Hh') | (_ & Heq)]].
  - injection Heq as <-. eapply Hm; eauto.
  - eapply Hh; eauto.
  - discriminate.
Qed.

Lemma yields_ret (a : A) (Q : A -> Prop) : Q a -> yields (ret a) Q.
Proof. intros HQ w a' w' H. injection H as <- _. exact HQ. Qed.

Lemma yields_throw (e : Error) (Q : A -> Prop) : yields (throw e) Q.
Proof. intros w a w' H. discriminate. Qed.

Lemma yields_any (m : M A) : yields m (fun _ => True).
Proof. intros w a w' _. exact I. Qed.

Lemma yields_weaken (m : M A) (Q Q' : A -> Prop) :
  yields m Q -> (forall a, Q a -> Q' a) -> yields m Q'.
Proof. intros Hm HQ w a w' H. eapply HQ, Hm; eauto. Qed.

End Yields.

Lemma grows_refl (acc : Acc) : grows acc acc.
Proof. exists []. now rewrite app_nil_r. Qed.

Lemma grows_trans (a b c : Acc) : grows a b -> grows b c -> grows a c.
Proof.
  intros (m1 & H1) (m2 & H2). exists (m1 ++ m2).
  now rewrite H2, H1, app_assoc.
Qed.

Lemma grows_addResult (acc : Acc) (r : PipelineFetchResult) :
  grows acc (addResult acc r).
Proof. exists (candidates r). reflexivity. Qed.

Lemma grows_addFailed (acc : Acc) (label : string) :
  grows acc (addFailed acc label).
Proof. exists []. cbn. now rewrite app_nil_r. Qed.

Section OrgLoop.

Variable env : Env.
Variable fuel : nat.
Variable maxRetries : Z.

Lemma catches_attemptOrg (o : OrgInfo) (label : string) (k : nat) :
  forall attempt acc,
    catches (attemptOrg env fuel k attempt maxRetries o label acc).
Proof.
  induction k as [|k IH]; intros attempt acc; cbn [attemptOrg]; through.
  apply IH.
Qed.

Lemma catches_processOrgs (n : nat) (orgs : list OrgInfo) :
  forall i acc, catches (processOrgs env fuel maxRetries n i orgs acc).
Proof.
  induction orgs as [|o orgs IH]; intros i acc; cbn [processOrgs]; through;
    try apply IH; try apply catches_attemptOrg.
Qed.

Lemma attemptOrg_grows (o : OrgInfo) (label : string) (k : nat) :
  forall attempt acc,
    yields (attemptOrg env fuel k attempt maxRetries o label acc) (grows acc).
Proof.
  induction k as [|k IH]; intros attempt acc; cbn [attemptOrg].
  - apply yields_ret, grows_refl.
  - apply (yields_bind _ _ (fun _ => True)); [apply yields_any | intros _ _].
    apply (yields_bind _ _ (fun step => grows acc (snd step))).
    + apply yields_try_catch.
      * apply (yields_bind _ _ (fun _ => True)); [apply yields_any |].
        intros r _.
        apply (yields_bind _ _ (fun _ => True)); [apply yields_any |].
        intros _ _. apply yields_ret, grows_addResult.
      * intros e. destruct (attempt =? maxRetries).
        -- apply (yields_bind _ _ (fun _ => True)); [apply yields_any |].
           intros _ _. apply yields_ret, grows_addFailed.
        -- apply (yields_bind _ _ (fun _ => True)); [apply yields_any |].
           intros _ _.
           apply (yields_bind _ _ (fun _ => True)); [apply yields_any |].
           intros _ _. apply yields_ret, grows_refl.
    + intros [success acc1] Hg. cbn [snd] in Hg. destruct success.
      * now apply yields_ret.
      * eapply yields_weaken; [apply IH |].
        intros acc2 H2. eapply grows_trans; eauto.
Qed.

Lemma processOrgs_grows (n : nat) (orgs : list OrgInfo) :
  forall i acc,
    yields (processOrgs env fuel maxRetries n i orgs acc) (grows acc).
Proof.
  induction orgs as [|o orgs IH]; intros i acc; cbn [processOrgs].
  - apply yields_ret, grows_refl.
  - apply (yields_bind _ _ (fun _ => True)); [apply yields_any | intros _ _].
    destruct (negb (truthy (org_userId o))).
    + apply (yields_bind _ _ (fun _ => True)); [apply yields_any | intros _ _].
      eapply yields_weaken; [apply IH |].
      intros acc2 H2. eapply grows_trans; [apply grows_addFailed | exact H2].
    + apply (yields_bind _ _ (grows acc)); [apply attemptOrg_grows |].
      intros acc1 H1.
      apply (yields_bind _ _ (fun _ => True)); [apply yields_any | intros _ _].
      eapply yields_weaken; [apply IH |].
      intros acc2 H2. eapply grows_trans; eauto.
Qed.

(** Every organisation of the list is taken up: its "Processing org" line
    is written, whatever happened to the organisations before it. *)
Lemma processOrgs_visits_all (n : nat) (orgs : list OrgInfo) :
  forall i acc w acc' w',
    processOrgs env fuel maxRetries n i orgs acc w = (Ret acc', w') ->
    exists evs,
      trace w' = trace w ++ evs
      /\ forall k o, nth_error orgs k = Some o ->
           In (EvConsole (LogProcessingOrg (i + k + 1) n (labelOf o) (org_id o)))
              evs.
Proof.
  induction orgs as [|o orgs IH]; intros i acc w acc' w' H.
  - injection H as _ <-. exists []. split; [now rewrite app_nil_r |].
    intros [|k] o'; discriminate.
  - cbn [processOrgs] in H. fold (labelOf o) in H.
    unfold console at 1 in H.
    rewrite (bind_ret_eq _ _ w _ tt (emit_eq _ w)) in H.
    set (ev0 := EvConsole (LogProcessingOrg (i + 1) n (labelOf o) (org_id o)))
      in *.
    assert (Hrest : exists w2 acc2 evs1,
               trace w2 = trace w ++ ev0 :: evs1
               /\ processOrgs env fuel maxRetries n (S i) orgs acc2 w2
                  = (Ret acc', w')).
    { destruct (negb (truthy (org_userId o))).
      - unfold console at 1 in H.
        rewrite (bind_ret_eq _ _ _ _ tt (emit_eq _ _)) in H.
        rewrite after_after in H.
        eexists; eexists; eexists. split; [| exact H]. reflexivity.
      - bind_cases H; try discriminate.
        pose proof (preserves_attemptOrg env _ (Stable_extends (trace w ++ [ev0]))
                      fuel maxRetries o (labelOf o) (Z.to_nat maxRetries) 1 acc
                      (after [ev0] w)) as Hp.
        rewrite Hm in Hp. cbn [snd] in Hp.
        destruct Hp as (evs1 & Ht1); [exists []; cbn; now rewrite app_nil_r |].
        bind_cases Hk; try discriminate.
        assert (Ht2 : exists evs2, trace w1 = trace w ++ ev0 :: evs2).
        { destruct (Z.of_nat i <? Z.of_nat n - 1).
          - injection Hm0 as _ <-. exists (evs1 ++ [EvSleep 500]). cbn.
            rewrite Ht1. now rewrite <- !app_assoc.
          - injection Hm0 as _ <-. exists evs1.
            rewrite Ht1. now rewrite <- app_assoc. }
        destruct Ht2 as (evs2 & Ht2). eauto. }
    destruct Hrest as (w2 & acc2 & evs1 & Ht & Hr).
    destruct (IH _ _ _ _ _ Hr) as (evs2 & Ht2 & Hin).
    exists (ev0 :: evs1 ++ evs2). split.
    + rewrite Ht2, Ht. now rewrite <- app_assoc.
    + intros [|k] o' Hn.
      * injection Hn as <-. left. subst ev0. now rewrite Nat.add_0_r.
      * right. apply in_or_app. right.
        replace (i + S k + 1)%nat with (S i + k + 1)%nat by lia.
        now apply Hin.
Qed.

Lemma attemptOrg_failure_recorded (o : OrgInfo) (label : string) (acc : Acc)
  (w w1 : World) (e : Error) :
  fetchPipelineForOrg env fuel (org_id o) (Some (org_userId o)) w = (Throw e, w1) ->
  attemptOrg env fuel 1 1 1 o label acc w
  = (Ret (addFailed acc label), after [EvConsole (ErrFailedAfter 1)] w1).
Proof.
  intros H. cbn [attemptOrg]. change (1 <? 1) with false.
  change (1 =? 1) with true. cbv iota.
  rewrite (bind_ret_eq _ _ w w tt); [| reflexivity].
  erewrite (bind_ret_eq _ _ w _ (false, addFailed acc label)); [reflexivity |].
  rewrite (try_catch_throw_eq _ _ w w1 e).
  - reflexivity.
  - now rewrite (bind_throw_eq _ _ w w1 e).
Qed.

End OrgLoop.

Section OrgLoopHalts.

Variable env : Env.
Variable fuel : nat.
Variable maxRetries : Z.

Hypothesis fetch_halts :
  forall o u, halts (fetchPipelineForOrg env fuel o u).

Lemma halts_attemptOrg (o : OrgInfo) (label : string) (k : nat) :
  forall attempt acc,
    halts (attemptOrg env fuel k attempt maxRetries o label acc).
Proof.
  induction k as [|k IH]; intros attempt acc; cbn [attemptOrg]; through;
    try apply fetch_halts; try apply IH.
Qed.

Lemma halts_processOrgs (n : nat) (orgs : list OrgInfo) :
  forall i acc, halts (processOrgs env fuel maxRetries n i orgs acc).
Proof.
  induction orgs as [|o orgs IH]; intros i acc; cbn [processOrgs]; through;
    try apply IH; try apply halts_attemptOrg.
Qed.

End OrgLoopHalts.



(* ------------------------------------------------------------------ *)
(** ** C8: discovery with an empty identity list *)

(** C8, counterexample.  The remote lists no identity, and the session is
    valid: the token is issued and the session-user query names the
    organisation it is bound to, so that [fetchAvailableOrgs] yields the
    synthetic descriptor.  The extract command does not use it: it ends
    with "No organizations found", without a switch and without a query. *)
Lemma empty_identity_list_ends_the_run :
  fst (fetchAvailableOrgs (mockEnv noIdentities) (start aliceSession))
  = Ret [mkOrg "org-home" "Home" ""]
  /\ fst (extractCommand (mockEnv noIdentities) 5 defaultOptions
            (Some aliceSession))
     = Ret ExitNoOrganizations
  /\ switchRequests
       (snd (extractCommand (mockEnv noIdentities) 5 defaultOptions
               (Some aliceSession))) = []
  /\ existsb isGraphQL
       (snd (extractCommand (mockEnv noIdentities) 5 defaultOptions
               (Some aliceSession))) = false.
Proof. repeat split; vm_compute; reflexivity. Qed.

(** C8, as the code has it.  When [fetchAllAvailableOrgs] comes back
    empty and the session-user query then names an organisation,
    [fetchAvailableOrgs] returns the single synthetic descriptor of that
    organisation, its name defaulting to its identifier.  The extract
    command discovers through [fetchAllAvailableOrgs] itself, which has no
    such fallback: on the empty list it ends the run with "No
    organizations found". *)
Theorem empty_discovery_fallback_and_exit (env : Env) (w w1 w2 : World)
  (user : SessionUser) :
  fetchAllAvailableOrgs env w = (Ret [], w1) ->
  graphqlQuery env ApiGetSessionUser VNone false w1
  = (Ret (DSessionUser user), w2) ->
  truthy (organizationId user) = true ->
  fetchAvailableOrgs env w
  = (Ret [mkOrg (organizationId user)
                (or_else (organizationName user) (organizationId user)) ""],
     w2)
  /\ (forall fuel options,
        trace w = [] -> hasAuthCookie (session w) = true ->
        extractCommand env fuel options (Some (session w))
        = (Ret ExitNoOrganizations, trace w1)).
Proof.
  intros Hall Hq Hid. split.
  - unfold fetchAvailableOrgs.
    rewrite (bind_ret_eq _ _ w w1 [] Hall). cbn [length Z.of_nat Z.ltb Z.compare].
    apply try_catch_ret_eq.
    rewrite (bind_ret_eq _ _ w1 w2 _ Hq). cbn [user_of].
    rewrite (bind_ret_eq _ _ w2 w2 user); [| reflexivity].
    now rewrite Hid.
  - intros fuel options Ht Hc. unfold extractCommand, extractWithSession.
    destruct w as [s tr]. cbn [trace session] in *. subst tr.
    rewrite (bind_ret_eq _ _ _ (mkWorld s []) s); [| reflexivity].
    rewrite Hc. cbn [negb].
    rewrite (bind_ret_eq _ _ _ w1 (inr [])); [reflexivity |].
    apply try_catch_ret_eq.
    now rewrite (bind_ret_eq _ _ _ w1 [] Hall).
Qed.

Lemma empty_discovery_fallback_witness :
  fetchAvailableOrgs (mockEnv noIdentities) (start aliceSession)
  = (Ret [mkOrg "org-home" "Home" ""],
     snd (fetchAvailableOrgs (mockEnv noIdentities) (start aliceSession)))
  /\ extractCommand (mockEnv noIdentities) 5 defaultOptions (Some aliceSession)
     = (Ret ExitNoOrganizations,
        trace (snd (fetchAllAvailableOrgs (mockEnv noIdentities)
                      (start aliceSession)))).
Proof.
  destruct (empty_discovery_fallback_and_exit (mockEnv noIdentities)
              (start aliceSession)
              (snd (fetchAllAvailableOrgs (mockEnv noIdentities)
                      (start aliceSession)))
              (snd (fetchAvailableOrgs (mockEnv noIdentities)
                      (start aliceSession)))
              (mkSessionUser "org-home" "Home"))
    as [H1 H2].
  - vm_compute. reflexivity.
  - vm_compute. reflexivity.
  - reflexivity.
  - split.
    + exact H1.
    + apply (H2 5%nat defaultOptions); reflexivity.
Defined.

(* ------------------------------------------------------------------ *)
(** ** C4 and C5: the pagination loop *)

Section PageLoop.

Variable env : Env.

(** A GraphQL call with a token in the session sends one request and
    fetches no token. *)
Lemma graphqlQuery_cached (op : OpName) (vars : Vars) (w : World) (t : string) :
  csrfToken (session w) = Some t -> truthy t = true ->
  graphqlQuery env op vars false w
  = let h := with_csrf (createAuthHeaders (session w)) t in
    let out := remote_graphql env (trace w) op vars h in
    let w' := after [EvGraphQL op vars h out] w in
    match out with
    | NetworkError => (Throw NetworkFailure, w')
    | Response st body =>
        if negb (ok st) then (Throw (GraphQLRequestFailed st), w')
        else match body with
             | GqlUnparsable => (Throw InvalidJsonResponse, w')
             | GqlJson d (Some messages) => (Throw (GraphQLErrors messages), w')
             | GqlJson d None => (Ret d, w')
             end
    end.
Proof.
  intros Ht Htr. unfold graphqlQuery.
  rewrite (bind_ret_eq _ _ w w (session w)); [| reflexivity].
  rewrite Ht. cbn [truthy_opt]. rewrite Htr. cbn [negb orb].
  rewrite (bind_ret_eq _ _ w w (Some t)); [| reflexivity].
  rewrite (bind_ret_eq _ _ w w (session w)); [| reflexivity].
  unfold queryHeaders. rewrite Htr. cbv zeta.
  unfold bind, fetch_graphql, respond.
  destruct (remote_graphql env (trace w) op vars
              (with_csrf (createAuthHeaders (session w)) t))
    as [|st body]; [reflexivity |].
  destruct (negb (ok st)); [reflexivity |].
  destruct body as [|d [m|]]; reflexivity.
Qed.

(** One turn of the loop on a page that arrives: its records are
    appended, and the loop goes on with the cursor and the flag of the
    page, whatever they are. *)
Lemma fetchPages_turn (fuel : nat) (v : PageVars) (w : World) (t : string)
  (st : Z) (page : ApplicationsPage) :
  hasMore v = true ->
  csrfToken (session w) = Some t -> truthy t = true ->
  remote_graphql env (trace w) ApiGetActiveApplications
    (VActiveApplications (cursor v) pageLimit)
    (with_csrf (createAuthHeaders (session w)) t)
  = pageAnswer st page ->
  ok st = true ->
  fetchPages env (S fuel) v w
  = fetchPages env fuel
      (mkPageVars (allApplications v ++ results page) (nextCursor page)
                  (moreDataAvailable page))
      (after [pageQuery (with_csrf (createAuthHeaders (session w)) t)
                (cursor v) (pageAnswer st page);
              EvConsole (LogFetchedApplications (length (results page))
                           (length (allApplications v ++ results page))
                           (moreDataAvailable page))] w).
Proof.
  intros Hm Ht Htr Hr Hok. cbn [fetchPages]. rewrite Hm. cbn [negb].
  unfold bind at 1. rewrite (graphqlQuery_cached _ _ w t Ht Htr). cbv zeta.
  rewrite Hr. unfold pageAnswer. rewrite Hok. cbn [negb result_of ret].
  unfold console, emit, after, pageQuery, pageAnswer.
  cbn [hasMore allApplications session trace].
  now rewrite <- app_assoc.
Qed.

Lemma fetchPages_done (fuel : nat) (v : PageVars) (w : World) :
  hasMore v = false -> fetchPages env fuel v w = (Ret tt, v, w).
Proof. intros H. destruct fuel; cbn [fetchPages]; now rewrite H. Qed.

(** A remote that answers every request for a page with a page that
    reports more data keeps the loop going for ever. *)
Lemma fetchPages_never_ends (t : string) :
  (forall history c h,
      exists st page,
        remote_graphql env history ApiGetActiveApplications
          (VActiveApplications c pageLimit) h = pageAnswer st page
        /\ ok st = true /\ moreDataAvailable page = true) ->
  truthy t = true ->
  forall fuel v w,
    hasMore v = true -> csrfToken (session w) = Some t ->
    fst (fst (fetchPages env fuel v w)) = OutOfFuel.
Proof.
  intros Hremote Htr. induction fuel as [|fuel IH]; intros v w Hm Ht.
  - cbn [fetchPages]. now rewrite Hm.
  - destruct (Hremote (trace w) (cursor v)
                (with_csrf (createAuthHeaders (session w)) t))
      as (st & page & Hr & Hok & Hmore).
    rewrite (fetchPages_turn fuel v w t st page Hm Ht Htr Hr Hok).
    apply IH; [exact Hmore | exact Ht].
Qed.

End PageLoop.

(** C4.  A listing answered by a first page of 100 records that reports
    more data and a second page of 20 records that reports none: the
    paginated run returns the 120 records, the first page's in order and
    then the second page's, and the GraphQL calls it makes are exactly
    the two page requests, the second one at the cursor of the first
    page.  The session holds a token, as it does after the job listing. *)
Theorem two_pages_give_120_records_in_order
  (env : Env) (w : World) (t : string) (p1 p2 : list ApplicationResult)
  (c1 c2 : option string) (st1 st2 : Z) (fuel : nat) :
  csrfToken (session w) = Some t -> truthy t = true ->
  length p1 = 100%nat -> length p2 = 20%nat ->
  ok st1 = true -> ok st2 = true ->
  remote_graphql env (trace w) ApiGetActiveApplications
    (VActiveApplications None pageLimit)
    (with_csrf (createAuthHeaders (session w)) t)
  = pageAnswer st1 (mkPage p1 c1 true) ->
  remote_graphql env
    (trace w
     ++ [pageQuery (with_csrf (createAuthHeaders (session w)) t) None
           (pageAnswer st1 (mkPage p1 c1 true));
         EvConsole (LogFetchedApplications 100 100 true)])
    ApiGetActiveApplications (VActiveApplications c1 pageLimit)
    (with_csrf (createAuthHeaders (session w)) t)
  = pageAnswer st2 (mkPage p2 c2 false) ->
  (2 <= fuel)%nat ->
  exists evs,
    fetchAllApplications env fuel w = (Ret (p1 ++ p2), after evs w)
    /\ length (p1 ++ p2) = 120%nat
    /\ filter isGraphQL evs
       = [pageQuery (with_csrf (createAuthHeaders (session w)) t) None
            (pageAnswer st1 (mkPage p1 c1 true));
          pageQuery (with_csrf (createAuthHeaders (session w)) t) c1
            (pageAnswer st2 (mkPage p2 c2 false))].
Proof.
  intros Ht Htr Hl1 Hl2 Hok1 Hok2 Hr1 Hr2 Hfuel.
  destruct fuel as [|[|fuel]]; try lia.
  eexists. split; [| split].
  - unfold fetchAllApplications.
    rewrite (fetchPages_turn env (S fuel) initialPageVars w t st1
               (mkPage p1 c1 true) eq_refl Ht Htr Hr1 Hok1).
    cbn [initialPageVars allApplications cursor results nextCursor
         moreDataAvailable app].
    rewrite Hl1.
    erewrite (fetchPages_turn env fuel) with (t := t) (st := st2)
      (page := mkPage p2 c2 false);
      [| reflexivity | exact Ht | exact Htr | exact Hr2 | exact Hok2].
    cbn [allApplications cursor results nextCursor moreDataAvailable].
    rewrite fetchPages_done by reflexivity.
    unfold bind, console, emit, ret. rewrite !after_after.
    unfold after. cbn [session trace allApplications].
    rewrite <- app_assoc. reflexivity.
  - rewrite length_app. lia.
  - reflexivity.
Qed.

Lemma two_pages_witness :
  exists evs,
    fetchAllApplications (pagesEnv [firstPage; secondPage]) 2
      (start tokenSession)
    = (Ret (applicationsFrom 0 100 ++ applicationsFrom 100 20),
       after evs (start tokenSession))
    /\ length (applicationsFrom 0 100 ++ applicationsFrom 100 20) = 120%nat
    /\ filter isGraphQL evs
       = [pageQuery (mkHeaders aliceCookies (Some "token"%string)) None
            (pageAnswer 200 firstPage);
          pageQuery (mkHeaders aliceCookies (Some "token"%string))
            (Some "cursor-1"%string) (pageAnswer 200 secondPage)].
Proof.
  apply (two_pages_give_120_records_in_order
           (pagesEnv [firstPage; secondPage]) (start tokenSession) "token"
           (applicationsFrom 0 100) (applicationsFrom 100 20)
           (Some "cursor-1"%string) None 200 200 2).
  - reflexivity.
  - reflexivity.
  - reflexivity.
  - reflexivity.
  - reflexivity.
  - reflexivity.
  - reflexivity.
  - reflexivity.
  - lia.
Defined.

Lemma queryCount_app (op : OpName) (a b : list Event) :
  queryCount op (a ++ b) = (queryCount op a + queryCount op b)%nat.
Proof. unfold queryCount. now rewrite filter_app, length_app. Qed.

(** Against the scripted remote, the loop reads the pages that are left,
    one request per page, and stops at the first page that reports no
    more data. *)
Lemma fetchPages_script (t : string) (last : ApplicationsPage) :
  truthy t = true -> moreDataAvailable last = false ->
  forall (pages done : list ApplicationsPage) (v : PageVars) (w : World)
         (fuel : nat),
    Forall (fun p => moreDataAvailable p = true) pages ->
    hasMore v = true ->
    csrfToken (session w) = Some t ->
    queryCount ApiGetActiveApplications (trace w) = length done ->
    (length pages < fuel)%nat ->
    exists evs,
      fetchPages (pagesEnv (done ++ pages ++ [last])) fuel v w
      = (Ret tt,
         mkPageVars (allApplications v ++ flat_map results (pages ++ [last]))
                    (nextCursor last) false,
         after evs w)
      /\ queryCount ApiGetActiveApplications evs = S (length pages).
Proof.
  intros Htr Hlast. induction pages as [|p ps IH];
    intros done v w fuel Hall Hm Ht Hc Hfuel;
    (destruct fuel as [|fuel]; [cbn in Hfuel; lia |]).
  - eexists. split.
    + erewrite (fetchPages_turn _ fuel v w t 200 last Hm Ht Htr);
        [| | reflexivity].
      * rewrite fetchPages_done by exact Hlast.
        cbn [flat_map app]. rewrite app_nil_r. rewrite Hlast. reflexivity.
      * cbn [pagesEnv remote_graphql]. rewrite Hc.
        rewrite nth_error_app2 by lia. now rewrite Nat.sub_diag.
    + reflexivity.
  - inversion Hall as [|p' ps' Hp Hps]; subst.
    assert (Hr : remote_graphql (pagesEnv (done ++ (p :: ps) ++ [last]))
                   (trace w) ApiGetActiveApplications
                   (VActiveApplications (cursor v) pageLimit)
                   (with_csrf (createAuthHeaders (session w)) t)
                 = pageAnswer 200 p).
    { cbn [pagesEnv remote_graphql]. rewrite Hc.
      rewrite nth_error_app2 by lia. now rewrite Nat.sub_diag. }
    rewrite (fetchPages_turn _ fuel v w t 200 p Hm Ht Htr Hr eq_refl).
    set (w1 := after _ w).
    destruct (IH (done ++ [p])
                (mkPageVars (allApplications v ++ results p) (nextCursor p)
                            (moreDataAvailable p))
                w1 fuel Hps Hp Ht) as (evs & He & Hn).
    { subst w1. cbn [after trace].
      rewrite queryCount_app, Hc, (length_app done [p]). reflexivity. }
    { cbn [length] in Hfuel. lia. }
    eexists. split.
    + replace (done ++ (p :: ps) ++ [last])
        with ((done ++ [p]) ++ ps ++ [last])
        by (now rewrite <- app_assoc).
      rewrite He. subst w1. rewrite after_after.
      cbn [allApplications flat_map app]. rewrite <- app_assoc. reflexivity.
    + change (queryCount ApiGetActiveApplications
                (pageQuery (with_csrf (createAuthHeaders (session w)) t)
                   (cursor v) (pageAnswer 200 p)
                 :: EvConsole
                      (LogFetchedApplications (length (results p))
                         (length (allApplications v ++ results p))
                         (moreDataAvailable p))
                 :: evs))
        with (S (queryCount ApiGetActiveApplications evs)).
      now rewrite Hn.
Qed.

(** C5, counterexample.  The remote answers every request for a page with
    an empty page that reports more data and hands back the cursor it was
    asked with.  The loop then never ends, with a failure or otherwise:
    whatever number of iterations it is allowed, it uses them all.  After
    200 requests it holds no record and is still asking. *)
Lemma stuck_cursor_loops_for_ever :
  ~ (exists fuel,
        fst (fst (fetchPages (mockEnv cursorStuck) fuel initialPageVars
                    (start tokenSession))) <> OutOfFuel)
  /\ queryCount ApiGetActiveApplications
       (trace (snd (fetchPages (mockEnv cursorStuck) 200 initialPageVars
                      (start tokenSession)))) = 200%nat
  /\ allApplications
       (snd (fst (fetchPages (mockEnv cursorStuck) 200 initialPageVars
                    (start tokenSession)))) = [].
Proof.
  split; [| split; vm_compute; reflexivity].
  intros (fuel & H). apply H.
  apply (fetchPages_never_ends (mockEnv cursorStuck) "token").
  - intros history c h. exists 200, (mkPage [] c true). repeat split.
  - reflexivity.
  - reflexivity.
  - reflexivity.
Qed.

(** C5, as the code has it.  The loop looks at the flag of a page only,
    never at its cursor, and has no bound of its own.
    - Against a remote that answers the page requests with [pages] and
      then [last], where [last] is the first page that reports no more
      data: once allowed more iterations than there are [pages], the run
      returns the records of all the pages in order after exactly one
      request per page, whatever cursors the pages carry (equal ones
      included).
    - Against any remote that answers every page request with a page that
      reports more data, the run does not end, however many iterations it
      is allowed. *)
Theorem pagination_ends_with_the_more_flag (t : string) (w : World) :
  csrfToken (session w) = Some t -> truthy t = true ->
  (forall (pages : list ApplicationsPage) (last : ApplicationsPage)
          (fuel : nat),
      Forall (fun p => moreDataAvailable p = true) pages ->
      moreDataAvailable last = false ->
      queryCount ApiGetActiveApplications (trace w) = 0%nat ->
      (length pages < fuel)%nat ->
      exists evs,
        fetchAllApplications (pagesEnv (pages ++ [last])) fuel w
        = (Ret (flat_map results (pages ++ [last])), after evs w)
        /\ queryCount ApiGetActiveApplications evs = S (length pages))
  /\ (forall env : Env,
        (forall history c h,
            exists st page,
              remote_graphql env history ApiGetActiveApplications
                (VActiveApplications c pageLimit) h = pageAnswer st page
              /\ ok st = true /\ moreDataAvailable page = true) ->
        forall fuel, fst (fetchAllApplications env fuel w) = OutOfFuel).
Proof.
  intros Ht Htr. split.
  - intros pages last fuel Hall Hlast Hc Hfuel.
    destruct (fetchPages_script t last Htr Hlast pages [] initialPageVars w
                fuel Hall eq_refl Ht Hc Hfuel) as (evs & He & Hn).
    cbn [app] in He.
    exists (evs ++ [EvConsole
                      (LogTotalApplications
                         (length (flat_map results (pages ++ [last]))))]).
    split.
    + unfold fetchAllApplications. rewrite He.
      cbn [allApplications initialPageVars app].
      unfold bind, console, emit, ret, after. cbn [session trace].
      now rewrite <- app_assoc.
    + rewrite queryCount_app, Hn. cbn. lia.
  - intros env Hremote fuel. unfold fetchAllApplications.
    pose proof (fetchPages_never_ends env t Hremote Htr fuel initialPageVars w
                  eq_refl Ht) as H.
    destruct (fetchPages env fuel initialPageVars w) as [[r v] w1].
    cbn [fst] in H. now subst r.
Qed.

Lemma pagination_ends_witness :
  exists evs,
    fetchAllApplications (pagesEnv [firstPage; secondPage]) 2
      (start tokenSession)
    = (Ret (flat_map results [firstPage; secondPage]),
       after evs (start tokenSession))
    /\ queryCount ApiGetActiveApplications evs = 2%nat.
Proof.
  destruct (pagination_ends_with_the_more_flag "token" (start tokenSession))
    as [H _].
  - reflexivity.
  - reflexivity.
  - apply (H [firstPage] secondPage 2%nat).
    + repeat constructor.
    + reflexivity.
    + reflexivity.
    + cbn. lia.
Defined.

(* ------------------------------------------------------------------ *)
(** ** C6: the token after a switch *)

Section TokenFacts.

Lemma tokenStep_none (evs : list Event) : fold_left tokenStep evs None = None.
Proof. induction evs as [|e evs IH]; cbn; auto. Qed.

Lemma tokenRun_app (a b : list Event) :
  tokenRun (a ++ b) = fold_left tokenStep b (tokenRun a).
Proof. unfold tokenRun. apply fold_left_app. Qed.

Lemma tokenRun_snoc (a : list Event) (e : Event) :
  tokenRun (a ++ [e]) = tokenStep (tokenRun a) e.
Proof. now rewrite tokenRun_app. Qed.

Lemma sameToken_eq (a b : option string) : sameToken a b = true -> a = b.
Proof.
  destruct a as [x|], b as [y|]; cbn; try discriminate; auto.
  intros H. apply String.eqb_eq in H. now subst.
Qed.

Lemma sameToken_refl (a : option string) : sameToken a a = true.
Proof. destruct a as [x|]; cbn; [apply String.eqb_refl | reflexivity]. Qed.

Lemma CsrfRun_tokens (h : Headers) (retries : Z) (c : bool) (a : Z)
  (evs : list Event) (r : Result string) :
  CsrfRun h retries c a evs r ->
  forall s,
    fold_left tokenStep evs (Some s)
    = Some (match r with Ret t => pushToken t s | _ => s end).
Proof.
  induction 1 as [a|a|a st t Hok|a st Hok|a b|a st b Hok Hne
                 |a st b evs r Hok Hne Hlt Hrun IH]; intros s; cbn.
  - reflexivity.
  - reflexivity.
  - now rewrite Hok.
  - reflexivity.
  - now destruct b.
  - destruct b; [now rewrite Hok | reflexivity].
  - rewrite <- IH. destruct b; [now rewrite Hok | reflexivity].
Qed.

Variable env : Env.

Lemma fetchCsrfToken_tokens (retries : Z) (w w' : World) (r : Result string) :
  fetchCsrfToken env retries w = (r, w') ->
  session w' = session w
  /\ r <> OutOfFuel
  /\ forall s, tokenRun (trace w) = Some s ->
       tokenRun (trace w')
       = Some (match r with Ret t => pushToken t s | _ => s end).
Proof.
  intros H. apply fetchCsrfToken_run in H.
  destruct H as [(_ & -> & ->) | (_ & evs & -> & Hrun)].
  - repeat split; [discriminate | auto].
  - cbn [session trace]. repeat split.
    + eapply CsrfRun_halts; eauto.
    + intros s Hs. rewrite tokenRun_app, Hs.
      eapply CsrfRun_tokens; eauto.
Qed.

Lemma tokenRun_neutral (l : list Event) (e : Event) :
  neutral e = true -> tokenRun (l ++ [e]) = tokenRun l.
Proof.
  intros He. rewrite tokenRun_snoc.
  destruct (tokenRun l) as [s|]; [| reflexivity].
  destruct e; try discriminate; reflexivity.
Qed.

Lemma TokenInv_neutral (e : Event) (w : World) :
  neutral e = true -> TokenInv w -> TokenInv (after [e] w).
Proof.
  intros He. unfold TokenInv, after. cbn [session trace].
  now rewrite tokenRun_neutral.
Qed.

Lemma tokens_console (m : ConsoleMsg) : preserves TokenInv (console m).
Proof. intros w Hw. now apply (TokenInv_neutral (EvConsole m)). Qed.

Lemma tokens_sleep (ms : Z) : preserves TokenInv (sleep ms).
Proof. intros w Hw. now apply (TokenInv_neutral (EvSleep ms)). Qed.

Lemma tokens_read : preserves TokenInv (read_query_file env).
Proof.
  intros w Hw. unfold read_query_file.
  destruct (query_file env (trace w)) eqn:E; cbn [snd];
    now apply (TokenInv_neutral (EvReadQueryFile _)).
Qed.

Lemma TokenInv_graphql (op : OpName) (vars : Vars) (h : Headers)
  (out : Http GqlBody) (w : World) :
  Accepted h w -> TokenInv w -> TokenInv (after [EvGraphQL op vars h out] w).
Proof.
  unfold Accepted, TokenInv, after. cbn [session trace].
  rewrite tokenRun_snoc.
  destruct (tokenRun (trace w)) as [[|l]|]; cbn [tokenStep]; auto.
  intros (t & Hin & Hh) Hw.
  assert (He : existsb (fun t0 => sameToken (h_csrf h) (sentToken t0)) l = true).
  { apply existsb_exists. exists t. split; [exact Hin |].
    rewrite Hh. apply sameToken_refl. }
  now rewrite He.
Qed.

Lemma h_csrf_queryHeaders (t : string) (s : AshbySession) :
  csrfToken s = Some t -> h_csrf (queryHeaders (Some t) s) = sentToken t.
Proof.
  intros Hs. unfold queryHeaders, sentToken, createAuthHeaders, with_csrf.
  rewrite Hs. cbn [truthy_opt]. now destruct (truthy t).
Qed.

(** The token that a GraphQL call takes in hand, fetched or cached, may
    go out. *)
Lemma token_in_hand (force : bool) (w w1 : World) (r : Result (option string)) :
  TokenInv w ->
  (if (negb (truthy_opt (csrfToken (session w))) || force)%bool then
     console (if force then LogRefreshingCsrf else LogFetchingCsrf) ;;;
     t <- fetchCsrfToken env defaultRetries ;;
     set_csrfToken (Some t) ;;;
     ret (Some t)
   else ret (csrfToken (session w))) w = (r, w1) ->
  TokenInv w1
  /\ forall csrf, r = Ret csrf -> Accepted (queryHeaders csrf (session w1)) w1.
Proof.
  intros Hw H.
  destruct (negb (truthy_opt (csrfToken (session w))) || force)%bool eqn:Hc.
  - unfold console at 1 in H.
    rewrite (bind_ret_eq _ _ _ _ tt (emit_eq _ _)) in H.
    match type of H with
    | context [after [?e] w] =>
        pose proof (TokenInv_neutral e w eq_refl Hw) as Hw0;
        set (w0 := after [e] w) in *
    end.
    bind_cases H.
    + apply fetchCsrfToken_tokens in Hm. destruct Hm as (Hs & _ & Ht).
      cbn in Hk. injection Hk as <- <-.
      unfold TokenInv, Accepted in *. cbn [session trace csrfToken].
      destruct (tokenRun (trace w0)) as [[|l]|] eqn:E; try contradiction.
      * rewrite (Ht _ eq_refl). cbn. split; [exact I |]. intros csrf _. exact I.
      * rewrite (Ht _ eq_refl). cbn [pushToken]. split.
        -- right. exists a. split; [now left | reflexivity].
        -- intros csrf Hcs. injection Hcs as <-. exists a.
           split; [now left |]. now apply h_csrf_queryHeaders.
    + apply fetchCsrfToken_tokens in Hm. destruct Hm as (Hs & _ & Ht).
      subst r. split; [| discriminate].
      unfold TokenInv in *. rewrite Hs.
      destruct (tokenRun (trace w0)) as [s|] eqn:E; [| contradiction].
      now rewrite (Ht _ eq_refl).
    + apply fetchCsrfToken_tokens in Hm. now destruct Hm as (_ & Hne & _).
  - injection H as <- <-. split; [exact Hw |].
    intros csrf Hcs. injection Hcs as <-.
    apply orb_false_iff in Hc. destruct Hc as [Hc _].
    apply negb_false_iff in Hc.
    unfold TokenInv, Accepted in *.
    destruct (tokenRun (trace w)) as [[|l]|]; auto.
    destruct Hw as [Hw | (t & Hin & Hs)]; [congruence |].
    exists t. split; [exact Hin |]. rewrite Hs.
    now apply h_csrf_queryHeaders.
Qed.

Lemma tokens_graphqlQuery (op : OpName) (vars : Vars) (force : bool) :
  preserves TokenInv (graphqlQuery env op vars force).
Proof.
  intros w Hw. destruct (graphqlQuery env op vars force w) as [r w'] eqn:E.
  cbn [snd]. unfold graphqlQuery in E.
  rewrite (bind_ret_eq _ _ w w (session w)) in E; [| reflexivity].
  bind_cases E.
  - destruct (token_in_hand force w w0 (Ret a) Hw Hm) as (Hw0 & Hacc).
    specialize (Hacc a eq_refl).
    rewrite (bind_ret_eq _ _ w0 w0 (session w0)) in Hk; [| reflexivity].
    cbv zeta in Hk. unfold bind, fetch_graphql, respond in Hk.
    pose proof (TokenInv_graphql op vars (queryHeaders a (session w0))
                  (remote_graphql env (trace w0) op vars
                     (queryHeaders a (session w0))) w0 Hacc Hw0) as Hw1.
    destruct (remote_graphql env (trace w0) op vars
                (queryHeaders a (session w0))) as [|st body].
    + injection Hk as _ <-. exact Hw1.
    + destruct (negb (ok st)); [injection Hk as _ <-; exact Hw1 |].
      destruct body as [|d [m|]]; injection Hk as _ <-; exact Hw1.
  - now destruct (token_in_hand force w w' (Throw e) Hw Hm).
  - now destruct (token_in_hand force w w' OutOfFuel Hw Hm).
Qed.

(** A token fetch keeps the invariant, and the token it returns is one
    fetched since the last switch. *)
Lemma TokenInv_fetch (retries : Z) (w w' : World) (r : Result string) :
  TokenInv w -> fetchCsrfToken env retries w = (r, w') ->
  TokenInv w'
  /\ session w' = session w
  /\ r <> OutOfFuel
  /\ forall t, r = Ret t -> Fetched t w'.
Proof.
  intros Hw H. apply fetchCsrfToken_tokens in H. destruct H as (Hs & Hne & Ht).
  unfold TokenInv, Fetched in *. rewrite Hs.
  destruct (tokenRun (trace w)) as [s|] eqn:E; [| contradiction].
  rewrite (Ht _ eq_refl). repeat split; auto.
  - destruct r as [t| |]; auto. destruct s as [|l]; cbn; auto.
    destruct Hw as [Hw | (t0 & Hin & Hs0)]; [now left |].
    right. exists t0. split; [now right | exact Hs0].
  - intros t ->. destruct s as [|l]; cbn; auto.
Qed.

Lemma TokenInv_set_fetched (t : string) (w : World) :
  Fetched t w ->
  TokenInv (mkWorld (mkSession (cookies (session w)) (Some t)
                       (orgIds (session w))) (trace w)).
Proof.
  unfold Fetched, TokenInv. cbn [session trace csrfToken].
  destruct (tokenRun (trace w)) as [[|l]|]; auto.
  intros Hin. right. exists t. auto.
Qed.

Lemma tokens_verifySwitch : preserves TokenInv (verifySwitch env).
Proof.
  unfold verifySwitch. through.
  - apply tokens_graphqlQuery.
  - unfold user_of. through.
  - apply tokens_console.
  - apply tokens_console.
Qed.

Lemma hoare_seq {A B : Type} (P Q R : World -> Prop) (m : M A) (k : A -> M B) :
  hoare P m (fun _ => Q) ->
  (forall a, hoare Q (k a) (fun _ => R)) ->
  (forall w, Q w -> R w) ->
  hoare P (bind m k) (fun _ => R).
Proof.
  intros Hm Hk HQ. apply (hoare_bind P m (fun _ => Q)); auto.
Qed.

(** After a step that cannot fail. *)
Lemma hoare_after_emit {B : Type} (P P' : World -> Prop) (e : Event)
  (k : unit -> M B) (R : Result B -> World -> Prop) :
  (forall w, P w -> P' (after [e] w)) ->
  hoare P' (k tt) R ->
  hoare P (bind (emit e) k) R.
Proof. intros HP Hk w Hw. unfold bind. cbn [emit]. apply Hk, HP, Hw. Qed.

Lemma hoare_after_set_csrfToken {B : Type} (P P' : World -> Prop)
  (t : option string) (k : unit -> M B) (R : Result B -> World -> Prop) :
  (forall w, P w ->
     P' (mkWorld (mkSession (cookies (session w)) t (orgIds (session w)))
                 (trace w))) ->
  hoare P' (k tt) R ->
  hoare P (bind (set_csrfToken t) k) R.
Proof. intros HP Hk w Hw. unfold bind. cbn [set_csrfToken]. apply Hk, HP, Hw. Qed.

Lemma Switched_after (e : Event) (w : World) :
  neutral e = true -> Switched w -> Switched (after [e] w).
Proof.
  intros He Hw. unfold Switched in *. cbn [after trace].
  now rewrite tokenRun_neutral.
Qed.

Lemma change_user_tokens (u : string) (h : Headers) :
  hoare TokenInv (fetch_change_user env u h)
    (fun r w => match r with
                | Ret (st, _) => if ok st then Switched w else TokenInv w
                | _ => TokenInv w
                end).
Proof.
  intros w Hw. unfold fetch_change_user, respond.
  assert (Hstep : forall out,
             tokenRun (trace w ++ [EvChangeUser u h out])
             = match out with
               | Response st _ =>
                   if ok st then Some (Since []) else tokenRun (trace w)
               | NetworkError => tokenRun (trace w)
               end).
  { intros out. rewrite tokenRun_snoc. unfold TokenInv in Hw.
    destruct (tokenRun (trace w)) as [s|]; [| contradiction].
    destruct out as [|st b]; cbn; [reflexivity | now destruct (ok st)]. }
  destruct (remote_change_user env (trace w) u h) as [|st hdr];
    cbn [fst snd].
  - unfold TokenInv in *. cbn [session trace]. now rewrite Hstep.
  - specialize (Hstep (Response st hdr)). cbv beta iota in Hstep.
    unfold Switched, TokenInv in *. cbn [session trace].
    destruct (ok st); [exact Hstep | now rewrite Hstep].
Qed.

Lemma refresh_after_switch :
  hoare Switched
    (try_catch
       (newCsrfToken <- fetchCsrfToken env defaultRetries ;;
        set_csrfToken (Some newCsrfToken) ;;;
        console LogSwitchedRefreshed)
       (fun error =>
          console WarnCsrfAfterSwitch ;;;
          set_csrfToken None ;;;
          throw CsrfRefreshAfterSwitchFailed))
    (fun _ => TokenInv).
Proof.
  apply (hoare_try_catch _ _
           (fun r w => match r with
                       | Ret _ => TokenInv w
                       | Throw _ => Switched w
                       | OutOfFuel => False
                       end)).
  - apply (hoare_bind _ _
             (fun r w => match r with
                         | Ret t => Fetched t w
                         | Throw _ => Switched w
                         | OutOfFuel => False
                         end)).
    + intros w Hw. destruct (fetchCsrfToken env defaultRetries w) as [r w'] eqn:E.
      cbn [fst snd]. apply fetchCsrfToken_tokens in E.
      destruct E as (Hs & Hne & Ht). specialize (Ht _ Hw).
      unfold Fetched, Switched. destruct r as [t|e|].
      * rewrite Ht. cbn. now left.
      * exact Ht.
      * now elim Hne.
    + intros t. apply (hoare_after_set_csrfToken _ TokenInv).
      * intros w Hw. now apply TokenInv_set_fetched.
      * intros w Hw. cbn [fst snd console emit].
        now apply (TokenInv_neutral (EvConsole LogSwitchedRefreshed)).
    + auto.
    + auto.
  - intros e. apply (hoare_after_emit _ Switched).
    + intros w Hw. now apply Switched_after.
    + apply (hoare_after_set_csrfToken _ TokenInv).
      * intros w Hw. unfold Switched in Hw. unfold TokenInv.
        cbn [session trace csrfToken]. rewrite Hw. now left.
      * apply preserves_throw.
  - auto.
  - intros w [].
Qed.

Lemma tokens_switchOrgContext (u : string) :
  preserves TokenInv (switchOrgContext env u).
Proof.
  unfold switchOrgContext.
  apply (hoare_seq _ TokenInv).
  { intros w Hw. destruct (fetchCsrfToken env defaultRetries w) as [r w'] eqn:E.
    now destruct (TokenInv_fetch _ _ _ _ Hw E). }
  2: auto.
  intros csrf. apply preserves_bind; [apply preserves_get_session |].
  intros s. eapply hoare_bind; [apply change_user_tokens | | |].
  2: { intros e w Hw. exact Hw. }
  2: { intros w Hw. exact Hw. }
  intros [st hdr]. destruct (ok st); cbn [negb].
  2: { apply preserves_throw. }
  apply (hoare_after_emit _ Switched).
  { intros w Hw. now apply Switched_after. }
  apply (hoare_bind _ _ (fun r w => match r with
                                    | Ret _ => Switched w
                                    | _ => False
                                    end)).
  { destruct hdr as [hd|]; [destruct (truthy hd) |];
      intros w Hw; cbn; exact Hw. }
  2: { intros e w []. }
  2: { intros w []. }
  intros _. apply (hoare_seq _ TokenInv).
  - apply refresh_after_switch.
  - intros _. apply tokens_verifySwitch.
  - auto.
Qed.

Lemma tokens_discovery : preserves TokenInv (fetchAllAvailableOrgs env).
Proof.
  unfold fetchAllAvailableOrgs.
  apply (hoare_seq _ TokenInv); [| | auto].
  - apply (hoare_try_catch _ _ (fun _ => TokenInv)); auto.
    + apply (hoare_bind _ _
               (fun r w => match r with
                           | Ret t => Fetched t w
                           | _ => TokenInv w
                           end)).
      * intros w Hw.
        destruct (fetchCsrfToken env defaultRetries w) as [r w'] eqn:E.
        destruct (TokenInv_fetch _ _ _ _ Hw E) as (Hw' & _ & _ & Hf).
        cbn [fst snd]. destruct r; auto.
      * intros t. apply (hoare_after_set_csrfToken _ TokenInv).
        -- intros w Hw. now apply TokenInv_set_fetched.
        -- apply preserves_ret.
      * auto.
      * auto.
    + intros e. apply preserves_throw.
  - intros csrf. apply preserves_bind; [apply preserves_get_session |].
    intros s. apply preserves_bind.
    + intros w Hw. unfold fetch_identities, respond.
      destruct (remote_identities env (trace w) _); cbn [snd];
        now apply (TokenInv_neutral (EvIdentities _ _)).
    + intros [st body]. through. apply tokens_console.
Qed.

End TokenFacts.

Section TokenSoundness.

Lemma since_stays (mid : list Event) :
  forall l0, fold_left tokenStep mid (Some (Since l0)) <> Some Idle.
Proof.
  induction mid as [|e mid IH]; intros l0; cbn [fold_left].
  - discriminate.
  - destruct e as [h [|st [t|]]|u h [|st b]|h r|op vars h r|r|ms|m];
      cbn [tokenStep pushToken]; try apply IH.
    + destruct (ok st); apply IH.
    + destruct (ok st); apply IH.
    + destruct (existsb _ l0); [apply IH |].
      rewrite tokenStep_none. discriminate.
Qed.

(** The tokens on record since a switch were fetched since. *)
Lemma since_tokens (mid : list Event) :
  forall l0 l,
    fold_left tokenStep mid (Some (Since l0)) = Some (Since l) ->
    forall t, In t l ->
      In t l0
      \/ exists h st,
          In (EvCsrfToken h (Response st (Some t))) mid /\ ok st = true.
Proof.
  induction mid as [|e mid IH]; intros l0 l H t Hin; cbn [fold_left] in H.
  - injection H as <-. now left.
  - assert (Hrest : forall l1,
               fold_left tokenStep mid (Some (Since l1)) = Some (Since l) ->
               (forall x, In x l1 ->
                  In x l0
                  \/ exists h st,
                      In (EvCsrfToken h (Response st (Some x))) (e :: mid)
                      /\ ok st = true) ->
               In t l0
               \/ exists h st,
                   In (EvCsrfToken h (Response st (Some t))) (e :: mid)
                   /\ ok st = true).
    { intros l1 H1 Hl1.
      destruct (IH l1 l H1 t Hin) as [Hi | (h & st & Hi & Hok)].
      - now apply Hl1.
      - right. exists h, st. split; [now right | exact Hok]. }
    destruct e as [h [|st [t'|]]|u h [|st b]|h r|op vars h r|r|ms|m];
      cbn [tokenStep pushToken] in H;
      try (apply (Hrest l0 H); intros x Hx; now left).
    + destruct (ok st) eqn:Hok.
      * apply (Hrest (t' :: l0) H). intros x [<- | Hx]; [| now left].
        right. exists h, st. split; [now left | exact Hok].
      * apply (Hrest l0 H). intros x Hx. now left.
    + destruct (ok st).
      * apply (Hrest [] H). intros x [].
      * apply (Hrest l0 H). intros x Hx. now left.
    + destruct (existsb _ l0).
      * apply (Hrest l0 H). intros x Hx. now left.
      * rewrite tokenStep_none in H. discriminate.
Qed.

(** A trace that the automaton accepts has the discipline. *)
Lemma tokenRun_sound (evs : list Event) :
  tokenRun evs <> None -> TokenDiscipline evs.
Proof.
  intros Hrun pre u h st b mid op vars hq out post -> Hok.
  rewrite tokenRun_app in Hrun. cbn [fold_left] in Hrun.
  destruct (tokenRun pre) as [s0|].
  2: { cbn [tokenStep] in Hrun. now rewrite tokenStep_none in Hrun. }
  cbn [tokenStep] in Hrun. rewrite Hok in Hrun.
  rewrite fold_left_app in Hrun. cbn [fold_left] in Hrun.
  destruct (fold_left tokenStep mid (Some (Since []))) as [[|l]|] eqn:Hmid.
  - now elim (since_stays mid []).
  - cbn [tokenStep] in Hrun.
    destruct (existsb (fun t => sameToken (h_csrf hq) (sentToken t)) l)
      eqn:Hex.
    + apply existsb_exists in Hex. destruct Hex as (t & Hin & Hsame).
      apply sameToken_eq in Hsame.
      destruct (since_tokens mid [] l Hmid t Hin) as [[] | (h' & st' & Hi & Hk)].
      exists h', st', t. auto.
    + now rewrite tokenStep_none in Hrun.
  - cbn [tokenStep] in Hrun. now rewrite tokenStep_none in Hrun.
Qed.

End TokenSoundness.

Lemma tokens_extractWithSession (env : Env) (fuel : nat)
  (options : ExtractOptions) :
  preserves TokenInv (extractWithSession env fuel options).
Proof.
  apply keeps_extractWithSession.
  - apply tokens_console.
  - apply tokens_sleep.
  - apply tokens_read.
  - apply tokens_graphqlQuery.
  - apply tokens_switchOrgContext.
  - apply tokens_discovery.
Qed.

(** C6.  In every run of the extract command, and whatever the remote
    answers: between a switch request that succeeded and any GraphQL call
    made later in the run, a token fetch succeeded, and the call carries a
    token fetched in between.  So the token cached before the switch is
    never sent to the tenant switched to: it has been overwritten by a
    fresh one before the first query. *)
Theorem token_refreshed_between_switch_and_query (env : Env) (fuel : nat)
  (options : ExtractOptions) (loaded : option AshbySession) :
  TokenDiscipline (snd (extractCommand env fuel options loaded)).
Proof.
  apply tokenRun_sound. unfold extractCommand.
  destruct loaded as [s|]; [| discriminate].
  pose proof (tokens_extractWithSession env fuel options (mkWorld s []) I) as H.
  destruct (extractWithSession env fuel options (mkWorld s [])) as [r w].
  cbn [snd] in *. unfold TokenInv in H.
  destruct (tokenRun (trace w)); [discriminate | contradiction].
Qed.

(** The first switch of a run over two tenants and the verification query
    that follows it: the token fetched in between, "token-2", is the one
    that the query carries. *)
Lemma token_refreshed_witness :
  exists h' st' tok,
    In (EvCsrfToken h' (Response st' (Some tok)))
       (firstn 3
          (skipn 5
             (snd (extractCommand (mockEnv twoTenants) 5 defaultOptions
                     (Some aliceSession)))))
    /\ ok st' = true
    /\ h_csrf (mkHeaders aliceCookies (Some "token-2"%string)) = sentToken tok.
Proof.
  apply (token_refreshed_between_switch_and_query (mockEnv twoTenants) 5
           defaultOptions (Some aliceSession)
           (firstn 4
              (snd (extractCommand (mockEnv twoTenants) 5 defaultOptions
                      (Some aliceSession))))
           "user-a"%string
           (mkHeaders aliceCookies (Some "token-1"%string)) 200 None
           (firstn 3
              (skipn 5
                 (snd (extractCommand (mockEnv twoTenants) 5 defaultOptions
                         (Some aliceSession)))))
           ApiGetSessionUser VNone
           (mkHeaders aliceCookies (Some "token-2"%string))
           (sessionUserOf (Some "user-a"%string))
           (skipn 9
              (snd (extractCommand (mockEnv twoTenants) 5 defaultOptions
                      (Some aliceSession))))).
  - vm_compute. reflexivity.
  - reflexivity.
Defined.

(* ------------------------------------------------------------------ *)
(** ** C10: enrichment keeps every record *)

Section Grouping.

Lemma groupInsert_perm (groups : list (string * list Candidate)) (c : Candidate) :
  Permutation (flat_map snd (groupInsert groups c)) (flat_map snd groups ++ [c]).
Proof.
  induction groups as [|[k cs] groups IH]; cbn [groupInsert flat_map snd app].
  - reflexivity.
  - destruct (String.eqb k (orgId c)); cbn [flat_map snd].
    + rewrite <- !app_assoc. apply Permutation_app_head.
      apply Permutation_app_comm.
    + rewrite <- app_assoc. now apply Permutation_app_head.
Qed.

Lemma groupByOrg_perm (cands : list Candidate) :
  Permutation (flat_map snd (groupByOrg cands)) cands.
Proof.
  unfold groupByOrg.
  assert (H : forall groups,
             Permutation (flat_map snd (fold_left groupInsert cands groups))
                         (flat_map snd groups ++ cands)).
  { induction cands as [|c cands IH]; intros groups; cbn [fold_left].
    - now rewrite app_nil_r.
    - rewrite IH, groupInsert_perm, <- app_assoc. reflexivity. }
  exact (H []).
Qed.

Lemma group_length (groups : list (string * list Candidate)) (o : string)
  (cs : list Candidate) :
  In (o, cs) groups -> (length cs <= length (flat_map snd groups))%nat.
Proof.
  induction groups as [|[k ks] groups IH]; intros Hin; [contradiction |].
  cbn [flat_map snd]. rewrite length_app. destruct Hin as [Heq | Hin].
  - injection Heq as _ <-. lia.
  - specialize (IH Hin). lia.
Qed.

End Grouping.

Section Slices.

Context {A : Type}.

(** A batch and what is left after it make up what was left before it. *)
Lemma slice_batch (l : list A) (i m : Z) :
  0 <= i -> 1 <= m -> i < Z.of_nat (length l) ->
  skipn (Z.to_nat i) l
  = slice l i (i + m) ++ skipn (Z.to_nat (i + m)) l.
Proof.
  intros Hi Hm Hlt. unfold slice.
  replace (i <? 0) with false by (symmetry; apply Z.ltb_ge; lia).
  replace (i + m <? 0) with false by (symmetry; apply Z.ltb_ge; lia).
  rewrite (Z.min_l i) by lia.
  destruct (Z.le_gt_cases (i + m) (Z.of_nat (length l))) as [Hle | Hgt].
  - rewrite Z.min_l by lia.
    replace (Z.to_nat (i + m)) with (Z.to_nat (i + m - i) + Z.to_nat i)%nat
      by lia.
    rewrite <- skipn_skipn. now rewrite firstn_skipn.
  - rewrite Z.min_r by lia.
    rewrite (skipn_all2 l (n := Z.to_nat (i + m))) by lia.
    rewrite app_nil_r. rewrite firstn_all2; [reflexivity |].
    rewrite length_skipn. lia.
Qed.

End Slices.

Lemma returns_of {A : Type} (m : M A) :
  catches m -> halts m -> forall w, exists a w', m w = (Ret a, w').
Proof.
  intros Hc Hh w. specialize (Hc w). specialize (Hh w).
  destruct (m w) as [[a|e|] w']; cbn [fst] in *.
  - eauto.
  - now elim (Hc e).
  - now elim Hh.
Qed.

Section Enrichment.

Variable env : Env.

Lemma fetchApplicationDetails_returns (a : string) (w : World) :
  exists d w', fetchApplicationDetails env a w = (Ret d, w').
Proof.
  apply returns_of.
  - unfold fetchApplicationDetails. through.
  - apply halts_fetchApplicationDetails.
Qed.

Lemma EnrichedOrSame_refl (c : Candidate) : EnrichedOrSame env c c.
Proof. now left. Qed.

Lemma EnrichedOrSame_key (c c' : Candidate) :
  EnrichedOrSame env c c' -> candidateKey c' = candidateKey c.
Proof. intros [-> | (d & ->)]; reflexivity. Qed.

Lemma enrichOne_returns (fetchAll : bool) (c : Candidate) (w : World) :
  exists c' w',
    enrichOne env fetchAll c w = (Ret c', w') /\ EnrichedOrSame env c c'.
Proof.
  unfold enrichOne.
  destruct (negb fetchAll && negb (needsScheduling c))%bool.
  - exists c, w. split; [reflexivity | apply EnrichedOrSame_refl].
  - destruct (fetchApplicationDetails_returns (applicationId c) w)
      as (d & w' & Hd).
    rewrite (bind_ret_eq _ _ w w' d Hd).
    destruct d as [d|].
    + exists (applyDetails env c d), w'. split; [reflexivity |].
      right. now exists d.
    + exists c, w'. split; [reflexivity | apply EnrichedOrSame_refl].
Qed.

Lemma promiseAll_returns (fetchAll : bool) (batch : list Candidate) :
  forall w,
    exists out w',
      promiseAll (enrichOne env fetchAll) batch w = (Ret out, w')
      /\ Forall2 (EnrichedOrSame env) batch out.
Proof.
  induction batch as [|c batch IH]; intros w; cbn [promiseAll].
  - exists [], w. split; [reflexivity | constructor].
  - destruct (enrichOne_returns fetchAll c w) as (c' & w1 & Hc & Hr).
    destruct (IH w1) as (out & w2 & Ho & Hf).
    exists (c' :: out), w2. split.
    + rewrite (bind_ret_eq _ _ w w1 c' Hc).
      now rewrite (bind_ret_eq _ _ w1 w2 out Ho).
    + now constructor.
Qed.

(** The batches of one organisation: with a positive batch size and an
    allowance of at least the number of records left, the loop ends and
    hands back one record for each record left, in order. *)
Lemma enrichBatches_returns (fetchAll : bool) (maxConcurrent : Z)
  (cs : list Candidate) :
  1 <= maxConcurrent ->
  forall (fuel : nat) (i : Z) (enriched : list Candidate) (w : World),
    0 <= i ->
    Z.of_nat (length cs) - i <= Z.of_nat fuel ->
    exists out w',
      enrichBatches env fuel fetchAll maxConcurrent cs i enriched w
      = (Ret (enriched ++ out), w')
      /\ Forall2 (EnrichedOrSame env) (skipn (Z.to_nat i) cs) out.
Proof.
  intros Hm. induction fuel as [|fuel IH]; intros i enriched w Hi Hfuel.
  - cbn [enrichBatches].
    replace (i <? Z.of_nat (length cs)) with false
      by (symmetry; apply Z.ltb_ge; lia).
    exists [], w. split.
    + cbn [negb ret]. now rewrite app_nil_r.
    + rewrite skipn_all2 by lia. constructor.
  - cbn [enrichBatches].
    destruct (i <? Z.of_nat (length cs)) eqn:Hlt; cbn [negb].
    + apply Z.ltb_lt in Hlt.
      destruct (promiseAll_returns fetchAll
                  (slice cs i (i + maxConcurrent)) w)
        as (batchOut & w1 & Hb & Hf).
      destruct (IH (i + maxConcurrent) (enriched ++ batchOut) w1)
        as (out & w2 & Ho & Hf2); [lia | lia |].
      exists (batchOut ++ out), w2. split.
      * rewrite (bind_ret_eq _ _ w w1 batchOut Hb). rewrite Ho.
        now rewrite <- app_assoc.
      * rewrite (slice_batch cs i maxConcurrent Hi Hm Hlt).
        now apply Forall2_app.
    + apply Z.ltb_ge in Hlt. exists [], w. split.
      * cbn [ret]. now rewrite app_nil_r.
      * rewrite skipn_all2 by lia. constructor.
Qed.

Lemma Forall2_same (l : list Candidate) : Forall2 (EnrichedOrSame env) l l.
Proof. induction l; constructor; auto. apply EnrichedOrSame_refl. Qed.

Lemma switch_attempt_returns (u o : string) (w : World) :
  exists b w',
    try_catch (switchOrgContext env u ;;; ret true)
              (fun error => console (ErrEnrichSwitch o) ;;; ret false) w
    = (Ret b, w').
Proof.
  apply returns_of.
  - through.
  - through. apply halts_switchOrgContext.
Qed.

(** The loop over the groups hands back one record for each record of
    the groups, in the order of the groups. *)
Lemma enrichGroups_returns (fuel : nat) (fetchAll : bool) (maxConcurrent : Z)
  (orgInfos : list OrgInfo) :
  1 <= maxConcurrent ->
  forall (groups : list (string * list Candidate))
         (current : option string) (enriched : list Candidate) (w : World),
    (forall o cs, In (o, cs) groups -> (length cs <= fuel)%nat) ->
    exists out w',
      enrichGroups env fuel fetchAll maxConcurrent orgInfos groups current
                   enriched w
      = (Ret (enriched ++ out), w')
      /\ Forall2 (EnrichedOrSame env) (flat_map snd groups) out.
Proof.
  intros Hm. induction groups as [|[o cs] groups IH];
    intros current enriched w Hlen.
  - exists [], w. cbn [enrichGroups ret]. rewrite app_nil_r.
    split; [reflexivity | constructor].
  - assert (Hlen' : forall o' cs', In (o', cs') groups ->
                                   (length cs' <= fuel)%nat).
    { intros o' cs' Hin. apply (Hlen o' cs'). now right. }
    assert (Hskip : forall current' w0,
               exists out w',
                 enrichGroups env fuel fetchAll maxConcurrent orgInfos groups
                   current' (enriched ++ cs) w0
                 = (Ret (enriched ++ cs ++ out), w')
                 /\ Forall2 (EnrichedOrSame env)
                            (flat_map snd ((o, cs) :: groups)) (cs ++ out)).
    { intros current' w0.
      destruct (IH current' (enriched ++ cs) w0 Hlen')
        as (out & w' & Ho & Hf).
      exists out, w'. split.
      - now rewrite Ho, <- app_assoc.
      - cbn [flat_map snd]. apply Forall2_app; [apply Forall2_same | exact Hf]. }
    cbn [enrichGroups].
    destruct (negb (truthy_opt (userIdOf orgInfos o))).
    + unfold console at 1.
      rewrite (bind_ret_eq _ _ _ _ tt (emit_eq _ _)).
      destruct (Hskip current (after [EvConsole (LogNoUserIdForOrg o (length cs))] w))
        as (out & w' & Ho & Hf).
      exists (cs ++ out), w'. split; [exact Ho | exact Hf].
    + match goal with
      | |- context [bind ?m _ w] =>
          assert (Hsw : exists b w1, m w = (Ret b, w1))
      end.
      { destruct (match current with
                  | Some c => negb (String.eqb c o)
                  | None => true
                  end).
        - unfold console at 1.
          rewrite (bind_ret_eq _ _ _ _ tt (emit_eq _ _)).
          apply switch_attempt_returns.
        - exists true, w. reflexivity. }
      destruct Hsw as (b & w1 & Hsw).
      rewrite (bind_ret_eq _ _ w w1 b Hsw).
      destruct b; cbn [negb].
      * destruct (enrichBatches_returns fetchAll maxConcurrent cs Hm fuel 0
                    enriched w1) as (bout & w2 & Hb & Hfb); [lia | |].
        { specialize (Hlen o cs (or_introl eq_refl)). lia. }
        rewrite (bind_ret_eq _ _ w1 w2 _ Hb).
        unfold console at 1.
        rewrite (bind_ret_eq _ _ _ _ tt (emit_eq _ _)).
        match goal with
        | |- context [enrichGroups _ _ _ _ _ _ ?cur _ ?w0] =>
            destruct (IH cur (enriched ++ bout) w0 Hlen')
              as (out & w' & Ho & Hf)
        end.
        exists (bout ++ out), w'. split.
        -- now rewrite Ho, <- app_assoc.
        -- cbn [flat_map snd]. apply Forall2_app; [exact Hfb | exact Hf].
      * destruct (Hskip current w1) as (out & w' & Ho & Hf).
        exists (cs ++ out), w'. split; [exact Ho | exact Hf].
Qed.

End Enrichment.

Section EnrichmentSteps.

Variable env : Env.

Lemma EnrichedOrSame_copies (c c' : Candidate) :
  EnrichedOrSame env c c' -> copiedFields c' = copiedFields c.
Proof. intros [-> | (d & ->)]; reflexivity. Qed.

Lemma Forall2_copies (ins out : list Candidate) :
  Forall2 (EnrichedOrSame env) ins out ->
  map copiedFields out = map copiedFields ins
  /\ map candidateKey out = map candidateKey ins.
Proof.
  induction 1 as [|c c' ins out Hc _ [IHf IHk]]; cbn [map].
  - now split.
  - rewrite IHf, IHk, (EnrichedOrSame_copies c c' Hc),
      (EnrichedOrSame_key env c c' Hc). now split.
Qed.

Lemma enrichOne_null (fetchAll : bool) (c : Candidate) (w0 w1 : World) :
  fetchApplicationDetails env (applicationId c) w0 = (Ret None, w1) ->
  exists w2, enrichOne env fetchAll c w0 = (Ret c, w2).
Proof.
  intros Hd. unfold enrichOne.
  destruct (negb fetchAll && negb (needsScheduling c))%bool.
  - now exists w0.
  - exists w1. now rewrite (bind_ret_eq _ _ w0 w1 None Hd).
Qed.

Lemma enrichGroups_no_user (fuel : nat) (fetchAll : bool) (maxConcurrent : Z)
  (orgInfos : list OrgInfo) (o : string) (cs : list Candidate)
  (groups : list (string * list Candidate)) (current : option string)
  (enriched : list Candidate) (w0 : World) :
  truthy_opt (userIdOf orgInfos o) = false ->
  enrichGroups env fuel fetchAll maxConcurrent orgInfos ((o, cs) :: groups)
               current enriched w0
  = enrichGroups env fuel fetchAll maxConcurrent orgInfos groups current
                 (enriched ++ cs)
                 (after [EvConsole (LogNoUserIdForOrg o (length cs))] w0).
Proof.
  intros Hu. cbn [enrichGroups]. rewrite Hu. cbn [negb].
  unfold console at 1.
  now rewrite (bind_ret_eq _ _ _ _ tt (emit_eq _ _)).
Qed.

Lemma enrichGroups_switch_throws (fuel : nat) (fetchAll : bool)
  (maxConcurrent : Z) (orgInfos : list OrgInfo) (o u : string)
  (cs : list Candidate) (groups : list (string * list Candidate))
  (current : option string) (enriched : list Candidate) (e : Error)
  (w0 w1 : World) :
  userIdOf orgInfos o = Some u ->
  truthy u = true ->
  current <> Some o ->
  switchOrgContext env u
    (after [EvConsole (LogSwitchingToOrg (orgLabel orgInfos o))] w0)
  = (Throw e, w1) ->
  enrichGroups env fuel fetchAll maxConcurrent orgInfos ((o, cs) :: groups)
               current enriched w0
  = enrichGroups env fuel fetchAll maxConcurrent orgInfos groups current
                 (enriched ++ cs)
                 (after [EvConsole (ErrEnrichSwitch o)] w1).
Proof.
  intros Hu Ht Hcur Hsw. cbn [enrichGroups]. rewrite Hu.
  cbn [truthy_opt opt_or_else]. unfold or_else. rewrite Ht. cbn [negb].
  assert (Hneq : match current with
                 | Some c => negb (String.eqb c o)
                 | None => true
                 end = true).
  { destruct current as [c|]; [| reflexivity].
    destruct (String.eqb_spec c o) as [-> | _]; [now elim Hcur | reflexivity]. }
  rewrite Hneq.
  erewrite (bind_ret_eq _ _ w0 _ false); [reflexivity |].
  unfold console at 1.
  rewrite (bind_ret_eq _ _ _ _ tt (emit_eq _ _)).
  erewrite try_catch_throw_eq.
  - unfold console. now rewrite (bind_ret_eq _ _ _ _ tt (emit_eq _ _)).
  - apply bind_throw_eq. exact Hsw.
Qed.

(** With a batch size of zero the batch loop does not advance. *)
Remark enrichBatches_zero_batch_size (fetchAll : bool) (c : Candidate)
  (cs : list Candidate) (fuel : nat) :
  forall (enriched : list Candidate) (w : World),
    fst (enrichBatches env fuel fetchAll 0 (c :: cs) 0 enriched w) = OutOfFuel.
Proof.
  induction fuel as [|fuel IH]; intros enriched w.
  - reflexivity.
  - cbn [enrichBatches].
    change (0 <? Z.of_nat (length (c :: cs))) with true. cbn [negb].
    change (slice (c :: cs) 0 (0 + 0)) with (@nil Candidate).
    cbn [promiseAll].
    exact (IH (enriched ++ []) w).
Qed.

End EnrichmentSteps.



(** On that input the records come out grouped by tenant: Ann's with the
    fetched details worked in, Bob's (the fetch failed), Cy's (nothing
    known) and Globex's two (no user id) as they went in. *)
Example enrichment_of_mixed_candidates :
  match fst (enrichCandidatesWithDetails (mockEnv someDetails) 5
               mixedCandidates acmeOnly 2 true (start aliceSession)) with
  | Ret out =>
      map (fun c => (id c, stageProgress c, feedbackCount c)) out
      = [("cand-ann", Some "2/2", Some 1); ("cand-bob", None, None);
         ("cand-cy", None, None); ("cand-dee", None, None);
         ("cand-eve", None, None)]%string
      /\ skipn 1 out
         = skipn 1 (flat_map snd (groupByOrg mixedCandidates))
  | _ => False
  end.
Proof. vm_compute. split; reflexivity. Qed.

(* ================================================================== *)
(** * Further properties of the client and the command *)
(* ================================================================== *)

(* ------------------------------------------------------------------ *)
(** ** Discovery: one entry per organisation *)

(** One step of a proof about the value a computation returns. *)
Ltac returning :=
  repeat match goal with
    | |- yields (bind _ _) _ =>
        eapply yields_bind; [apply yields_any | intros ? _]
    | |- yields (throw _) _ => apply yields_throw
    | |- yields (let _ := _ in _) _ => cbv zeta
    end.

Section Discovery.

Lemma hasOrg_In (orgMap : list OrgInfo) (o : string) :
  hasOrg orgMap o = true <-> In o (map org_id orgMap).
Proof.
  unfold hasOrg. rewrite existsb_exists, in_map_iff. split.
  - intros (x & Hin & Heq). apply String.eqb_eq in Heq. now exists x.
  - intros (x & Heq & Hin). exists x. split; [exact Hin |].
    now apply String.eqb_eq.
Qed.

Lemma collectOrgs_NoDup (identities : list Identity) :
  forall orgMap,
    NoDup (map org_id orgMap) ->
    NoDup (map org_id (collectOrgs orgMap identities)).
Proof.
  induction identities as [|i rest IH]; intros orgMap Hnd; cbn [collectOrgs].
  - exact Hnd.
  - destruct (hasOrg orgMap (idn_orgId i)) eqn:Hhas.
    + now apply IH.
    + apply IH. rewrite map_app. cbn [map org_id].
      apply NoDup_app; [exact Hnd | repeat constructor; intros [] |].
      intros x Hx [<- | []].
      apply hasOrg_In in Hx. congruence.
Qed.

Lemma collectOrgs_In (identities : list Identity) :
  forall orgMap o,
    In o (collectOrgs orgMap identities) <->
    In o orgMap
    \/ exists pre i post,
         identities = pre ++ i :: post /\ o = orgOf i
         /\ ~ In (idn_orgId i) (map idn_orgId pre)
         /\ ~ In (idn_orgId i) (map org_id orgMap).
Proof.
  induction identities as [|x rest IH]; intros orgMap o; cbn [collectOrgs].
  - split; [now left |]. intros [H | (pre & i & post & Heq & _)]; [exact H |].
    now destruct pre.
  - destruct (hasOrg orgMap (idn_orgId x)) eqn:Hhas; rewrite IH; clear IH.
    + apply hasOrg_In in Hhas. split.
      * intros [H | (pre & i & post & -> & -> & Hpre & Hmap)]; [now left |].
        right. exists (x :: pre), i, post. repeat split; [| exact Hmap].
        cbn [map]. intros [Heq | Hin]; [| now apply Hpre].
        apply Hmap. now rewrite <- Heq.
      * intros [H | (pre & i & post & Heq & -> & Hpre & Hmap)]; [now left |].
        destruct pre as [|y pre]; cbn [app] in Heq;
          injection Heq as <- ->.
        -- now elim Hmap.
        -- right. exists pre, i, post. repeat split; [| exact Hmap].
           intros Hin. apply Hpre. now right.
    + assert (Hnot : ~ In (idn_orgId x) (map org_id orgMap)).
      { intros Hin. apply hasOrg_In in Hin. congruence. }
      split.
      * intros [H | (pre & i & post & -> & -> & Hpre & Hmap)].
        -- apply in_app_or in H. destruct H as [H | [<- | []]]; [now left |].
           right. exists [], x, rest. repeat split; [intros [] | exact Hnot].
        -- right. exists (x :: pre), i, post.
           rewrite map_app, in_app_iff in Hmap. cbn [map org_id In] in Hmap.
           repeat split.
           ++ cbn [map]. intros [Heq | Hin]; [| now apply Hpre].
              apply Hmap. right. now left.
           ++ intros Hin. apply Hmap. now left.
      * intros [H | (pre & i & post & Heq & -> & Hpre & Hmap)].
        -- left. apply in_or_app. now left.
        -- destruct pre as [|y pre]; cbn [app] in Heq;
             injection Heq as <- ->.
           ++ left. apply in_or_app. right. now left.
           ++ right. exists pre, i, post. repeat split.
              ** intros Hin. apply Hpre. now right.
              ** rewrite map_app, in_app_iff. cbn [map org_id In orgOf].
                 intros [Hin | [Heq | []]]; [now apply Hmap |].
                 apply Hpre. now left.
Qed.

Lemma fetchAllAvailableOrgs_distinct (env : Env) :
  yields (fetchAllAvailableOrgs env) (fun orgs => NoDup (map org_id orgs)).
Proof.
  unfold fetchAllAvailableOrgs. returning.
  destruct a1 as [status body]. destruct (negb (ok status)).
  - returning. apply yields_ret. constructor.
  - destruct body as [ids|]; returning.
    apply yields_ret, collectOrgs_NoDup. constructor.
Qed.

End Discovery.

(** X1.  Discovery keeps one entry for each organisation, made from the
    first identity that names it: the ids of the entries are pairwise
    distinct, and an entry is in the list exactly when it is the entry of
    an identity before which no identity has the same organisation id.
    So whenever [fetchAllAvailableOrgs] returns, no organisation id occurs
    twice in what it returns. *)
Theorem discovery_keeps_first_identity_of_each_org (identities : list Identity) :
  NoDup (map org_id (collectOrgs [] identities))
  /\ (forall o,
         In o (collectOrgs [] identities) <->
         exists pre i post,
           identities = pre ++ i :: post /\ o = orgOf i
           /\ ~ In (idn_orgId i) (map idn_orgId pre))
  /\ (forall env w orgs w',
         fetchAllAvailableOrgs env w = (Ret orgs, w') ->
         NoDup (map org_id orgs)).
Proof.
  split; [| split].
  - apply collectOrgs_NoDup. constructor.
  - intros o. rewrite collectOrgs_In. split.
    + intros [[] | (pre & i & post & H1 & H2 & H3 & _)].
      now exists pre, i, post.
    + intros (pre & i & post & H1 & H2 & H3). right.
      exists pre, i, post. repeat split; try assumption. intros [].
  - intros env w orgs w' H.
    exact (fetchAllAvailableOrgs_distinct env w orgs w' H).
Qed.

(* ------------------------------------------------------------------ *)
(** ** Normalisation: the three lists fit together *)

Section Normalisation.

Variable env : Env.

Lemma hasCompany_In (m : list Company) (cid : string) :
  hasCompany m cid = true <-> In cid (map company_id m).
Proof.
  unfold hasCompany. rewrite existsb_exists, in_map_iff. split.
  - intros (x & Hin & Heq). apply String.eqb_eq in Heq. now exists x.
  - intros (x & Heq & Hin). exists x. split; [exact Hin |].
    now apply String.eqb_eq.
Qed.

Lemma hasJob_In (m : list Job) (jid : string) :
  hasJob m jid = true <-> In jid (map job_id m).
Proof.
  unfold hasJob. rewrite existsb_exists, in_map_iff. split.
  - intros (x & Hin & Heq). apply String.eqb_eq in Heq. now exists x.
  - intros (x & Heq & Hin). exists x. split; [exact Hin |].
    now apply String.eqb_eq.
Qed.

Lemma addCompany_ids (m : list Company) (cid cname : string) :
  NoDup (map company_id m) ->
  NoDup (map company_id (addCompany m cid cname))
  /\ In cid (map company_id (addCompany m cid cname))
  /\ (forall x, In x (map company_id m) ->
                In x (map company_id (addCompany m cid cname))).
Proof.
  intros Hnd. unfold addCompany.
  destruct (hasCompany m cid) eqn:Hhas.
  - apply hasCompany_In in Hhas. auto.
  - rewrite map_app. cbn [map company_id]. repeat split.
    + apply NoDup_app; [exact Hnd | repeat constructor; intros [] |].
      intros x Hx [<- | []]. apply hasCompany_In in Hx. congruence.
    + apply in_or_app. right. now left.
    + intros x Hx. apply in_or_app. now left.
Qed.

Lemma addJob_ids (m : list Job) (jid title cid : string) :
  NoDup (map job_id m) ->
  NoDup (map job_id (addJob m jid title cid))
  /\ In jid (map job_id (addJob m jid title cid))
  /\ (forall x, In x (map job_id m) ->
                In x (map job_id (addJob m jid title cid)))
  /\ (forall j, In j (addJob m jid title cid) ->
                In j m \/ job_companyId j = cid).
Proof.
  intros Hnd. unfold addJob.
  destruct (hasJob m jid) eqn:Hhas.
  - apply hasJob_In in Hhas. auto.
  - rewrite map_app. cbn [map job_id]. repeat split.
    + apply NoDup_app; [exact Hnd | repeat constructor; intros [] |].
      intros x Hx [<- | []]. apply hasJob_In in Hx. congruence.
    + apply in_or_app. right. now left.
    + intros x Hx. apply in_or_app. now left.
    + intros j Hj. apply in_app_or in Hj.
      destruct Hj as [Hj | [<- | []]]; [now left | now right].
Qed.

Lemma Fit_step (cs : list Company) (js : list Job)
  (cid cname jid title : string) :
  Fit cs js ->
  Fit (addCompany cs cid cname) (addJob js jid title cid)
  /\ In jid (map job_id (addJob js jid title cid))
  /\ In cid (map company_id (addCompany cs cid cname))
  /\ (forall x, In x (map company_id cs) ->
                In x (map company_id (addCompany cs cid cname)))
  /\ (forall x, In x (map job_id js) ->
                In x (map job_id (addJob js jid title cid))).
Proof.
  intros (Hc & Hj & Hfit).
  destruct (addCompany_ids cs cid cname Hc) as (Hc1 & Hc2 & Hc3).
  destruct (addJob_ids js jid title cid Hj) as (Hj1 & Hj2 & Hj3 & Hj4).
  repeat split; try assumption.
  intros j Hin. destruct (Hj4 j Hin) as [Hold | ->]; [| exact Hc2].
  apply Hc3, Hfit, Hold.
Qed.

Lemma jobs_fold (jobsPipelines : list JobPipeline) :
  forall cs js,
    Fit cs js ->
    let st :=
      fold_left
        (fun (st : list Company * list Job) jobPipeline =>
           (addCompany (fst st) (companyIdOf "Default Company")
                       "Default Company",
            addJob (snd st) (jp_jobId jobPipeline) (jp_jobTitle jobPipeline)
                   (companyIdOf "Default Company")))
        jobsPipelines (cs, js) in
    Fit (fst st) (snd st)
    /\ (forall x, In x (map job_id js) -> In x (map job_id (snd st)))
    /\ (forall jp, In jp jobsPipelines ->
                   In (jp_jobId jp) (map job_id (snd st))).
Proof.
  induction jobsPipelines as [|jp rest IH]; intros cs js Hfit;
    cbn [fold_left fst snd].
  - repeat split; [apply Hfit.. | auto | intros jp []].
  - destruct (Fit_step cs js (companyIdOf "Default Company")
                "Default Company" (jp_jobId jp) (jp_jobTitle jp) Hfit)
      as (Hfit' & Hjid & _ & _ & Hjs).
    destruct (IH _ _ Hfit') as (Hf & Hkeep & Hall).
    split; [exact Hf |]. split.
    + intros x Hx. apply Hkeep, Hjs, Hx.
    + intros jp' [<- | Hin]; [apply Hkeep, Hjid | apply Hall, Hin].
Qed.

Lemma apps_fold (now : Z) (theOrgId : string) (theOrgName : option string)
  (applications : list ApplicationResult) :
  forall cs js cands,
    Fit cs js ->
    (forall c, In c cands ->
               In (jobId c) (map job_id js)
               /\ In (companyId c) (map company_id cs)) ->
    let st :=
      fold_left
        (fun (st : list Company * list Job * list Candidate) app =>
           (addCompany (fst (fst st)) (companyIdOf (companyNameOf app))
                       (companyNameOf app),
            addJob (snd (fst st)) (app_jobId app) (app_jobTitle app)
                   (companyIdOf (companyNameOf app)),
            snd st ++ [candidateOf env now theOrgId theOrgName app]))
        applications ((cs, js), cands) in
    Fit (fst (fst st)) (snd (fst st))
    /\ snd st = cands ++ map (candidateOf env now theOrgId theOrgName)
                             applications
    /\ (forall x, In x (map job_id js) -> In x (map job_id (snd (fst st))))
    /\ (forall c, In c (snd st) ->
                  In (jobId c) (map job_id (snd (fst st)))
                  /\ In (companyId c) (map company_id (fst (fst st)))).
Proof.
  induction applications as [|app rest IH]; intros cs js cands Hfit Hc;
    cbn [fold_left fst snd map].
  - rewrite app_nil_r. repeat split; [apply Hfit.. | auto | apply Hc | apply Hc];
      assumption.
  - destruct (Fit_step cs js (companyIdOf (companyNameOf app))
                (companyNameOf app) (app_jobId app) (app_jobTitle app) Hfit)
      as (Hfit' & Hjid & Hcid & Hcs & Hjs).
    destruct (IH _ _ (cands ++ [candidateOf env now theOrgId theOrgName app])
                Hfit') as (Hf & Heq & Hkeep & Hall).
    { intros c Hin. apply in_app_or in Hin.
      destruct Hin as [Hin | [<- | []]].
      - destruct (Hc c Hin). split; auto.
      - split; [exact Hjid | exact Hcid]. }
    split; [exact Hf |]. split; [| split].
    + rewrite Heq, <- app_assoc. reflexivity.
    + intros x Hx. apply Hkeep, Hjs, Hx.
    + exact Hall.
Qed.

End Normalisation.

(** X2.  What normalisation hands back fits together.  There is one
    candidate for each application, in the order of the applications.  No
    company id and no job id occurs twice.  Every job of the listing is
    among the jobs.  Every candidate names a job and a company that are in
    the lists, and so does every job for its company. *)
Theorem normalized_data_is_consistent (env : Env) (now : Z)
  (jobsPipelines : list JobPipeline) (applications : list ApplicationResult)
  (theOrgId : string) (theOrgName : option string) :
  let r := normalizePipelineData env now jobsPipelines applications theOrgId
                                 theOrgName in
  candidates r = map (candidateOf env now theOrgId theOrgName) applications
  /\ NoDup (map company_id (companies r))
  /\ NoDup (map job_id (jobs r))
  /\ (forall jp, In jp jobsPipelines ->
                 In (jp_jobId jp) (map job_id (jobs r)))
  /\ (forall c, In c (candidates r) ->
                In (jobId c) (map job_id (jobs r))
                /\ In (companyId c) (map company_id (companies r)))
  /\ (forall j, In j (jobs r) ->
                In (job_companyId j) (map company_id (companies r))).
Proof.
  cbv zeta. unfold normalizePipelineData. cbv zeta.
  assert (Hempty : Fit [] []).
  { repeat split; [constructor | constructor | intros j []]. }
  pose proof (jobs_fold jobsPipelines [] [] Hempty) as Hjobs.
  cbv zeta in Hjobs.
  destruct (fold_left _ jobsPipelines ([], [])) as [cs js] eqn:Hfj.
  cbn [fst snd] in Hjobs. destruct Hjobs as (Hfit & _ & Hlisted).
  pose proof (apps_fold env now theOrgId theOrgName applications cs js []
                Hfit) as Happs.
  cbv zeta in Happs.
  destruct (fold_left _ applications (cs, js, [])) as [[cs' js'] cands]
    eqn:Hfa.
  cbn [fst snd companies jobs candidates] in *.
  destruct Happs as (Hfit' & Heq & Hkeep & Hall); [intros c [] |].
  destruct Hfit' as (Hc & Hj & Hjc).
  repeat split; try assumption.
  - intros jp Hin. apply Hkeep, Hlisted, Hin.
  - now apply Hall.
  - now apply Hall.
Qed.

(* ------------------------------------------------------------------ *)
(** ** Grouping by organisation *)

Section GroupingByOrg.

Lemma groupInsert_keys (groups : list (string * list Candidate))
  (c : Candidate) :
  map fst (groupInsert groups c)
  = if existsb (String.eqb (orgId c)) (map fst groups) then map fst groups
    else map fst groups ++ [orgId c].
Proof.
  induction groups as [|[k cs] rest IH]; cbn [groupInsert map fst existsb].
  - reflexivity.
  - rewrite (String.eqb_sym (orgId c) k).
    destruct (String.eqb k (orgId c)); cbn [map fst orb].
    + reflexivity.
    + rewrite IH. now destruct (existsb _ _).
Qed.

Lemma filter_none {A : Type} (p : A -> bool) (l : list A) :
  (forall x, In x l -> p x = false) -> filter p l = [].
Proof.
  induction l as [|x l IH]; intros H; cbn [filter]; [reflexivity |].
  rewrite (H x (or_introl eq_refl)). apply IH. intros y Hy. apply H. now right.
Qed.

Lemma existsb_eqb_In (k : string) (l : list string) :
  existsb (String.eqb k) l = true <-> In k l.
Proof.
  rewrite existsb_exists. split.
  - intros (x & Hin & Heq). apply String.eqb_eq in Heq. now subst.
  - intros Hin. exists k. split; [exact Hin | apply String.eqb_refl].
Qed.

Lemma groupInsert_In (groups : list (string * list Candidate))
  (c : Candidate) (k : string) (cs' : list Candidate) :
  NoDup (map fst groups) ->
  In (k, cs') (groupInsert groups c) ->
  (k <> orgId c /\ In (k, cs') groups)
  \/ (k = orgId c
      /\ ((exists cs, In (k, cs) groups /\ cs' = cs ++ [c])
          \/ (~ In k (map fst groups) /\ cs' = [c]))).
Proof.
  induction groups as [|[k0 cs0] rest IH]; cbn [groupInsert map fst];
    intros Hnd Hin.
  - destruct Hin as [Heq | []]. injection Heq as <- <-.
    right. split; [reflexivity |]. right. split; [intros [] | reflexivity].
  - inversion Hnd as [|? ? Hnotin Hnd']; subst.
    destruct (String.eqb_spec k0 (orgId c)) as [-> | Hne].
    + destruct Hin as [Heq | Hin].
      * injection Heq as <- <-. right. split; [reflexivity |].
        left. exists cs0. split; [now left | reflexivity].
      * left. split; [| now right].
        intros ->. apply Hnotin. apply in_map_iff.
        now exists (orgId c, cs').
    + destruct Hin as [Heq | Hin].
      * injection Heq as <- <-. left. split; [exact Hne | now left].
      * destruct (IH Hnd' Hin) as [(Hk & Hold) | (-> & Hcase)].
        -- left. split; [exact Hk | now right].
        -- right. split; [reflexivity |].
           destruct Hcase as [(cs & Hcs & ->) | (Hnew & ->)].
           ++ left. exists cs. split; [now right | reflexivity].
           ++ right. split; [| reflexivity].
              intros [Heq | Hin']; [now apply Hne | now apply Hnew].
Qed.

Lemma Grouped_step (seen : list Candidate)
  (groups : list (string * list Candidate)) (c : Candidate) :
  Grouped seen groups -> Grouped (seen ++ [c]) (groupInsert groups c).
Proof.
  intros (Hnd & Hgroups & Hseen). split; [| split].
  - rewrite groupInsert_keys.
    destruct (existsb _ _) eqn:Hex; [exact Hnd |].
    apply NoDup_app; [exact Hnd | repeat constructor; intros [] |].
    intros x Hx [<- | []].
    apply existsb_eqb_In in Hx. congruence.
  - intros k cs' Hin. rewrite filter_app. cbn [filter].
    destruct (groupInsert_In groups c k cs' Hnd Hin)
      as [(Hk & Hold) | (-> & Hcase)].
    + destruct (Hgroups k cs' Hold) as (Hne & Heq).
      replace (String.eqb (orgId c) k) with false
        by (symmetry; apply String.eqb_neq; congruence).
      rewrite app_nil_r. now split.
    + rewrite String.eqb_refl.
      destruct Hcase as [(cs & Hcs & ->) | (Hnew & ->)].
      * destruct (Hgroups _ cs Hcs) as (_ & Heq).
        split; [now destruct cs | now rewrite <- Heq].
      * split; [discriminate |].
        replace (filter (fun c0 => String.eqb (orgId c0) (orgId c)) seen)
          with (@nil Candidate); [reflexivity |].
        symmetry. apply filter_none. intros x Hx.
        apply String.eqb_neq. intros Heq.
        apply Hnew. rewrite <- Heq. now apply Hseen.
  - intros x Hx. rewrite groupInsert_keys. apply in_app_or in Hx.
    destruct (existsb _ _) eqn:Hex.
    + destruct Hx as [Hx | [<- | []]]; [now apply Hseen |].
      now apply existsb_eqb_In.
    + apply in_or_app.
      destruct Hx as [Hx | [<- | []]]; [left; now apply Hseen |].
      right. now left.
Qed.

Lemma Grouped_fold (cands : list Candidate) :
  forall seen groups,
    Grouped seen groups ->
    Grouped (seen ++ cands) (fold_left groupInsert cands groups).
Proof.
  induction cands as [|c rest IH]; intros seen groups H; cbn [fold_left].
  - now rewrite app_nil_r.
  - replace (seen ++ c :: rest) with ((seen ++ [c]) ++ rest)
      by (now rewrite <- app_assoc).
    apply IH, Grouped_step, H.
Qed.

End GroupingByOrg.

(** X3.  The grouping that enrichment works through splits the input by
    organisation: no organisation id is the key of two groups, every
    organisation of an input record has its group, no group is empty,
    and a group holds exactly the input records of its organisation, in
    input order. *)
Theorem groups_split_input_by_org (cands : list Candidate) :
  NoDup (map fst (groupByOrg cands))
  /\ (forall c, In c cands -> In (orgId c) (map fst (groupByOrg cands)))
  /\ (forall k cs,
         In (k, cs) (groupByOrg cands) ->
         cs <> []
         /\ cs = filter (fun c => String.eqb (orgId c) k) cands).
Proof.
  assert (H : Grouped cands (groupByOrg cands)).
  { apply (Grouped_fold cands [] []). repeat split.
    - constructor.
    - destruct H.
    - destruct H.
    - intros c []. }
  destruct H as (Hnd & Hgroups & Hseen). auto.
Qed.

(* ------------------------------------------------------------------ *)
(** ** The token fetch is bounded *)

Section TokenFetchBound.

Lemma CsrfRun_bounded (h : Headers) (retries : Z) (c : bool) (a : Z)
  (evs : list Event) (r : Result string) :
  CsrfRun h retries c a evs r ->
  0 <= a ->
  Z.of_nat (tokenRequests evs) <= Z.max 1 (retries - a + 1)
  /\ 0 <= sleepTotal evs
  /\ sleepTotal evs <= Z.max 0 (250 * (retries * (retries + 1) - a * (a + 1)))
  /\ forallb isTokenStep evs = true.
Proof.
  induction 1 as [a|a|a st t Hok|a st Hok|a b|a st b Hok Hne
                 |a st b evs r Hok Hne Hlt Hrun IH];
    intros Ha;
    try (cbn [tokenRequests filter isTokenRequest length sleepTotal fold_right
              forallb isTokenStep andb];
         repeat split; lia).
  destruct IH as (Hn & Hs0 & Hs & Hall); [lia |].
  unfold tokenRequests in *.
  cbn [filter isTokenRequest length sleepTotal fold_right forallb isTokenStep
       andb].
  fold (sleepTotal evs). repeat split.
  - rewrite Nat2Z.inj_succ. lia.
  - lia.
  - assert (0 <= retries * (retries + 1) - (a + 1) * (a + 1 + 1)) by nia.
    rewrite Z.max_r in Hs by lia.
    rewrite Z.max_r by nia. nia.
  - exact Hall.
Qed.

End TokenFetchBound.

(** X4.  One call of the token fetch with [retries] retries leaves the
    session as it was and does nothing but request tokens and sleep: at
    most [retries + 1] requests, and at most [250 * retries * (retries +
    1)] milliseconds of sleep in all (three requests and a second and a
    half for the default of two retries).  Without an authentication
    cookie in the session it sends nothing at all. *)
Theorem token_fetch_is_bounded (env : Env) (retries : Z) (w : World) :
  0 <= retries ->
  exists evs,
    snd (fetchCsrfToken env retries w) = after evs w
    /\ (tokenRequests evs <= Z.to_nat retries + 1)%nat
    /\ sleepTotal evs <= 250 * retries * (retries + 1)
    /\ forallb isTokenStep evs = true
    /\ (hasAuthCookie (session w) = false ->
        evs = []
        /\ fst (fetchCsrfToken env retries w) = Throw MissingAuthCookies).
Proof.
  intros Hr.
  destruct (fetchCsrfToken env retries w) as [r w'] eqn:E.
  destruct (fetchCsrfToken_run env retries w w' r E)
    as [(Hc & -> & ->) | (Hc & evs & -> & Hrun)]; cbn [fst snd].
  - exists []. unfold after. rewrite app_nil_r. destruct w as [s t].
    cbn [session trace tokenRequests filter length sleepTotal fold_right
         forallb].
    repeat split; try lia; nia.
  - exists evs.
    destruct (CsrfRun_bounded _ _ _ _ _ _ Hrun (Z.le_refl 0))
      as (Hn & _ & Hs & Hall).
    split; [reflexivity |]. split; [lia |]. split; [| split].
    + rewrite Z.max_r in Hs by nia. lia.
    + exact Hall.
    + intros Hno. congruence.
Qed.

Lemma token_fetch_is_bounded_witness :
  0 <= defaultRetries
  /\ exists evs,
       snd (fetchCsrfToken expiringEnv defaultRetries (start aliceSession))
       = after evs (start aliceSession)
       /\ (tokenRequests evs <= 3)%nat
       /\ sleepTotal evs <= 1500.
Proof.
  assert (H : 0 <= defaultRetries) by (unfold defaultRetries; lia).
  split; [exact H |].
  destruct (token_fetch_is_bounded expiringEnv defaultRetries
              (start aliceSession) H) as (evs & He & Hn & Hs & _).
  exists evs. split; [exact He |]. split; [exact Hn | exact Hs].
Defined.

(* ------------------------------------------------------------------ *)
(** ** What a GraphQL call sends and returns *)

Section GraphQLCall.

Variable env : Env.

Lemma filter_quiet (evs : list Event) :
  existsb isGraphQL evs = false -> filter isGraphQL evs = [].
Proof.
  intros H. apply filter_none. intros x Hx.
  destruct (isGraphQL x) eqn:E; [| reflexivity].
  assert (existsb isGraphQL evs = true)
    by (apply existsb_exists; now exists x).
  congruence.
Qed.

(** What holds after a call that started when the trace was [l]. *)
Lemma graphqlQuery_outcome (l : list Event) (op : OpName) (vars : Vars)
  (force : bool) :
  hoare (QuietSince l) (graphqlQuery env op vars force)
    (fun r w' =>
       exists evs,
         trace w' = l ++ evs
         /\ (length (filter isGraphQL evs) <= 1)%nat
         /\ forall d, r = Ret d ->
              exists pre h st,
                evs = pre ++ [EvGraphQL op vars h
                                (Response st (GqlJson d None))]
                /\ ok st = true).
Proof.
  assert (Hquiet : forall (e : Error) (w : World),
             QuietSince l w ->
             exists evs,
               trace w = l ++ evs
               /\ (length (filter isGraphQL evs) <= 1)%nat
               /\ forall d : GqlData, Throw e = Ret d ->
                    exists pre h st,
                      evs = pre ++ [EvGraphQL op vars h
                                      (Response st (GqlJson d None))]
                      /\ ok st = true).
  { intros e w (evs & Ht & Hq). exists evs. split; [exact Ht |].
    rewrite (filter_quiet evs Hq). split; [cbn; lia | discriminate]. }
  unfold graphqlQuery.
  apply quiet_then; [apply quietly_get_session | intros s |].
  2:{ intros e w Hw. apply (Hquiet e w Hw). }
  apply quiet_then; [quiet | intros csrf |].
  2:{ intros e w Hw. apply (Hquiet e w Hw). }
  apply quiet_then; [apply quietly_get_session | intros s' |].
  2:{ intros e w Hw. apply (Hquiet e w Hw). }
  intros w (evs & Ht & Hq). unfold bind, fetch_graphql, respond.
  set (h := queryHeaders csrf s').
  destruct (remote_graphql env (trace w) op vars h) as [|st body] eqn:Hout;
    cbn [fst snd trace].
  - exists (evs ++ [EvGraphQL op vars h NetworkError]). split; [| split].
    + now rewrite Ht, app_assoc.
    + rewrite filter_app, (filter_quiet evs Hq). cbn. lia.
    + discriminate.
  - assert (Hcount : (length (filter isGraphQL
                        (evs ++ [EvGraphQL op vars h (Response st body)]))
                      <= 1)%nat).
    { rewrite filter_app, (filter_quiet evs Hq). cbn. lia. }
    destruct (ok st) eqn:Hok; cbn [negb fst snd trace].
    + exists (evs ++ [EvGraphQL op vars h (Response st body)]).
      split; [| split; [exact Hcount |]].
      * destruct body as [|d [m|]]; cbn [snd trace];
          now rewrite Ht, app_assoc.
      * destruct body as [|d [m|]]; cbn [fst]; try discriminate.
        intros d' Heq. injection Heq as <-. now exists evs, h, st.
    + exists (evs ++ [EvGraphQL op vars h (Response st body)]).
      split; [now rewrite Ht, app_assoc | split; [exact Hcount |]].
      discriminate.
Qed.

End GraphQLCall.

(** X5.  One GraphQL call sends at most one GraphQL request, whatever
    happens.  When the call returns data, the request was the last thing
    it did, it was the request for the operation and the variables of the
    call, and it was answered with an ok status and a body that carries
    that data and no errors: data that comes with errors, or with a
    status that is not ok, is never returned. *)
Theorem graphql_call_returns_clean_data_only (env : Env) (op : OpName)
  (vars : Vars) (force : bool) (w : World) :
  exists evs,
    trace (snd (graphqlQuery env op vars force w)) = trace w ++ evs
    /\ (length (filter isGraphQL evs) <= 1)%nat
    /\ forall d,
         fst (graphqlQuery env op vars force w) = Ret d ->
         exists pre h st,
           evs = pre ++ [EvGraphQL op vars h (Response st (GqlJson d None))]
           /\ ok st = true.
Proof.
  apply (graphqlQuery_outcome env (trace w) op vars force w).
  exists []. now rewrite app_nil_r.
Qed.

(* ------------------------------------------------------------------ *)
(** ** The cookie jar only grows *)

Section CookieJar.

Lemma cookie_get_set (cs : Cookies) (n v m : string) :
  cookie_get (cookie_set cs n v) m
  = if String.eqb n m then Some v else cookie_get cs m.
Proof.
  induction cs as [|[k x] r IH]; cbn [cookie_set cookie_get].
  - reflexivity.
  - destruct (String.eqb_spec k n) as [-> | Hkn]; cbn [cookie_get].
    + now destruct (String.eqb n m).
    + destruct (String.eqb_spec k m) as [-> | Hkm].
      * destruct (String.eqb_spec n m); [congruence | reflexivity].
      * exact IH.
Qed.

Lemma cookie_set_keeps (cs : Cookies) (n v m : string) :
  cookie_get cs m <> None -> cookie_get (cookie_set cs n v) m <> None.
Proof.
  intros H. rewrite cookie_get_set. now destruct (String.eqb n m).
Qed.

Lemma updateCookies_keeps (hdr : string) (cs : Cookies) (n : string) :
  cookie_get cs n <> None -> cookie_get (updateCookies hdr cs) n <> None.
Proof.
  unfold updateCookies. generalize (map trim (split "," hdr)). intros parts.
  revert cs. induction parts as [|p parts IH]; intros cs H; cbn [fold_left].
  - exact H.
  - apply IH.
    destruct (split "=" (hd EmptyString (split ";" p))) as [|a [|b rest]];
      try exact H.
    destruct (truthy a && truthy b)%bool; [| exact H].
    now apply cookie_set_keeps.
Qed.

End CookieJar.

(** Invariants of the session that hold whatever is added to the trace,
    whatever token is stored, and whatever [set-cookie] header is worked
    into the cookies. *)
Section SessionInvariant.

Variable env : Env.
Variable J : World -> Prop.

Hypothesis J_event :
  forall w e, J w -> J (mkWorld (session w) (trace w ++ [e])).
Hypothesis J_token :
  forall w t, J w ->
    J (mkWorld (mkSession (cookies (session w)) t (orgIds (session w)))
               (trace w)).
Hypothesis J_cookies :
  forall w hdr, J w ->
    J (mkWorld (mkSession (updateCookies hdr (cookies (session w)))
                          (csrfToken (session w)) (orgIds (session w)))
               (trace w)).

Lemma session_emit (e : Event) : preserves J (emit e).
Proof. intros w Hw. now apply J_event. Qed.

Lemma session_set_csrfToken (t : option string) :
  preserves J (set_csrfToken t).
Proof. intros w Hw. now apply J_token. Qed.

Lemma session_respond {B : Type} (ev : Http B -> Event) (r : Http B) :
  preserves J (respond ev r).
Proof.
  intros w Hw. unfold respond. destruct r; cbn [snd]; now apply J_event.
Qed.

Ltac sessionwise :=
  repeat first
    [ progress through
    | match goal with
      | |- preserves _ (emit _) => apply session_emit
      | |- preserves _ (console _) => apply session_emit
      | |- preserves _ (sleep _) => apply session_emit
      | |- preserves _ (set_csrfToken _) => apply session_set_csrfToken
      | |- preserves _ (fetch_csrf _ _) =>
          intros ? ?; unfold fetch_csrf; now apply session_respond
      | |- preserves _ (fetch_change_user _ _ _) =>
          intros ? ?; unfold fetch_change_user; now apply session_respond
      | |- preserves _ (fetch_identities _ _) =>
          intros ? ?; unfold fetch_identities; now apply session_respond
      | |- preserves _ (fetch_graphql _ _ _ _) =>
          intros ? ?; unfold fetch_graphql; now apply session_respond
      end
    | solve [auto with keeps] ].

Lemma session_csrfAttempts (h : Headers) (retries : Z) (k : nat) :
  forall a, preserves J (csrfAttempts env h k a retries).
Proof.
  induction k as [|k IH]; intros a; cbn [csrfAttempts]; sessionwise.
Qed.

#[local] Hint Resolve session_csrfAttempts : keeps.

Lemma session_fetchCsrfToken (retries : Z) :
  preserves J (fetchCsrfToken env retries).
Proof. unfold fetchCsrfToken. sessionwise. Qed.

#[local] Hint Resolve session_fetchCsrfToken : keeps.

Lemma session_graphqlQuery (op : OpName) (vars : Vars) (force : bool) :
  preserves J (graphqlQuery env op vars force).
Proof. unfold graphqlQuery. sessionwise. Qed.

#[local] Hint Resolve session_graphqlQuery : keeps.

Lemma session_verifySwitch : preserves J (verifySwitch env).
Proof. unfold verifySwitch, user_of. sessionwise. Qed.

#[local] Hint Resolve session_verifySwitch : keeps.

Lemma session_switchOrgContext (u : string) :
  preserves J (switchOrgContext env u).
Proof.
  unfold switchOrgContext.
  apply preserves_bind; [sessionwise | intros csrf].
  apply preserves_bind; [sessionwise | intros s].
  apply preserves_bind; [sessionwise | intros [status hdr]].
  destruct (negb (ok status)); [sessionwise |].
  apply preserves_bind; [sessionwise | intros _].
  apply preserves_bind; [| intros _; sessionwise].
  destruct hdr as [hdr|]; [| sessionwise].
  destruct (truthy hdr); [| sessionwise].
  intros w Hw. cbn. now apply J_cookies.
Qed.

Lemma session_fetchAllAvailableOrgs :
  preserves J (fetchAllAvailableOrgs env).
Proof. unfold fetchAllAvailableOrgs. sessionwise. Qed.

Lemma session_read_query_file : preserves J (read_query_file env).
Proof.
  intros w Hw. unfold read_query_file.
  destruct (query_file env (trace w)); cbn [snd]; now apply J_event.
Qed.

(** Such an invariant holds all through the command. *)
Lemma session_extractWithSession (fuel : nat) (options : ExtractOptions) :
  preserves J (extractWithSession env fuel options).
Proof.
  apply keeps_extractWithSession.
  - intros m. apply session_emit.
  - intros ms. apply session_emit.
  - apply session_read_query_file.
  - apply session_graphqlQuery.
  - apply session_switchOrgContext.
  - apply session_fetchAllAvailableOrgs.
Qed.

End SessionInvariant.

(** X6.  No cookie is ever dropped from the session.  Working a
    [set-cookie] header into the cookies may add cookies and overwrite
    values, and leaves every name that was there in place; and at the end
    of a run of the command, whatever the remote answered, the session
    still has a cookie under every name it had at the start. *)
Theorem cookies_are_never_dropped :
  (forall hdr cs n,
      cookie_get cs n <> None -> cookie_get (updateCookies hdr cs) n <> None)
  /\ (forall env u w, KeepsCookies (session w) (snd (switchOrgContext env u w)))
  /\ (forall env fuel options w,
         KeepsCookies (session w)
                      (snd (extractWithSession env fuel options w))).
Proof.
  assert (H : forall (s0 : AshbySession),
             (forall (A : Type) (m : M A),
                 (forall J,
                     (forall w e, J w ->
                        J (mkWorld (session w) (trace w ++ [e]))) ->
                     (forall w t, J w ->
                        J (mkWorld (mkSession (cookies (session w)) t
                                              (orgIds (session w)))
                                   (trace w))) ->
                     (forall w hdr, J w ->
                        J (mkWorld
                             (mkSession
                                (updateCookies hdr (cookies (session w)))
                                (csrfToken (session w)) (orgIds (session w)))
                             (trace w))) ->
                     preserves J m) ->
                 preserves (KeepsCookies s0) m)).
  { intros s0 A m Hm. apply Hm.
    - intros w e Hw. exact Hw.
    - intros w t Hw. exact Hw.
    - intros w hdr Hw n Hn. cbn [session cookies].
      apply updateCookies_keeps, Hw, Hn. }
  split; [exact updateCookies_keeps | split].
  - intros env u w.
    apply (H (session w) unit (switchOrgContext env u)).
    + intros J H1 H2 H3. now apply session_switchOrgContext.
    + intros n Hn. exact Hn.
  - intros env fuel options w.
    apply (H (session w) Outcome (extractWithSession env fuel options)).
    + intros J H1 H2 H3. now apply session_extractWithSession.
    + intros n Hn. exact Hn.
Qed.

(* ------------------------------------------------------------------ *)
(** ** The records of one organisation *)

(** Splits [bind m k w = (Ret b, w')] into the two runs it is made of. *)
Ltac bind_ret H a w1 Hm Hk :=
  apply bind_inv in H;
  destruct H as [(a & w1 & Hm & Hk) | [(? & ? & ?) | (? & ?)]];
  [| discriminate | discriminate].

Section OrgRecords.

Variable env : Env.

Lemma normalizePipelineData_candidates (now : Z)
  (jobsPipelines : list JobPipeline) (applications : list ApplicationResult)
  (o : string) (n : option string) :
  candidates (normalizePipelineData env now jobsPipelines applications o n)
  = map (candidateOf env now o n) applications.
Proof.
  unfold normalizePipelineData. cbv zeta. cbn [candidates].
  generalize (fold_left
                (fun (st : list Company * list Job) jobPipeline =>
                   (addCompany (fst st) (companyIdOf "Default Company")
                               "Default Company",
                    addJob (snd st) (jp_jobId jobPipeline)
                           (jp_jobTitle jobPipeline)
                           (companyIdOf "Default Company")))
                jobsPipelines ([], [])).
  intros st0.
  assert (H : forall apps (st : list Company * list Job) cands,
             snd (fold_left
                    (fun (st : list Company * list Job * list Candidate) app =>
                       (addCompany (fst (fst st))
                                   (companyIdOf (companyNameOf app))
                                   (companyNameOf app),
                        addJob (snd (fst st)) (app_jobId app)
                               (app_jobTitle app)
                               (companyIdOf (companyNameOf app)),
                        snd st ++ [candidateOf env now o n app]))
                    apps (st, cands))
             = cands ++ map (candidateOf env now o n) apps).
  { induction apps as [|app apps IH]; intros st cands; cbn [fold_left map].
    - now rewrite app_nil_r.
    - cbn [fst snd]. rewrite IH, <- app_assoc. reflexivity. }
  exact (H applications st0 []).
Qed.

(** The name that the last step of [pipelineQueries] works out is the
    one that the remote reported for the organisation asked for. *)
Lemma orgName_reported (o : string) (w w' : World) (n : option string) :
  try_catch
    (userResponse <- graphqlQuery env ApiGetSessionUser VNone false ;;
     user <- user_of userResponse ;;
     if String.eqb (organizationId user) o
     then ret (Some (organizationName user))
     else ret None)
    (fun error => console (WarnOrgName o) ;;; ret None) w = (Ret n, w') ->
  forall name, n = Some name ->
    exists e, In e (trace w') /\ reportsOrg o name e.
Proof.
  intros H name ->. apply try_catch_inv in H.
  destruct H as [(a & Hr & Heq) | [(e & w1 & Hr & Hh) | (_ & Heq)]];
    [| | discriminate].
  - injection Heq as <-.
    bind_ret Hr d w1 Hq Hk.
    bind_ret Hk user w2 Hu Hk'.
    destruct d as [u|?|?|?|]; try discriminate.
    injection Hu as <- <-.
    destruct (String.eqb_spec (organizationId u) o) as [<- | _];
      [| discriminate].
    injection Hk' as Hname <-.
    pose proof (graphqlQuery_outcome env (trace w) ApiGetSessionUser VNone
                  false w) as Hout.
    rewrite Hq in Hout. cbn [fst snd] in Hout.
    destruct Hout as (evs & Ht & _ & Hd).
    { exists []. now rewrite app_nil_r. }
    destruct (Hd _ eq_refl) as (pre & h & st & -> & Hok).
    eexists. split.
    + rewrite Ht. apply in_or_app. right. apply in_or_app. right. now left.
    + exists VNone, h, st. split; [| exact Hok].
      rewrite <- Hname. now destruct u.
  - bind_ret Hh x w2 Hc Hk. discriminate.
Qed.

End OrgRecords.

(** X7.  Whatever [fetchPipelineForOrg] returns for an organisation, all
    its candidates carry the id of that organisation and one and the
    same organisation name; and a name is attached only when, in that
    run, the remote answered a session-user query with that very
    organisation id and that name. *)
Theorem pipeline_records_carry_the_org (env : Env) (fuel : nat) (o : string)
  (userId : option string) (w w' : World) (r : PipelineFetchResult) :
  fetchPipelineForOrg env fuel o userId w = (Ret r, w') ->
  exists n,
    Forall (fun c => orgId c = o /\ orgName c = n) (candidates r)
    /\ forall name, n = Some name ->
         exists e, In e (trace w') /\ reportsOrg o name e.
Proof.
  intros H. unfold fetchPipelineForOrg in H.
  bind_ret H sw w1 Hs Hk.
  destruct sw as [switchedOrg|].
  - unfold pipelineQueries in Hk.
    bind_ret Hk x1 w2 H1 Hk.
    bind_ret Hk js w3 H2 Hk.
    bind_ret Hk apps w4 H3 Hk.
    bind_ret Hk n w5 H4 Hk.
    injection Hk as <- <-. exists n. split.
    + rewrite normalizePipelineData_candidates.
      apply Forall_forall. intros c Hc. apply in_map_iff in Hc.
      destruct Hc as (app & <- & _). now split.
    + exact (orgName_reported env o w4 w5 n H4).
  - injection Hk as <- <-. exists None. split; [constructor | discriminate].
Qed.

Lemma pipeline_records_witness :
  exists n,
    Forall (fun c => orgId c = "org-a"%string /\ orgName c = n)
           (candidates
              (normalizePipelineData (mockEnv twoTenants) 864000000
                 [mkJobPipeline "job-1" "Engineer"] acmeApplications "org-a"
                 (Some "Acme"%string)))
    /\ n = Some "Acme"%string.
Proof.
  destruct (pipeline_records_carry_the_org (mockEnv twoTenants) 5 "org-a"
              (Some "user-a"%string) (start aliceSession)
              (snd (fetchPipelineForOrg (mockEnv twoTenants) 5 "org-a"
                      (Some "user-a"%string) (start aliceSession)))
              (normalizePipelineData (mockEnv twoTenants) 864000000
                 [mkJobPipeline "job-1" "Engineer"] acmeApplications "org-a"
                 (Some "Acme"%string)))
    as (n & Hall & Hname).
  - vm_compute. reflexivity.
  - exists n. split; [exact Hall |].
    inversion Hall as [|c l [_ Hn] _]. now rewrite <- Hn.
Defined.

(* ------------------------------------------------------------------ *)
(** ** A page request that fails *)

Section FailingPage.

(** Against the scripted remote, once the pages are used up the next
    request fails, and the loop ends with that failure and with the
    records of the pages it has read. *)
Lemma fetchPages_failure (t : string) :
  truthy t = true ->
  forall (pages done : list ApplicationsPage) (v : PageVars) (w : World)
         (fuel : nat),
    Forall (fun p => moreDataAvailable p = true) pages ->
    hasMore v = true ->
    csrfToken (session w) = Some t ->
    queryCount ApiGetActiveApplications (trace w) = length done ->
    (length pages < fuel)%nat ->
    exists evs v',
      fetchPages (pagesEnv (done ++ pages)) fuel v w
      = (Throw (GraphQLRequestFailed 500), v', after evs w)
      /\ allApplications v' = allApplications v ++ flat_map results pages
      /\ queryCount ApiGetActiveApplications evs = S (length pages).
Proof.
  intros Htr. induction pages as [|p ps IH];
    intros done v w fuel Hall Hm Ht Hc Hfuel;
    (destruct fuel as [|fuel]; [cbn in Hfuel; lia |]).
  - exists [EvGraphQL ApiGetActiveApplications
              (VActiveApplications (cursor v) pageLimit)
              (with_csrf (createAuthHeaders (session w)) t)
              (Response 500 GqlUnparsable)], v.
    split; [| split; [cbn [flat_map]; now rewrite app_nil_r | reflexivity]].
    cbn [fetchPages]. rewrite Hm. cbn [negb]. unfold bind at 1.
    rewrite (graphqlQuery_cached _ _ _ w t Ht Htr). cbv zeta.
    cbn [pagesEnv remote_graphql]. rewrite Hc, app_nil_r.
    rewrite (proj2 (nth_error_None done (length done)) (Nat.le_refl _)).
    reflexivity.
  - inversion Hall as [|p' ps' Hp Hps]; subst.
    assert (Hr : remote_graphql (pagesEnv (done ++ p :: ps))
                   (trace w) ApiGetActiveApplications
                   (VActiveApplications (cursor v) pageLimit)
                   (with_csrf (createAuthHeaders (session w)) t)
                 = pageAnswer 200 p).
    { cbn [pagesEnv remote_graphql]. rewrite Hc.
      rewrite nth_error_app2 by lia. now rewrite Nat.sub_diag. }
    rewrite (fetchPages_turn _ fuel v w t 200 p Hm Ht Htr Hr eq_refl).
    set (w1 := after _ w).
    destruct (IH (done ++ [p])
                (mkPageVars (allApplications v ++ results p) (nextCursor p)
                            (moreDataAvailable p))
                w1 fuel Hps Hp Ht) as (evs & v' & He & Hv & Hn).
    { subst w1. cbn [after trace].
      rewrite queryCount_app, Hc, (length_app done [p]). reflexivity. }
    { cbn [length] in Hfuel. lia. }
    eexists. exists v'. split; [| split].
    + replace (done ++ p :: ps) with ((done ++ [p]) ++ ps)
        by (now rewrite <- app_assoc).
      rewrite He. subst w1. rewrite after_after. reflexivity.
    + rewrite Hv. cbn [allApplications flat_map]. now rewrite <- app_assoc.
    + rewrite queryCount_app, Hn. reflexivity.
Qed.

End FailingPage.

(** X8.  A request for a page that fails does not lose the pages read
    before it and does not fail the listing.  Against a remote that
    answers the page requests with [pages], each reporting more data, and
    then with status 500: the listing returns the records of [pages], in
    order, after one request per page and the one that failed. *)
Theorem failed_page_keeps_earlier_records (t : string) (w : World)
  (pages : list ApplicationsPage) (fuel : nat) :
  csrfToken (session w) = Some t -> truthy t = true ->
  Forall (fun p => moreDataAvailable p = true) pages ->
  queryCount ApiGetActiveApplications (trace w) = 0%nat ->
  (length pages < fuel)%nat ->
  exists evs,
    fetchAllApplications (pagesEnv pages) fuel w
    = (Ret (flat_map results pages), after evs w)
    /\ queryCount ApiGetActiveApplications evs = S (length pages).
Proof.
  intros Ht Htr Hall Hc Hfuel.
  destruct (fetchPages_failure t Htr pages [] initialPageVars w fuel Hall
              eq_refl Ht Hc Hfuel) as (evs & v' & He & Hv & Hn).
  cbn [app] in He.
  exists (evs ++ [EvConsole ErrFetchingApplications]). split.
  - unfold fetchAllApplications. rewrite He.
    unfold bind, console, emit, ret, after. cbn [session trace].
    rewrite Hv. cbn [allApplications initialPageVars app].
    now rewrite <- app_assoc.
  - rewrite queryCount_app, Hn. cbn. lia.
Qed.

Lemma failed_page_witness :
  exists evs,
    fetchAllApplications (pagesEnv [firstPage]) 2 (start tokenSession)
    = (Ret (results firstPage ++ []), after evs (start tokenSession))
    /\ queryCount ApiGetActiveApplications evs = 2%nat.
Proof.
  apply (failed_page_keeps_earlier_records "token" (start tokenSession)
           [firstPage] 2).
  - reflexivity.
  - reflexivity.
  - repeat constructor.
  - reflexivity.
  - cbn. lia.
Defined.

(* ------------------------------------------------------------------ *)
(** ** The text taken from a feedback form *)

Section Trimming.

Lemma trimEnd_idem (s : string) : trimEnd (trimEnd s) = trimEnd s.
Proof.
  induction s as [|c r IH]; cbn [trimEnd]; [reflexivity |].
  destruct (trimEnd r) as [|d r'] eqn:E.
  - destruct (is_space c) eqn:Hc; cbn [trimEnd]; [reflexivity |].
    now rewrite Hc.
  - cbn [trimEnd]. cbn [trimEnd] in IH. now rewrite IH.
Qed.

Lemma trimEnd_head (c : ascii) (r : string) :
  is_space c = false -> exists r', trimEnd (String c r) = String c r'.
Proof.
  intros Hc. cbn [trimEnd]. destruct (trimEnd r).
  - rewrite Hc. now exists EmptyString.
  - eexists. reflexivity.
Qed.

Lemma trimStart_shape (s : string) :
  trimStart s = EmptyString
  \/ exists c r, trimStart s = String c r /\ is_space c = false.
Proof.
  induction s as [|c r IH]; cbn [trimStart]; [now left |].
  destruct (is_space c) eqn:Hc; [exact IH |].
  right. now exists c, r.
Qed.

Lemma trim_idem (s : string) : trim (trim s) = trim s.
Proof.
  unfold trim.
  destruct (trimStart_shape s) as [-> | (c & r & -> & Hc)].
  - reflexivity.
  - destruct (trimEnd_head c r Hc) as (r' & E).
    rewrite E. cbn [trimStart]. rewrite Hc. rewrite <- E.
    apply trimEnd_idem.
Qed.

End Trimming.

Section FeedbackText.

Lemma scanEntries_found (entries : list FieldEntry) (v : string) :
  scanEntries entries = Some v ->
  truthy v = true
  /\ exists entry value,
       In entry entries /\ isFeedbackField entry = true
       /\ fe_value entry = Some value /\ v = trim value.
Proof.
  induction entries as [|entry rest IH]; cbn [scanEntries]; [discriminate |].
  assert (Hrest : scanEntries rest = Some v ->
                  truthy v = true
                  /\ exists entry' value,
                       In entry' (entry :: rest)
                       /\ isFeedbackField entry' = true
                       /\ fe_value entry' = Some value /\ v = trim value).
  { intros H. destruct (IH H) as (Hv & e & value & Hin & Hrest).
    split; [exact Hv |]. exists e, value. split; [now right | exact Hrest]. }
  destruct (negb (truthy (fe_field entry))); [exact Hrest |].
  destruct (existsb _ feedbackFieldNames) eqn:Hf; [| exact Hrest].
  destruct (fe_value entry) as [value|] eqn:Hval; [| exact Hrest].
  destruct (truthy value && truthy (trim value))%bool eqn:Ht; [| exact Hrest].
  intros H. injection H as <-.
  apply andb_prop in Ht. destruct Ht as [_ Ht].
  split; [exact Ht |]. exists entry, value.
  split; [now left |]. split; [exact Hf |]. now split.
Qed.

Lemma scanSections_found (sections : list (option (list FieldEntry)))
  (v : string) :
  scanSections sections = Some v ->
  exists entries, In (Some entries) sections /\ scanEntries entries = Some v.
Proof.
  induction sections as [|[entries|] rest IH]; cbn [scanSections];
    [discriminate | |].
  - destruct (scanEntries entries) as [v'|] eqn:E.
    + intros H. injection H as <-. exists entries. split; [now left | exact E].
    + intros H. destruct (IH H) as (es & Hin & Hes).
      exists es. split; [now right | exact Hes].
  - intros H. destruct (IH H) as (es & Hin & Hes).
    exists es. split; [now right | exact Hes].
Qed.

End FeedbackText.


(* ------------------------------------------------------------------ *)
(** ** Which organisations the command takes up *)

Section Selection.

Lemma slice_from_start {A : Type} (l : list A) (m : Z) :
  exists k, slice l 0 m = firstn k l
            /\ (0 < m -> k = Nat.min (Z.to_nat m) (length l)).
Proof.
  unfold slice. cbn [Z.ltb Z.compare].
  assert (H0 : Z.min 0 (Z.of_nat (length l)) = 0) by lia.
  rewrite H0. cbn [Z.to_nat skipn]. rewrite Z.sub_0_r.
  eexists. split; [reflexivity |].
  intros Hm. replace (m <? 0) with false by (symmetry; apply Z.ltb_ge; lia).
  lia.
Qed.

Lemma firstn_prefix {A : Type} (k : nat) (l : list A) :
  exists rest, l = firstn k l ++ rest.
Proof. exists (skipn k l). now rewrite firstn_skipn. Qed.

End Selection.


(* ------------------------------------------------------------------ *)
(** ** One outcome for every organisation *)

Section Settling.

Variable env : Env.
Variable fuel : nat.
Variable maxRetries : Z.

Lemma attemptOrg_settles (o : OrgInfo) (label : string) (k : nat) :
  forall attempt acc,
    Z.of_nat k = maxRetries - attempt + 1 ->
    yields (attemptOrg env fuel k attempt maxRetries o label acc)
           (fun acc' =>
              (k = O /\ acc' = acc)
              \/ (exists r, acc' = addResult acc r)
              \/ acc' = addFailed acc label).
Proof.
  induction k as [|k IH]; intros attempt acc Hk; cbn [attemptOrg].
  - apply yields_ret. now left.
  - apply (yields_bind _ _ (fun _ => True)); [apply yields_any | intros _ _].
    apply (yields_bind _ _
             (fun step =>
                (fst step = true /\ exists r, snd step = addResult acc r)
                \/ (fst step = false /\ attempt = maxRetries
                    /\ snd step = addFailed acc label)
                \/ (fst step = false /\ attempt <> maxRetries
                    /\ snd step = acc))).
    + apply yields_try_catch.
      * apply (yields_bind _ _ (fun _ => True)); [apply yields_any |].
        intros r _.
        apply (yields_bind _ _ (fun _ => True)); [apply yields_any |].
        intros _ _. apply yields_ret. left. split; [reflexivity |].
        now exists r.
      * intros e. destruct (Z.eqb_spec attempt maxRetries) as [Heq | Hne].
        -- apply (yields_bind _ _ (fun _ => True)); [apply yields_any |].
           intros _ _. apply yields_ret. right. left. auto.
        -- apply (yields_bind _ _ (fun _ => True)); [apply yields_any |].
           intros _ _.
           apply (yields_bind _ _ (fun _ => True)); [apply yields_any |].
           intros _ _. apply yields_ret. right. right. auto.
    + intros [success acc1] Hstep. cbn [fst snd] in Hstep.
      destruct Hstep as [(-> & r & ->) | [(-> & Heq & ->) | (-> & Hne & ->)]].
      * apply yields_ret. right. left. now exists r.
      * assert (k = O) by lia. subst k. cbn [attemptOrg].
        apply yields_ret. now right; right.
      * eapply yields_weaken; [apply IH; lia |].
        intros acc2 [(-> & _) | H]; [lia | right; exact H].
Qed.

Lemma processOrgs_settles (n : nat) (orgs : list OrgInfo) :
  1 <= maxRetries ->
  forall i acc,
    yields (processOrgs env fuel maxRetries n i orgs acc) (settledAll orgs acc).
Proof.
  intros Hr. induction orgs as [|o orgs IH]; intros i acc; cbn [processOrgs].
  - apply yields_ret. reflexivity.
  - fold (labelOf o).
    apply (yields_bind _ _ (fun _ => True)); [apply yields_any | intros _ _].
    destruct (truthy (org_userId o)) eqn:Hu; cbn [negb].
    + apply (yields_bind _ _ (settles o acc)).
      * eapply yields_weaken; [apply attemptOrg_settles; lia |].
        intros acc1 H. unfold settles. rewrite Hu.
        destruct H as [(H0 & _) | H]; [lia | exact H].
      * intros acc1 H1.
        apply (yields_bind _ _ (fun _ => True)); [apply yields_any |].
        intros _ _. eapply yields_weaken; [apply IH |].
        intros acc2 H2. cbn [settledAll]. now exists acc1.
    + apply (yields_bind _ _ (fun _ => True)); [apply yields_any | intros _ _].
      eapply yields_weaken; [apply IH |].
      intros acc2 H2. cbn [settledAll].
      exists (addFailed acc (String.append (labelOf o) " - no userId")).
      split; [| exact H2]. unfold settles. now rewrite Hu.
Qed.

End Settling.

Lemma settledAll_failures (orgs : list OrgInfo) :
  forall acc acc',
    settledAll orgs acc acc' ->
    (length (failedOrgs acc') <= length (failedOrgs acc) + length orgs)%nat.
Proof.
  induction orgs as [|o orgs IH]; intros acc acc' H; cbn [settledAll] in H.
  - subst. cbn. lia.
  - destruct H as (acc1 & Hs & Hrest). specialize (IH _ _ Hrest).
    assert (H1 : (length (failedOrgs acc1) <= S (length (failedOrgs acc)))%nat).
    { unfold settles in Hs. destruct (truthy (org_userId o)).
      - destruct Hs as [(r & ->) | ->]; cbn [failedOrgs addResult addFailed];
          [lia | rewrite length_app; cbn; lia].
      - subst acc1. cbn [failedOrgs addFailed]. rewrite length_app. cbn. lia. }
    cbn [length]. lia.
Qed.



(* ------------------------------------------------------------------ *)
(** ** The command handles every failure of the remote *)

Section CommandOutcome.

Variable env : Env.

Lemma catches_extractWithSession (fuel : nat) (options : ExtractOptions) :
  catches (extractWithSession env fuel options).
Proof.
  unfold extractWithSession. through;
    try apply catches_processOrgs;
    try (intros w e; discriminate).
Qed.

(** With a batch size that is not positive the batch loop never returns
    once it has a record to work on. *)
Lemma enrichBatches_stuck (fetchAll : bool) (m : Z) (cs : list Candidate) :
  m <= 0 ->
  forall (fuel : nat) (i : Z) (enriched : list Candidate) (w : World)
         (out : list Candidate),
    i < Z.of_nat (length cs) ->
    fst (enrichBatches env fuel fetchAll m cs i enriched w) <> Ret out.
Proof.
  intros Hm. induction fuel as [|fuel IH]; intros i enriched w out Hi;
    cbn [enrichBatches];
    replace (i <? Z.of_nat (length cs)) with true
      by (symmetry; apply Z.ltb_lt; exact Hi);
    cbn [negb].
  - discriminate.
  - destruct (promiseAll_returns env fetchAll (slice cs i (i + m)) w)
      as (b & w1 & Hb & _).
    rewrite (bind_ret_eq _ _ w w1 b Hb). apply IH. lia.
Qed.

(** When the batch loop returns, it has added one record for each record
    that was left. *)
Lemma enrichBatches_length (fetchAll : bool) (m : Z) (cs : list Candidate) :
  forall (fuel : nat) (i : Z) (enriched : list Candidate) (w w' : World)
         (out : list Candidate),
    0 <= i ->
    enrichBatches env fuel fetchAll m cs i enriched w = (Ret out, w') ->
    length out = (length enriched + length (skipn (Z.to_nat i) cs))%nat.
Proof.
  induction fuel as [|fuel IH]; intros i enriched w w' out Hi H.
  - cbn [enrichBatches] in H.
    destruct (i <? Z.of_nat (length cs)) eqn:Hlt; cbn [negb] in H;
      [discriminate |].
    apply Z.ltb_ge in Hlt. injection H as <- _.
    rewrite skipn_all2 by lia. cbn. lia.
  - destruct (Z.le_gt_cases m 0) as [Hm | Hm].
    + destruct (Z.ltb_spec i (Z.of_nat (length cs))) as [Hlt | Hge].
      * exfalso.
        apply (enrichBatches_stuck fetchAll m cs Hm (S fuel) i enriched w out
                 Hlt).
        now rewrite H.
      * cbn [enrichBatches] in H.
        replace (i <? Z.of_nat (length cs)) with false in H
          by (symmetry; apply Z.ltb_ge; exact Hge).
        injection H as <- _. rewrite skipn_all2 by lia. cbn. lia.
    + cbn [enrichBatches] in H.
      destruct (i <? Z.of_nat (length cs)) eqn:Hlt; cbn [negb] in H.
      * apply Z.ltb_lt in Hlt.
        destruct (promiseAll_returns env fetchAll (slice cs i (i + m)) w)
          as (b & w1 & Hb & Hf).
        rewrite (bind_ret_eq _ _ w w1 b Hb) in H.
        apply IH in H; [| lia].
        rewrite H, length_app, <- (Forall2_length Hf).
        rewrite (slice_batch cs i m Hi) by lia.
        rewrite length_app. lia.
      * apply Z.ltb_ge in Hlt. injection H as <- _.
        rewrite skipn_all2 by lia. cbn. lia.
Qed.

Lemma enrichGroups_length (fuel : nat) (fetchAll : bool) (m : Z)
  (orgInfos : list OrgInfo) :
  forall (groups : list (string * list Candidate)) (current : option string)
         (enriched : list Candidate) (w w' : World) (out : list Candidate),
    enrichGroups env fuel fetchAll m orgInfos groups current enriched w
    = (Ret out, w') ->
    length out = (length enriched + length (flat_map snd groups))%nat.
Proof.
  induction groups as [|[o cs] groups IH];
    intros current enriched w w' out H; cbn [enrichGroups] in H.
  - injection H as <- _. cbn. lia.
  - cbn [flat_map snd]. rewrite length_app.
    destruct (negb (truthy_opt (userIdOf orgInfos o))).
    + bind_ret H x w1 H1 Hk. apply IH in Hk. rewrite Hk, length_app. lia.
    + bind_ret H switched w1 H1 Hk.
      destruct switched; cbn [negb] in Hk.
      * bind_ret Hk enriched' w2 H2 Hk.
        bind_ret Hk x w3 H3 Hk.
        apply IH in Hk.
        apply enrichBatches_length in H2; [| lia].
        cbn [Z.to_nat skipn] in H2. lia.
      * apply IH in Hk. rewrite Hk, length_app. lia.
Qed.

End CommandOutcome.


(** X13.  An export is never empty: when the command hands data to the
    exporters, the data holds at least one candidate, whether or not the
    enrichment ran, succeeded or failed, and the files are those named in
    the options. *)
Theorem exported_data_is_never_empty (env : Env) (fuel : nat)
  (options : ExtractOptions) (loaded : option AshbySession)
  (data : PipelineFetchResult) (failed files : list string)
  (evs : list Event) :
  extractCommand env fuel options loaded
  = (Ret (Exported data failed files), evs) ->
  candidates data <> [] /\ files = exportedFiles options.
Proof.
  unfold extractCommand. destruct loaded as [s|]; [| discriminate].
  destruct (extractWithSession env fuel options (mkWorld s [])) as [r w1]
    eqn:E.
  intros H. injection H as -> _.
  unfold extractWithSession in E.
  bind_ret E s0 w2 H0 E.
  destruct (negb (hasAuthCookie s0)); [discriminate |].
  bind_ret E discovered w3 H1 E.
  destruct discovered as [err | [|o orgInfos]]; try discriminate.
  destruct (selectOrgs options (o :: orgInfos)) as [orgs|]; [| discriminate].
  bind_ret E acc w4 H2 E.
  destruct (allCandidates acc) as [|c cs] eqn:Hc; [discriminate |].
  bind_ret E final w5 H3 E.
  injection E as <- <- <-. cbn [candidates]. split; [| reflexivity].
  destruct (opt_detailed options).
  - apply try_catch_inv in H3.
    destruct H3 as [(out & Hr & Heq) | [(e & w6 & Hr & Hh) | (_ & Heq)]];
      [| | discriminate].
    + injection Heq as <-. unfold enrichCandidatesWithDetails in Hr.
      apply enrichGroups_length in Hr.
      rewrite (Permutation_length (groupByOrg_perm (c :: cs))) in Hr.
      intros ->. discriminate.
    + injection Hh as <- _. discriminate.
  - injection H3 as <- _. discriminate.
Qed.

Lemma exported_data_witness :
  candidates
    (match fst (extractCommand (mockEnv twoTenants) 5 defaultOptions
                  (Some aliceSession)) with
     | Ret (Exported data _ _) => data
     | _ => emptyResult
     end) <> []
  /\ ["out.json"; "out.csv"]%string = exportedFiles defaultOptions.
Proof.
  assert (Hrun :
            extractCommand (mockEnv twoTenants) 5 defaultOptions
                           (Some aliceSession)
            = (Ret (Exported
                      (match fst (extractCommand (mockEnv twoTenants) 5
                                    defaultOptions (Some aliceSession)) with
                       | Ret (Exported data _ _) => data
                       | _ => emptyResult
                       end)
                      [] ["out.json"; "out.csv"]%string),
               snd (extractCommand (mockEnv twoTenants) 5 defaultOptions
                      (Some aliceSession)))).
  { vm_compute. reflexivity. }
  exact (exported_data_is_never_empty
           (mockEnv twoTenants) 5 defaultOptions (Some aliceSession)
           (match fst (extractCommand (mockEnv twoTenants) 5 defaultOptions
                         (Some aliceSession)) with
            | Ret (Exported data _ _) => data
            | _ => emptyResult
            end)
           [] ["out.json"; "out.csv"]%string
           (snd (extractCommand (mockEnv twoTenants) 5 defaultOptions
                   (Some aliceSession)))
           Hrun).
Defined.

(* ------------------------------------------------------------------ *)
(** ** The CSV text can be read back *)

Section CsvReading.

Lemma append_assoc (a b c : string) :
  String.append (String.append a b) c = String.append a (String.append b c).
Proof. induction a as [|x a IH]; cbn; [reflexivity | now rewrite IH]. Qed.

Lemma append_empty_r (a : string) : String.append a EmptyString = a.
Proof. induction a as [|x a IH]; cbn; [reflexivity | now rewrite IH]. Qed.

Lemma csvRun_append (a b : string) :
  forall st, csvRun st (String.append a b) = csvRun (csvRun st a) b.
Proof. induction a as [|x a IH]; intros st; cbn; [reflexivity | apply IH]. Qed.

(** [s] holds the character [c]. *)
Lemma includes_char (c d : ascii) (r : string) :
  includes (String d r) (String c EmptyString)
  = (Ascii.eqb d c || includes r (String c EmptyString))%bool.
Proof.
  cbn [includes String.prefix].
  destruct (ascii_dec c d) as [-> | Hne].
  - rewrite Ascii.eqb_refl. now destruct r.
  - replace (Ascii.eqb d c) with false
      by (symmetry; apply Ascii.eqb_neq; congruence).
    reflexivity.
Qed.

(** A field without a comma, a quote or a line feed is read as it is. *)
Lemma csvRun_plain (f : string) :
  includes f (String comma EmptyString) = false ->
  includes f (String dquote EmptyString) = false ->
  includes f (String newline EmptyString) = false ->
  forall rows fields cur m,
    m = AtStart \/ m = InPlain ->
    csvRun (mkCsv rows fields cur m) f
    = mkCsv rows fields (String.append cur f)
            (match f with EmptyString => m | _ => InPlain end).
Proof.
  induction f as [|c r IH]; intros Hc Hq Hn rows fields cur m Hm.
  - cbn. now rewrite append_empty_r.
  - rewrite includes_char in Hc, Hq, Hn.
    apply orb_false_elim in Hc, Hq, Hn.
    destruct Hc as [Hc Hc'], Hq as [Hq Hq'], Hn as [Hn Hn'].
    cbn [csvRun].
    assert (Hstep : csvStep (mkCsv rows fields cur m) c
                    = mkCsv rows fields (snoc cur c) InPlain).
    { unfold csvStep. cbn [cs_mode cs_rows cs_fields cs_cur].
      destruct Hm as [-> | ->]; now rewrite ?Hq, ?Hc, ?Hn. }
    rewrite Hstep, (IH Hc' Hq' Hn' rows fields (snoc cur c) InPlain)
      by now right.
    unfold snoc. rewrite append_assoc. cbn [String.append].
    now destruct r.
Qed.

(** The inside of a quoted field is read back with its quotes single. *)
Lemma csvRun_quoted (f : string) :
  forall rows fields cur,
    csvRun (mkCsv rows fields cur InQuoted) (doubleQuotes f)
    = mkCsv rows fields (String.append cur f) InQuoted.
Proof.
  induction f as [|c r IH]; intros rows fields cur.
  - cbn. now rewrite append_empty_r.
  - cbn [doubleQuotes].
    destruct (Ascii.eqb_spec c dquote) as [-> | Hne].
    + cbn [csvRun]. unfold csvStep at 2.
      cbn [cs_mode cs_rows cs_fields cs_cur]. rewrite Ascii.eqb_refl.
      unfold csvStep at 1. cbn [cs_mode cs_rows cs_fields cs_cur].
      rewrite Ascii.eqb_refl. rewrite IH. unfold snoc.
      now rewrite append_assoc.
    + cbn [csvRun]. unfold csvStep at 1.
      cbn [cs_mode cs_rows cs_fields cs_cur].
      replace (Ascii.eqb c dquote) with false
        by (symmetry; now apply Ascii.eqb_neq).
      rewrite IH. unfold snoc. now rewrite append_assoc.
Qed.

(** After a field the reader is not within quotes. *)
Lemma csvRun_field (f : string) (rows : list (list string))
  (fields : list string) :
  exists m,
    csvRun (mkCsv rows fields EmptyString AtStart) (escapeField f)
    = mkCsv rows fields f m
    /\ m <> InQuoted.
Proof.
  unfold escapeField.
  destruct (includes f (String comma EmptyString)) eqn:Hc;
    [| destruct (includes f (String dquote EmptyString)) eqn:Hq;
       [| destruct (includes f (String newline EmptyString)) eqn:Hn]];
    cbn [orb].
  4:{ eexists. split.
      - apply (csvRun_plain f Hc Hq Hn). now left.
      - destruct f; discriminate. }
  all: exists AfterQuote; split; [| discriminate];
    cbn [csvRun]; unfold csvStep at 1;
    cbn [cs_mode cs_rows cs_fields cs_cur]; rewrite Ascii.eqb_refl;
    rewrite csvRun_append, csvRun_quoted; cbn [csvRun String.append];
    unfold csvStep; cbn [cs_mode cs_rows cs_fields cs_cur];
    now rewrite Ascii.eqb_refl.
Qed.

Lemma csvStep_comma (st : CsvState) :
  cs_mode st <> InQuoted -> csvStep st comma = endField st.
Proof.
  intros H. unfold csvStep.
  destruct (cs_mode st); try reflexivity. now elim H.
Qed.

Lemma csvStep_newline (st : CsvState) :
  cs_mode st <> InQuoted -> csvStep st newline = endRow st.
Proof.
  intros H. unfold csvStep.
  destruct (cs_mode st); try reflexivity. now elim H.
Qed.

(** A line is read as the fields of its row. *)
Lemma csvRun_line (row : list string) :
  row <> [] ->
  forall rows fields,
    exists st,
      csvRun (mkCsv rows fields EmptyString AtStart) (csvLine row) = st
      /\ cs_mode st <> InQuoted
      /\ endRow st = mkCsv (rows ++ [fields ++ row]) [] EmptyString AtStart.
Proof.
  induction row as [|f row IH]; intros Hne rows fields; [now elim Hne |].
  destruct (csvRun_field f rows fields) as (m & Hf & Hm).
  destruct row as [|g row].
  - eexists. split; [exact Hf |]. split; [exact Hm | reflexivity].
  - destruct (IH ltac:(discriminate) rows (fields ++ [f]))
      as (st & Hst & Hmode & Hend).
    exists st. split; [| split; [exact Hmode |]].
    + unfold csvLine in *. cbn [map join] in *.
      rewrite csvRun_append, Hf. cbn [String.append csvRun].
      rewrite csvStep_comma by exact Hm. exact Hst.
    + rewrite Hend. now rewrite <- app_assoc.
Qed.

(** The lines of a text are read as their rows. *)
Lemma csvRun_text (lines : list (list string)) :
  lines <> [] -> Forall (fun row => row <> []) lines ->
  forall rows,
    endRow (csvRun (mkCsv rows [] EmptyString AtStart)
                   (csvText (map csvLine lines)))
    = mkCsv (rows ++ lines) [] EmptyString AtStart.
Proof.
  induction lines as [|row lines IH]; intros Hne Hall rows; [now elim Hne |].
  inversion Hall as [|? ? Hrow Hrest]; subst.
  destruct (csvRun_line row Hrow rows []) as (st & Hst & Hmode & Hend).
  destruct lines as [|row2 lines].
  - unfold csvText. cbn [map join]. now rewrite Hst, Hend.
  - unfold csvText in *. cbn [map join] in *.
    rewrite csvRun_append, Hst. cbn [String.append csvRun].
    rewrite csvStep_newline by exact Hmode. rewrite Hend.
    rewrite (IH ltac:(discriminate) Hrest). now rewrite <- app_assoc.
Qed.

Lemma readCsv_text (lines : list (list string)) :
  lines <> [] -> Forall (fun row => row <> []) lines ->
  readCsv (csvText (map csvLine lines)) = lines.
Proof.
  intros Hne Hall. unfold readCsv. now rewrite (csvRun_text lines Hne Hall []).
Qed.

End CsvReading.

(** X14.  The CSV text keeps the rows apart: two tables, each of at least
    one row and with at least one field in every row, that are written to
    the same text are the same table, field by field, whatever commas,
    quotes and line feeds the fields hold.  This holds in particular for
    the file of the export, whose first line is the header: the rows of
    the candidates can be read off the text. *)
Theorem csv_text_determines_the_rows :
  (forall rows1 rows2 : list (list string),
      rows1 <> [] -> rows2 <> [] ->
      Forall (fun row => row <> []) rows1 ->
      Forall (fun row => row <> []) rows2 ->
      csvText (map csvLine rows1) = csvText (map csvLine rows2) ->
      rows1 = rows2)
  /\ (forall data columns,
         csvLines data columns
         = map csvLine
             (header :: map (fun cand => csvRow data (columns cand) cand)
                            (candidates data)))
  /\ (forall data1 data2 columns1 columns2,
         csvText (csvLines data1 columns1) = csvText (csvLines data2 columns2) ->
         map (fun cand => csvRow data1 (columns1 cand) cand) (candidates data1)
         = map (fun cand => csvRow data2 (columns2 cand) cand)
               (candidates data2)).
Proof.
  assert (Hinj : forall rows1 rows2 : list (list string),
             rows1 <> [] -> rows2 <> [] ->
             Forall (fun row => row <> []) rows1 ->
             Forall (fun row => row <> []) rows2 ->
             csvText (map csvLine rows1) = csvText (map csvLine rows2) ->
             rows1 = rows2).
  { intros rows1 rows2 H1 H2 Ha1 Ha2 Heq.
    rewrite <- (readCsv_text rows1 H1 Ha1), <- (readCsv_text rows2 H2 Ha2).
    now rewrite Heq. }
  assert (Hlines : forall data columns,
             csvLines data columns
             = map csvLine
                 (header :: map (fun cand => csvRow data (columns cand) cand)
                                (candidates data))).
  { intros data columns. unfold csvLines. cbn [map]. rewrite map_map.
    reflexivity. }
  split; [exact Hinj | split; [exact Hlines |]].
  intros data1 data2 columns1 columns2 Heq.
  rewrite !Hlines in Heq. apply Hinj in Heq.
  - now injection Heq.
  - discriminate.
  - discriminate.
  - constructor; [discriminate |]. apply Forall_forall.
    intros row Hin. apply in_map_iff in Hin. destruct Hin as (c & <- & _).
    discriminate.
  - constructor; [discriminate |]. apply Forall_forall.
    intros row Hin. apply in_map_iff in Hin. destruct Hin as (c & <- & _).
    discriminate.
Qed.

(* ------------------------------------------------------------------ *)
(** ** From a cookie string to a session and back *)

Section CookieHeader.

Lemma trimEnd_length (s : string) :
  (String.length (trimEnd s) <= String.length s)%nat.
Proof.
  induction s as [|c r IH]; cbn [trimEnd String.length]; [lia |].
  destruct (trimEnd r); [destruct (is_space c) |]; cbn [String.length] in *;
    lia.
Qed.

Lemma trimStart_length (s : string) :
  (String.length (trimStart s) <= String.length s)%nat.
Proof.
  induction s as [|c r IH]; cbn [trimStart String.length]; [lia |].
  destruct (is_space c); cbn [String.length]; lia.
Qed.

(** A tight string starts with a character that is no white space, and
    trimming leaves its end alone. *)
Lemma Tight_shape (s : string) :
  Tight s ->
  (exists c r, s = String c r /\ is_space c = false)
  /\ trimEnd s = s.
Proof.
  intros (Hne & Htrim). destruct s as [|c r]; [now elim Hne |].
  unfold trim in Htrim. cbn [trimStart] in Htrim.
  destruct (is_space c) eqn:Hc.
  - exfalso.
    pose proof (trimEnd_length (trimStart r)) as H1.
    pose proof (trimStart_length r) as H2.
    rewrite Htrim in H1. cbn [String.length] in H1. lia.
  - split; [now exists c, r | exact Htrim].
Qed.

Lemma trimEnd_append (a b : string) :
  trimEnd b <> EmptyString ->
  trimEnd (String.append a b) = String.append a (trimEnd b).
Proof.
  intros Hb. induction a as [|c a IH]; cbn [String.append trimEnd];
    [reflexivity |].
  rewrite IH. destruct (String.append a (trimEnd b)) eqn:E; [| reflexivity].
  exfalso. apply Hb. destruct a; cbn in E; [exact E | discriminate].
Qed.

Lemma trim_pair (k v : string) :
  Tight k -> Tight v ->
  trim (String.append k (String.append "=" v))
  = String.append k (String.append "=" v)
  /\ trim (String " " (String.append k (String.append "=" v)))
     = String.append k (String.append "=" v).
Proof.
  intros Hk Hv.
  destruct (Tight_shape k Hk) as ((c & r & -> & Hc) & _).
  destruct (Tight_shape v Hv) as (_ & Hend).
  assert (Hne : trimEnd v <> EmptyString) by (rewrite Hend; apply Hv).
  assert (H : trimEnd (String.append (String c r) (String.append "=" v))
              = String.append (String c r) (String.append "=" v)).
  { rewrite trimEnd_append.
    - change (String.append "=" v) with (String "=" v).
      f_equal. cbn [trimEnd]. rewrite Hend. destruct v; [now elim Hne |].
      reflexivity.
    - change (String.append "=" v) with (String "=" v). cbn [trimEnd].
      destruct (trimEnd v); [now elim Hne | discriminate]. }
  unfold trim. split.
  - cbn [String.append trimStart]. rewrite Hc. exact H.
  - cbn [String.append trimStart is_space]. cbn [String.append] in H.
    change (is_space " ") with true. cbv iota. rewrite Hc. exact H.
Qed.

Lemma split_lacks (sep : ascii) (a : string) :
  lacks sep a -> split sep a = [a].
Proof.
  induction a as [|c r IH]; intros H; cbn [split]; [reflexivity |].
  destruct H as [Hc Hr].
  replace (Ascii.eqb c sep) with false by (symmetry; now apply Ascii.eqb_neq).
  now rewrite (IH Hr).
Qed.

Lemma split_append (sep : ascii) (a b : string) :
  lacks sep a ->
  split sep (String.append a (String sep b)) = a :: split sep b.
Proof.
  induction a as [|c r IH]; intros H; cbn [String.append split].
  - now rewrite Ascii.eqb_refl.
  - destruct H as [Hc Hr].
    replace (Ascii.eqb c sep) with false by (symmetry; now apply Ascii.eqb_neq).
    now rewrite (IH Hr).
Qed.

Lemma lacks_append (c : ascii) (a b : string) :
  lacks c a -> lacks c b -> lacks c (String.append a b).
Proof.
  induction a as [|d r IH]; cbn [String.append lacks]; [auto |].
  intros [Hd Hr] Hb. split; [exact Hd | now apply IH].
Qed.

(** The parts that the header of portable cookies is split and trimmed
    into are the pairs it was made of. *)
Lemma header_parts (cs : Cookies) :
  Forall Portable cs ->
  filter truthy (map trim (split ";" (cookieHeaderOf cs)))
  = map (fun kv => String.append (fst kv) (String.append "=" (snd kv))) cs.
Proof.
  unfold cookieHeaderOf.
  destruct cs as [|kv cs]; [reflexivity |].
  intros Hall.
  assert (Hgen : forall l : Cookies,
             Forall Portable l ->
             forall kv0, Portable kv0 ->
               filter truthy
                 (map trim
                    (split ";"
                       (join "; "
                          (map (fun kv => String.append (fst kv)
                                            (String.append "=" (snd kv)))
                               (kv0 :: l)))))
               = map (fun kv => String.append (fst kv)
                                  (String.append "=" (snd kv)))
                     (kv0 :: l)
               /\   filter truthy
                      (map trim
                         (split ";"
                            (String " "
                               (join "; "
                                  (map (fun kv => String.append (fst kv)
                                                    (String.append "="
                                                       (snd kv)))
                                       (kv0 :: l))))))
                    = map (fun kv => String.append (fst kv)
                                       (String.append "=" (snd kv)))
                          (kv0 :: l)).
  { induction l as [|kv1 l IHl]; intros Hl [k v] (Hk & Hv & Hks & Hvs & _);
      cbn [fst snd] in *.
    - assert (Hlack : lacks ";" (String.append k (String.append "=" v))).
      { apply lacks_append; [exact Hks |]. split; [discriminate | exact Hvs]. }
      destruct (trim_pair k v Hk Hv) as (Ht1 & Ht2).
      assert (Hty : truthy (String.append k (String.append "=" v)) = true).
      { destruct Hk as (Hk & _). destruct k; [now elim Hk | reflexivity]. }
      cbn [map join fst snd]. split.
      + rewrite (split_lacks _ _ Hlack). cbn [map filter].
        now rewrite Ht1, Hty.
      + rewrite (split_lacks ";" (String " " _)).
        * cbn [map filter]. now rewrite Ht2, Hty.
        * split; [discriminate | exact Hlack].
    - inversion Hl as [|? ? Hkv1 Hl']; subst.
      destruct (IHl Hl' kv1 Hkv1) as (_ & IH2).
      assert (Hlack : lacks ";" (String.append k (String.append "=" v))).
      { apply lacks_append; [exact Hks |]. split; [discriminate | exact Hvs]. }
      destruct (trim_pair k v Hk Hv) as (Ht1 & Ht2).
      assert (Hty : truthy (String.append k (String.append "=" v)) = true).
      { destruct Hk as (Hk & _). destruct k; [now elim Hk | reflexivity]. }
      cbn [map join fst snd] in *. split.
      + change (String.append "; " ?x) with (String ";" (String " " x)).
        rewrite (split_append _ _ _ Hlack). cbn [map filter].
        rewrite Ht1, Hty. f_equal. exact IH2.
      + change (String.append "; " ?x) with (String ";" (String " " x)).
        change (String " " (String.append ?a ?b))
          with (String.append (String " " a) b).
        rewrite (split_append ";" (String " " _)).
        * cbn [map filter]. rewrite Ht2, Hty. f_equal. exact IH2.
        * split; [discriminate | exact Hlack]. }
  inversion Hall as [|? ? Hkv Hcs]; subst.
  exact (proj1 (Hgen cs Hcs kv Hkv)).
Qed.

Lemma indexOf_append (c : ascii) (k r : string) :
  lacks c k -> indexOf c (String.append k (String c r)) = Some (String.length k).
Proof.
  induction k as [|d k IH]; intros H; cbn [String.append indexOf String.length].
  - now rewrite Ascii.eqb_refl.
  - destruct H as [Hd Hk].
    replace (Ascii.eqb d c) with false by (symmetry; now apply Ascii.eqb_neq).
    now rewrite (IH Hk).
Qed.

Lemma substring_whole (s : string) : substring 0 (String.length s) s = s.
Proof. induction s as [|c s IH]; cbn; [reflexivity | now rewrite IH]. Qed.

Lemma substring_head (k r : string) :
  substring 0 (String.length k) (String.append k r) = k.
Proof.
  induction k as [|c k IH]; cbn [String.append String.length substring].
  - now destruct r.
  - now rewrite IH.
Qed.

Lemma substring_tail (k r : string) :
  substring (String.length k) (String.length r) (String.append k r) = r.
Proof.
  induction k as [|c k IH]; cbn [String.append String.length substring].
  - apply substring_whole.
  - exact IH.
Qed.

Lemma length_append (a b : string) :
  String.length (String.append a b) = (String.length a + String.length b)%nat.
Proof. induction a as [|c a IH]; cbn; [reflexivity | now rewrite IH]. Qed.

Lemma addPair_portable (cookieMap : Cookies) (k v : string) :
  Portable (k, v) ->
  addPair cookieMap (String.append k (String.append "=" v))
  = cookie_set cookieMap k v.
Proof.
  intros (Hk & Hv & _ & _ & Heq). cbn [fst snd] in *.
  unfold addPair. change (String.append "=" v) with (String "="%char v).
  rewrite (indexOf_append _ _ _ Heq). cbv zeta.
  rewrite substring_head.
  replace (String.length (String.append k (String "=" v))
           - (String.length k + 1))%nat
    with (String.length v)
    by (rewrite length_append; cbn [String.length]; lia).
  replace (String.append k (String "=" v))
    with (String.append (String.append k "=") v)
    by (rewrite append_assoc; reflexivity).
  replace (String.length k + 1)%nat with (String.length (String.append k "="))
    by (rewrite length_append; reflexivity).
  rewrite substring_tail.
  destruct Hk as (Hkne & ->). destruct Hv as (Hvne & ->).
  destruct k; [now elim Hkne |]. destruct v; [now elim Hvne |].
  reflexivity.
Qed.

Lemma cookie_set_fresh (cs : Cookies) (k v : string) :
  ~ In k (map fst cs) -> cookie_set cs k v = cs ++ [(k, v)].
Proof.
  induction cs as [|[k0 v0] cs IH]; intros H; cbn [cookie_set app];
    [reflexivity |].
  cbn [map fst In] in H.
  replace (String.eqb k0 k) with false
    by (symmetry; apply String.eqb_neq; intros ->; apply H; now left).
  rewrite IH; [reflexivity |]. intros Hin. apply H. now right.
Qed.

Lemma cookies_rebuilt (cs : Cookies) :
  NoDup (map fst cs) -> Forall Portable cs ->
  forall acc,
    (forall k, In k (map fst acc) -> ~ In k (map fst cs)) ->
    fold_left addPair
      (map (fun kv => String.append (fst kv) (String.append "=" (snd kv))) cs)
      acc
    = acc ++ cs.
Proof.
  induction cs as [|[k v] cs IH]; intros Hnd Hall acc Hacc; cbn [map fold_left].
  - now rewrite app_nil_r.
  - inversion Hnd as [|? ? Hk Hnd']; subst.
    inversion Hall as [|? ? Hkv Hall']; subst.
    cbn [fst snd]. rewrite (addPair_portable acc k v Hkv).
    rewrite cookie_set_fresh.
    + rewrite (IH Hnd' Hall'); [now rewrite <- app_assoc |].
      intros k' Hin. rewrite map_app, in_app_iff in Hin.
      destruct Hin as [Hin | [<- | []]].
      * intros Hcs. apply (Hacc k' Hin). now right.
      * exact Hk.
    + intros Hin. apply (Hacc k Hin). now left.
Qed.

End CookieHeader.


Example sample_cookie_header :
  cookieHeaderOf sampleJar = "ashby_session_token=s3cr3t; csrf=t0k3n="%string.
Proof. reflexivity. Qed.


Section PastedCookies.

Lemma cookie_set_keys (cs : Cookies) (k v : string) :
  NoDup (map fst cs) -> NoDup (map fst (cookie_set cs k v)).
Proof.
  intros Hnd.
  assert (H : map fst (cookie_set cs k v)
              = if existsb (String.eqb k) (map fst cs) then map fst cs
                else map fst cs ++ [k]).
  { clear Hnd. induction cs as [|[k0 v0] cs IH];
      cbn [cookie_set map fst existsb]; [reflexivity |].
    rewrite (String.eqb_sym k k0).
    destruct (String.eqb k0 k); cbn [map fst orb]; [reflexivity |].
    rewrite IH. now destruct (existsb _ _). }
  rewrite H. destruct (existsb _ _) eqn:E; [exact Hnd |].
  apply NoDup_app; [exact Hnd | repeat constructor; intros [] |].
  intros x Hx [<- | []]. apply existsb_eqb_In in Hx. congruence.
Qed.

Lemma cookie_set_all (P : string * string -> Prop) (cs : Cookies)
  (k v : string) :
  Forall P cs -> P (k, v) -> (forall k0 v0, P (k0, v0) -> P (k0, v)) ->
  Forall P (cookie_set cs k v).
Proof.
  intros Hall Hkv Hval. induction cs as [|[k0 v0] cs IH]; cbn [cookie_set].
  - now repeat constructor.
  - inversion Hall as [|? ? H0 Hcs]; subst.
    destruct (String.eqb k0 k).
    + constructor; [now apply (Hval k0 v0) | exact Hcs].
    + constructor; [exact H0 | now apply IH].
Qed.

Lemma trim_tight (s : string) : truthy (trim s) = true -> Tight (trim s).
Proof.
  intros H. split; [| apply trim_idem]. destruct (trim s); discriminate.
Qed.

End PastedCookies.


(* ------------------------------------------------------------------ *)
(** ** What enrichment writes into a record *)

Section EnrichedRecord.

Variable env : Env.

Lemma findIndex_bound {A : Type} (p : A -> bool) (l : list A) (k : nat) :
  findIndex p l = Some k -> (k < length l)%nat.
Proof.
  revert k. induction l as [|x l IH]; intros k; cbn [findIndex length];
    [discriminate |].
  destruct (p x).
  - intros H. injection H as <-. lia.
  - destruct (findIndex p l) as [j|]; [| discriminate].
    intros H. injection H as <-. specialize (IH j eq_refl). lia.
Qed.

Lemma insertFeedback_perm (x : InterviewFeedback)
  (l : list InterviewFeedback) :
  Permutation (insertFeedback env x l) (x :: l).
Proof.
  induction l as [|y l IH]; cbn [insertFeedback]; [reflexivity |].
  destruct (newerThan env x y); [reflexivity |].
  rewrite IH. apply perm_swap.
Qed.

Lemma sortFeedback_perm (l : list InterviewFeedback) :
  Permutation (sortFeedback env l) l.
Proof.
  unfold sortFeedback.
  assert (H : forall acc,
             Permutation
               (fold_left (fun sorted x => insertFeedback env x sorted) l acc)
               (acc ++ l)).
  { induction l as [|x l IH]; intros acc; cbn [fold_left].
    - now rewrite app_nil_r.
    - rewrite IH, insertFeedback_perm. now apply Permutation_cons_app. }
  exact (H []).
Qed.

Lemma allFeedbackOf_submitted (events : list RawInterviewEvent) :
  Forall (fun f => fb_isFeedbackSubmitted f = true)
         (allFeedbackOf events).
Proof.
  apply Forall_forall. intros f Hin. unfold allFeedbackOf in Hin.
  apply in_flat_map in Hin. destruct Hin as (event & _ & Hin).
  apply in_map_iff in Hin. destruct Hin as (ie & <- & Hie).
  apply filter_In in Hie. exact (proj2 Hie).
Qed.

(** The feedback from which the summary fields are taken. *)
Lemma latest_in_feedback (events : list RawInterviewEvent)
  (f : InterviewFeedback) :
  hd_error (sortFeedback env
              (filter (fun f => truthy (fb_submittedAt f))
                      (allFeedbackOf events))) = Some f ->
  In f (allFeedbackOf events) /\ truthy (fb_submittedAt f) = true.
Proof.
  intros H.
  assert (Hin : In f (sortFeedback env
                        (filter (fun f => truthy (fb_submittedAt f))
                                (allFeedbackOf events)))).
  { destruct (sortFeedback env _); [discriminate |].
    injection H as <-. now left. }
  apply (Permutation_in _ (sortFeedback_perm _)) in Hin.
  now apply filter_In in Hin.
Qed.

End EnrichedRecord.

(** X17.  The record that enrichment builds is coherent.  A stage index,
    when there is one, lies between one and the number of stages, and
    the progress is written as index, slash, number of stages; without a
    stage index there is no progress.  The feedback count is the number
    of feedback entries, all of which are marked as submitted, and the
    author and the date of the latest feedback are those of one of these
    entries.  There is one interview event for each event of the
    details, in order. *)
Theorem enriched_record_is_coherent (env : Env) (c : Candidate) (d : Details) :
  let c' := applyDetails env c d in
  (forall i,
      currentStageIndex c' = Some i ->
      exists t,
        totalStages c' = Some t /\ 1 <= i <= t
        /\ stageProgress c'
           = Some (String.append (decimal (Z.to_nat i))
                     (String.append "/" (decimal (Z.to_nat t)))))
  /\ (currentStageIndex c' = None -> stageProgress c' = None)
  /\ (exists fs,
         allFeedback c' = Some fs
         /\ feedbackCount c' = Some (Z.of_nat (length fs))
         /\ Forall (fun f => fb_isFeedbackSubmitted f = true) fs
         /\ forall a,
              latestFeedbackAuthor c' = Some a ->
              exists f,
                In f fs /\ fb_interviewer f = a
                /\ latestFeedbackDate c' = Some (fb_submittedAt f))
  /\ option_map (map ie_id) (interviewEvents c')
     = Some (map re_id (dt_interviewEvents d)).
Proof.
  cbv zeta. unfold applyDetails. cbv zeta.
  cbn [currentStageIndex totalStages stageProgress allFeedback feedbackCount
       latestFeedbackAuthor latestFeedbackDate interviewEvents option_map].
  split; [| split; [| split]].
  - intros i.
    destruct (planStagesOf d) as [allStages|]; [| discriminate].
    destruct (dt_currentInterviewStage d) as [current|]; [| discriminate].
    destruct (findIndex _ _) as [k|] eqn:Hk; cbn [fst snd]; [| discriminate].
    intros H. injection H as <-.
    apply findIndex_bound in Hk.
    eexists. split; [reflexivity |]. split; [lia |].
    now rewrite !Nat2Z.id.
  - destruct (planStagesOf d) as [allStages|]; [| reflexivity].
    destruct (dt_currentInterviewStage d) as [current|]; [| reflexivity].
    destruct (findIndex _ _) as [k|]; cbn [fst snd]; [discriminate | reflexivity].
  - eexists. split; [reflexivity |]. split; [reflexivity |].
    split; [apply allFeedbackOf_submitted |].
    intros a Ha.
    destruct (hd_error _) as [f|] eqn:Hf; cbn [option_map or_null] in *;
      [| discriminate].
    destruct (latest_in_feedback env _ f Hf) as (Hin & Ht).
    destruct (truthy (fb_interviewer f)); [| discriminate].
    injection Ha as <-. exists f. split; [exact Hin |].
    split; [reflexivity | now rewrite Ht].
  - rewrite map_map. reflexivity.
Qed.

(* ------------------------------------------------------------------ *)
(** ** The latest feedback is the newest *)

Section NewestFeedback.

Variable env : Env.

Lemma newerThan_times (x y : InterviewFeedback) (tx ty : Z) :
  submittedTime env x = Some tx -> submittedTime env y = Some ty ->
  newerThan env x y = (ty <? tx).
Proof.
  unfold submittedTime, newerThan. now intros -> ->.
Qed.

Lemma insertFeedback_In (x g : InterviewFeedback)
  (l : list InterviewFeedback) :
  In g (insertFeedback env x l) -> g = x \/ In g l.
Proof.
  intros H. apply (Permutation_in _ (insertFeedback_perm env x l)) in H.
  destruct H as [<- | H]; auto.
Qed.

Lemma insertFeedback_descending (x : InterviewFeedback) (tx : Z)
  (l : list InterviewFeedback) :
  submittedTime env x = Some tx ->
  NewestFirst env l -> NewestFirst env (insertFeedback env x l).
Proof.
  intros Hx. induction l as [|y l IH]; intros Hl; cbn [insertFeedback].
  - cbn [NewestFirst]. exists tx. split; [exact Hx |]. split; [| exact I].
    intros g [].
  - cbn [NewestFirst] in Hl. destruct Hl as (ty & Hy & Hbelow & Hrest).
    rewrite (newerThan_times x y tx ty Hx Hy).
    destruct (Z.ltb_spec ty tx) as [Hlt | Hge].
    + cbn [NewestFirst]. exists tx. split; [exact Hx |]. split.
      * intros g [<- | Hg].
        -- exists ty. split; [exact Hy | lia].
        -- destruct (Hbelow g Hg) as (tg & Htg & Hle).
           exists tg. split; [exact Htg | lia].
      * exists ty. now repeat split.
    + cbn [NewestFirst]. exists ty. split; [exact Hy |]. split.
      * intros g Hg. destruct (insertFeedback_In x g l Hg) as [-> | Hg'].
        -- exists tx. split; [exact Hx | lia].
        -- now apply Hbelow.
      * now apply IH.
Qed.

Lemma sortFeedback_descending (l : list InterviewFeedback) :
  (forall f, In f l -> submittedTime env f <> None) ->
  NewestFirst env (sortFeedback env l).
Proof.
  unfold sortFeedback.
  assert (H : forall acc,
             (forall f, In f l -> submittedTime env f <> None) ->
             NewestFirst env acc ->
             NewestFirst env
               (fold_left (fun sorted x => insertFeedback env x sorted) l acc)).
  { induction l as [|x l IH]; intros acc Hl Hacc; cbn [fold_left];
      [exact Hacc |].
    apply IH; [intros f Hf; apply Hl; now right |].
    destruct (submittedTime env x) as [tx|] eqn:Hx.
    - now apply (insertFeedback_descending x tx).
    - now elim (Hl x (or_introl eq_refl)). }
  intros Hl. apply (H [] Hl). exact I.
Qed.

End NewestFeedback.



(* ------------------------------------------------------------------ *)
(** ** How often the session is switched *)

Create HintDb switches.

Section SwitchCounting.

Variable env : Env.

Lemma switchCount_snoc (evs : list Event) (e : Event) :
  switchCount (evs ++ [e])
  = (switchCount evs + if isSwitch e then 1 else 0)%nat.
Proof.
  unfold switchCount, switchRequests. rewrite flat_map_app, length_app.
  destruct e; reflexivity.
Qed.

Lemma adds_bind {A B : Type} (k1 k2 : nat) (m : M A) (f : A -> M B) :
  adds k1 m -> (forall a, adds k2 (f a)) -> adds (k1 + k2) (bind m f).
Proof.
  intros Hm Hf w. unfold bind. specialize (Hm w).
  destruct (m w) as [[a|e|] w1]; cbn [snd] in *.
  - specialize (Hf a w1). lia.
  - lia.
  - lia.
Qed.

Lemma adds_try_catch {A : Type} (k1 k2 : nat) (m : M A)
  (handler : Error -> M A) :
  adds k1 m -> (forall e, adds k2 (handler e)) ->
  adds (k1 + k2) (try_catch m handler).
Proof.
  intros Hm Hh w. unfold try_catch. specialize (Hm w).
  destruct (m w) as [[a|e|] w1]; cbn [snd] in *.
  - lia.
  - specialize (Hh e w1). lia.
  - lia.
Qed.

Lemma adds_weaken {A : Type} (k k' : nat) (m : M A) :
  (k <= k')%nat -> adds k m -> adds k' m.
Proof. intros Hk Hm w. specialize (Hm w). lia. Qed.

Lemma adds_ret {A : Type} (a : A) : adds 0 (ret a).
Proof. intros w. unfold ret. cbn [snd]. lia. Qed.

Lemma adds_throw {A : Type} (e : Error) : adds 0 (@throw A e).
Proof. intros w. unfold throw. cbn [snd]. lia. Qed.

Lemma adds_get_session : adds 0 get_session.
Proof. intros w. unfold get_session. cbn [snd]. lia. Qed.

Lemma adds_set_csrfToken (t : option string) : adds 0 (set_csrfToken t).
Proof. intros w. unfold set_csrfToken. cbn [snd trace]. lia. Qed.

Lemma adds_set_cookies (cs : Cookies) : adds 0 (set_cookies cs).
Proof. intros w. unfold set_cookies. cbn [snd trace]. lia. Qed.

Lemma adds_emit (e : Event) : isSwitch e = false -> adds 0 (emit e).
Proof.
  intros He w. cbn [emit snd trace]. rewrite switchCount_snoc, He. lia.
Qed.

Lemma adds_respond {B : Type} (ev : Http B -> Event) (r : Http B) :
  adds (if isSwitch (ev r) then 1 else 0) (respond ev r).
Proof.
  intros w. unfold respond.
  destruct r; cbn [snd trace]; rewrite switchCount_snoc; lia.
Qed.

Lemma adds_fetch_csrf (h : Headers) : adds 0 (fetch_csrf env h).
Proof.
  intros w. unfold fetch_csrf.
  exact (adds_respond (EvCsrfToken h) (remote_csrf env (trace w) h) w).
Qed.

Lemma adds_fetch_graphql (op : OpName) (vars : Vars) (h : Headers) :
  adds 0 (fetch_graphql env op vars h).
Proof.
  intros w. unfold fetch_graphql.
  exact (adds_respond (EvGraphQL op vars h)
           (remote_graphql env (trace w) op vars h) w).
Qed.

Lemma adds_fetch_change_user (u : string) (h : Headers) :
  adds 1 (fetch_change_user env u h).
Proof.
  intros w. unfold fetch_change_user.
  exact (adds_respond (EvChangeUser u h)
           (remote_change_user env (trace w) u h) w).
Qed.

Lemma adds_read_query_file : adds 0 (read_query_file env).
Proof.
  intros w. unfold read_query_file.
  destruct (query_file env (trace w)); cbn [snd trace];
    rewrite switchCount_snoc; cbn; lia.
Qed.

#[local] Hint Resolve adds_fetch_csrf adds_fetch_graphql adds_read_query_file
  : switches.

(** One step of a proof that a computation makes no switch request. *)
Ltac unswitched :=
  repeat first
    [ match goal with
      | |- adds 0 (bind _ _) => apply (adds_bind 0 0); [| intros ?]
      | |- adds 0 (try_catch _ _) => apply (adds_try_catch 0 0); [| intros ?]
      | |- adds 0 (ret _) => apply adds_ret
      | |- adds 0 (throw _) => apply adds_throw
      | |- adds 0 get_session => apply adds_get_session
      | |- adds 0 (console _) => apply adds_emit; reflexivity
      | |- adds 0 (sleep _) => apply adds_emit; reflexivity
      | |- adds 0 (set_csrfToken _) => apply adds_set_csrfToken
      | |- adds 0 (set_cookies _) => apply adds_set_cookies
      | |- adds 0 (if ?b then _ else _) => destruct b
      | |- adds 0 (match ?x with _ => _ end) => destruct x
      | |- adds 0 (let _ := _ in _) => cbv zeta
      end
    | solve [auto with switches] ].

Lemma adds_csrfAttempts (h : Headers) (retries : Z) (k : nat) :
  forall a, adds 0 (csrfAttempts env h k a retries).
Proof.
  induction k as [|k IH]; intros a; cbn [csrfAttempts]; unswitched.
Qed.

#[local] Hint Resolve adds_csrfAttempts : switches.

Lemma adds_fetchCsrfToken (retries : Z) : adds 0 (fetchCsrfToken env retries).
Proof. unfold fetchCsrfToken. unswitched. Qed.

#[local] Hint Resolve adds_fetchCsrfToken : switches.

Lemma adds_graphqlQuery (op : OpName) (vars : Vars) (force : bool) :
  adds 0 (graphqlQuery env op vars force).
Proof. unfold graphqlQuery. unswitched. Qed.

#[local] Hint Resolve adds_graphqlQuery : switches.

Lemma adds_verifySwitch : adds 0 (verifySwitch env).
Proof. unfold verifySwitch, user_of. unswitched. Qed.

#[local] Hint Resolve adds_verifySwitch : switches.

(** One switch is one request. *)
Lemma adds_switchOrgContext (u : string) : adds 1 (switchOrgContext env u).
Proof.
  unfold switchOrgContext.
  apply (adds_bind 0 1); [unswitched | intros csrf].
  apply (adds_bind 0 1); [unswitched | intros s].
  apply (adds_bind 1 0); [apply adds_fetch_change_user | intros [status hdr]].
  unswitched.
Qed.

Lemma adds_fetchApplicationDetails (a : string) :
  adds 0 (fetchApplicationDetails env a).
Proof. unfold fetchApplicationDetails. unswitched. Qed.

#[local] Hint Resolve adds_fetchApplicationDetails : switches.

Lemma adds_enrichOne (fetchAll : bool) (c : Candidate) :
  adds 0 (enrichOne env fetchAll c).
Proof. unfold enrichOne. unswitched. Qed.

#[local] Hint Resolve adds_enrichOne : switches.

Lemma adds_promiseAll (fetchAll : bool) (batch : list Candidate) :
  adds 0 (promiseAll (enrichOne env fetchAll) batch).
Proof. induction batch as [|c batch IH]; cbn [promiseAll]; unswitched. Qed.

#[local] Hint Resolve adds_promiseAll : switches.

Lemma adds_enrichBatches (fetchAll : bool) (m : Z) (cs : list Candidate)
  (fuel : nat) :
  forall i enriched, adds 0 (enrichBatches env fuel fetchAll m cs i enriched).
Proof.
  induction fuel as [|fuel IH]; intros i enriched; cbn [enrichBatches];
    unswitched.
  intros w. cbn. lia.
Qed.

#[local] Hint Resolve adds_enrichBatches : switches.

(** Enrichment switches at most once for each group. *)
Lemma adds_enrichGroups (fuel : nat) (fetchAll : bool) (m : Z)
  (orgInfos : list OrgInfo) (groups : list (string * list Candidate)) :
  forall current enriched,
    adds (length groups)
         (enrichGroups env fuel fetchAll m orgInfos groups current enriched).
Proof.
  induction groups as [|[o cs] groups IH]; intros current enriched;
    cbn [enrichGroups length].
  - apply adds_ret.
  - destruct (negb (truthy_opt (userIdOf orgInfos o))).
    + apply (adds_bind 0 (S (length groups))); [unswitched | intros _].
      apply (adds_weaken (length groups)); [lia | apply IH].
    + apply (adds_bind 1 (length groups)).
      * destruct (match current with
                  | Some c => negb (String.eqb c o)
                  | None => true
                  end).
        -- apply (adds_bind 0 1); [unswitched | intros _].
           apply (adds_try_catch 1 0).
           ++ apply (adds_bind 1 0); [apply adds_switchOrgContext |].
              intros _. apply adds_ret.
           ++ intros e. unswitched.
        -- apply (adds_weaken 0); [lia | apply adds_ret].
      * intros switched. destruct (negb switched); [apply IH |].
        apply (adds_bind 0 (length groups)); [unswitched | intros enriched'].
        apply (adds_bind 0 (length groups)); [unswitched | intros _].
        apply IH.
Qed.

(** The listing of the applications makes no switch request. *)
Lemma fetchPages_switches (fuel : nat) :
  forall v w,
    (switchCount (trace (snd (fetchPages env fuel v w)))
     <= switchCount (trace w))%nat.
Proof.
  induction fuel as [|fuel IH]; intros v w; cbn [fetchPages];
    (destruct (negb (hasMore v)); [cbn [snd]; lia |]).
  - cbn [snd]. lia.
  - assert (H : adds 0
                  (data <- graphqlQuery env ApiGetActiveApplications
                             (VActiveApplications (cursor v) pageLimit)
                             false ;;
                   result_of data)).
    { unfold result_of. unswitched. }
    specialize (H w).
    destruct ((data <- graphqlQuery env ApiGetActiveApplications
                         (VActiveApplications (cursor v) pageLimit) false ;;
               result_of data) w) as [[page|e|] w1]; cbn [snd] in *; try lia.
    unfold console, emit. cbn [snd trace session].
    match goal with
    | |- (switchCount (trace (snd (fetchPages env fuel ?v' ?w2))) <= _)%nat =>
        specialize (IH v' w2)
    end.
    cbn [trace] in IH. rewrite switchCount_snoc in IH. cbn [isSwitch] in IH.
    lia.
Qed.

Lemma adds_fetchAllApplications (fuel : nat) :
  adds 0 (fetchAllApplications env fuel).
Proof.
  intros w. unfold fetchAllApplications.
  pose proof (fetchPages_switches fuel initialPageVars w) as H.
  destruct (fetchPages env fuel initialPageVars w) as [[[x|e|] v] w1];
    cbn [snd] in *.
  - assert (Ha : adds 0 (console (LogTotalApplications
                                    (length (allApplications v))) ;;;
                         ret (allApplications v))) by unswitched.
    specialize (Ha w1). lia.
  - assert (Ha : adds 0 (console ErrFetchingApplications ;;;
                         ret (allApplications v))) by unswitched.
    specialize (Ha w1). lia.
  - lia.
Qed.

#[local] Hint Resolve adds_fetchAllApplications : switches.

(** One fetch for an organisation is at most one switch. *)
Lemma adds_fetchPipelineForOrg (fuel : nat) (o : string)
  (userId : option string) :
  adds 1 (fetchPipelineForOrg env fuel o userId).
Proof.
  unfold fetchPipelineForOrg. apply (adds_bind 1 0).
  - unfold switchIfNeeded. destruct userId as [u|].
    + destruct (truthy u && negb (String.eqb o "default"))%bool.
      * apply (adds_try_catch 1 0).
        -- apply (adds_bind 1 0); [apply adds_switchOrgContext | intros _].
           apply adds_ret.
        -- intros e. unswitched.
      * apply (adds_weaken 0); [lia | apply adds_ret].
    + apply (adds_weaken 0); [lia | apply adds_ret].
  - intros [switchedOrg|]; [| apply adds_ret].
    unfold pipelineQueries, jobsPipelines_of, user_of. unswitched.
    intros w. cbn [snd]. lia.
Qed.

Lemma adds_attemptOrg (fuel : nat) (maxRetries : Z) (o : OrgInfo)
  (label : string) (k : nat) :
  forall attempt acc,
    adds k (attemptOrg env fuel k attempt maxRetries o label acc).
Proof.
  induction k as [|k IH]; intros attempt acc; cbn [attemptOrg].
  - apply adds_ret.
  - apply (adds_bind 0 (S k)); [unswitched | intros _].
    apply (adds_bind 1 k).
    + apply (adds_try_catch 1 0).
      * apply (adds_bind 1 0); [apply adds_fetchPipelineForOrg | intros r].
        unswitched.
      * intros e. unswitched.
    + intros [success acc']. destruct success.
      * apply (adds_weaken 0); [lia | apply adds_ret].
      * apply IH.
Qed.

(** The loop of the command: no switch for an organisation without a
    user id, at most one for each attempt on any other. *)
Lemma adds_processOrgs (fuel : nat) (maxRetries : Z) (n : nat)
  (orgs : list OrgInfo) :
  forall i acc,
    adds (Z.to_nat maxRetries
          * length (filter (fun o => truthy (org_userId o)) orgs))
         (processOrgs env fuel maxRetries n i orgs acc).
Proof.
  induction orgs as [|o orgs IH]; intros i acc; cbn [processOrgs filter].
  - rewrite Nat.mul_0_r. apply adds_ret.
  - apply (adds_bind 0 _); [unswitched | intros _].
    destruct (truthy (org_userId o)); cbn [negb length].
    + rewrite Nat.mul_succ_r, Nat.add_comm.
      apply (adds_bind (Z.to_nat maxRetries) _);
        [apply adds_attemptOrg | intros acc'].
      apply (adds_bind 0 _); [unswitched | intros _]. apply IH.
    + apply (adds_bind 0 _); [unswitched | intros _]. apply IH.
Qed.

End SwitchCounting.

Lemma groupByOrg_length (cands : list Candidate) :
  (length (groupByOrg cands) <= length cands)%nat.
Proof.
  unfold groupByOrg.
  assert (H : forall groups,
             (length (fold_left groupInsert cands groups)
              <= length groups + length cands)%nat).
  { induction cands as [|c cands IH]; intros groups; cbn [fold_left length];
      [lia |].
    specialize (IH (groupInsert groups c)).
    assert (Hg : (length (groupInsert groups c) <= S (length groups))%nat).
    { clear. induction groups as [|[k cs] groups IHg];
        cbn [groupInsert length]; [lia |].
      destruct (String.eqb k (orgId c)); cbn [length]; lia. }
    lia. }
  exact (H []).
Qed.

(** X19.  The session is switched no more often than needed.  The loop
    of the command makes no more switch requests than the attempts
    allowed times the organisations that come with a user id (none for
    an organisation without one).  Enrichment makes no more switch
    requests than its input has groups, one for each organisation, which
    are at most as many as it has candidates.  Both hold whatever the
    remote answers and however the run ends. *)
Theorem switches_are_bounded (env : Env) (fuel : nat) (w : World) :
  (forall maxRetries n i orgs acc,
      (switchCount
         (trace (snd (processOrgs env fuel maxRetries n i orgs acc w)))
       <= switchCount (trace w)
          + Z.to_nat maxRetries
            * length (filter (fun o => truthy (org_userId o)) orgs))%nat)
  /\ (forall cands orgInfos maxConcurrent fetchAll,
         (switchCount
            (trace (snd (enrichCandidatesWithDetails env fuel cands orgInfos
                           maxConcurrent fetchAll w)))
          <= switchCount (trace w) + length (groupByOrg cands))%nat
         /\ (length (groupByOrg cands) <= length cands)%nat).
Proof.
  split.
  - intros maxRetries n i orgs acc.
    exact (adds_processOrgs env fuel maxRetries n orgs i acc w).
  - intros cands orgInfos maxConcurrent fetchAll.
    split; [| apply groupByOrg_length].
    unfold enrichCandidatesWithDetails.
    exact (adds_enrichGroups env fuel fetchAll maxConcurrent orgInfos
             (groupByOrg cands) None [] w).
Qed.

(* ------------------------------------------------------------------ *)
(** ** Counting GraphQL calls *)

Create HintDb queries.

Lemma filter_length_perm {A : Type} (f : A -> bool) (l l' : list A) :
  Permutation l l' -> length (filter f l) = length (filter f l').
Proof.
  induction 1 as [|x l l' _ IH|x y l|l l' l'' _ IH1 _ IH2]; cbn [filter].
  - reflexivity.
  - destruct (f x); cbn [length]; lia.
  - destruct (f x), (f y); reflexivity.
  - lia.
Qed.

Lemma filter_length_firstn {A : Type} (f : A -> bool) (n : nat) (l : list A) :
  (length (filter f (firstn n l)) <= length (filter f l))%nat.
Proof.
  rewrite <- (firstn_skipn n l) at 2. rewrite filter_app, length_app. lia.
Qed.

Lemma filter_length_skipn {A : Type} (f : A -> bool) (n : nat) (l : list A) :
  (length (filter f (skipn n l)) <= length (filter f l))%nat.
Proof.
  rewrite <- (firstn_skipn n l) at 2. rewrite filter_app, length_app. lia.
Qed.

(** A slice has no more of anything than the array it is cut from. *)
Lemma filter_length_slice {A : Type} (f : A -> bool) (l : list A)
  (start stop : Z) :
  (length (filter f (slice l start stop)) <= length (filter f l))%nat.
Proof.
  unfold slice. cbv zeta.
  etransitivity; [apply filter_length_firstn | apply filter_length_skipn].
Qed.

(** With a batch size of zero, or a negative one once the index is
    negative, every batch is empty. *)
Lemma slice_empty {A : Type} (l : list A) (i m : Z) :
  m = 0 \/ (m < 0 /\ i < 0) -> slice l i (i + m) = [].
Proof.
  intros H. unfold slice. cbv zeta.
  match goal with
  | |- firstn ?n _ = [] => replace n with 0%nat; [reflexivity |]
  end.
  destruct (Z.ltb_spec i 0), (Z.ltb_spec (i + m) 0); lia.
Qed.

Lemma queryCount_snoc (op : OpName) (evs : list Event) (e : Event) :
  queryCount op (evs ++ [e])
  = (queryCount op evs + if isQuery op e then 1 else 0)%nat.
Proof.
  rewrite queryCount_app. unfold queryCount. cbn [filter].
  destruct (isQuery op e); reflexivity.
Qed.

Lemma isQuery_other (op : OpName) (op' : OpName) (vars : Vars) (h : Headers)
  (r : Http GqlBody) :
  op' <> op -> isQuery op (EvGraphQL op' vars h r) = false.
Proof. intros H. destruct op', op; try reflexivity; now elim H. Qed.

Lemma sends_bind (op : OpName) {A B : Type} (k1 k2 : nat) (m : M A) (f : A -> M B) :
  sends op k1 m -> (forall a, sends op k2 (f a)) ->
  sends op (k1 + k2) (bind m f).
Proof.
  intros Hm Hf w. unfold bind. specialize (Hm w).
  destruct (m w) as [[a|e|] w1]; cbn [snd] in *.
  - specialize (Hf a w1). lia.
  - lia.
  - lia.
Qed.

Lemma sends_try_catch (op : OpName) {A : Type} (k1 k2 : nat) (m : M A)
  (handler : Error -> M A) :
  sends op k1 m -> (forall e, sends op k2 (handler e)) ->
  sends op (k1 + k2) (try_catch m handler).
Proof.
  intros Hm Hh w. unfold try_catch. specialize (Hm w).
  destruct (m w) as [[a|e|] w1]; cbn [snd] in *.
  - lia.
  - specialize (Hh e w1). lia.
  - lia.
Qed.

Lemma sends_weaken (op : OpName) {A : Type} (k k' : nat) (m : M A) :
  (k <= k')%nat -> sends op k m -> sends op k' m.
Proof. intros Hk Hm w. specialize (Hm w). lia. Qed.

Lemma sends_ret (op : OpName) {A : Type} (a : A) : sends op 0 (ret a).
Proof. intros w. unfold ret. cbn [snd]. lia. Qed.

Lemma sends_throw (op : OpName) {A : Type} (e : Error) : sends op 0 (@throw A e).
Proof. intros w. unfold throw. cbn [snd]. lia. Qed.

Lemma sends_get_session (op : OpName) : sends op 0 get_session.
Proof. intros w. unfold get_session. cbn [snd]. lia. Qed.

Lemma sends_set_csrfToken (op : OpName) (t : option string) : sends op 0 (set_csrfToken t).
Proof. intros w. unfold set_csrfToken. cbn [snd trace]. lia. Qed.

Lemma sends_set_cookies (op : OpName) (cs : Cookies) : sends op 0 (set_cookies cs).
Proof. intros w. unfold set_cookies. cbn [snd trace]. lia. Qed.

Lemma sends_emit (op : OpName) (e : Event) : isQuery op e = false -> sends op 0 (emit e).
Proof.
  intros He w. cbn [emit snd trace]. rewrite queryCount_snoc, He. lia.
Qed.

Lemma sends_console (op : OpName) (m : ConsoleMsg) : sends op 0 (console m).
Proof. apply sends_emit. reflexivity. Qed.

Lemma sends_sleep (op : OpName) (ms : Z) : sends op 0 (sleep ms).
Proof. apply sends_emit. reflexivity. Qed.

Lemma sends_respond (op : OpName) {B : Type} (ev : Http B -> Event) (r : Http B) :
  sends op (if isQuery op (ev r) then 1 else 0) (respond ev r).
Proof.
  intros w. unfold respond.
  destruct r; cbn [snd trace]; rewrite queryCount_snoc; lia.
Qed.

(** One step of a proof that a computation makes no call of an operation. *)
Ltac unsent :=
  repeat first
    [ match goal with
      | |- sends _ 0 (bind _ _) => apply (sends_bind _ 0 0); [| intros ?]
      | |- sends _ 0 (try_catch _ _) =>
          apply (sends_try_catch _ 0 0); [| intros ?]
      | |- sends _ 0 (ret _) => apply sends_ret
      | |- sends _ 0 (throw _) => apply sends_throw
      | |- sends _ 0 get_session => apply sends_get_session
      | |- sends _ 0 (set_csrfToken _) => apply sends_set_csrfToken
      | |- sends _ 0 (set_cookies _) => apply sends_set_cookies
      | |- sends _ 0 (if ?b then _ else _) => destruct b
      | |- sends _ 0 (match ?x with _ => _ end) => destruct x
      | |- sends _ 0 (let _ := _ in _) => cbv zeta
      end
    | solve [auto with queries] ].

Section QueryCounting.

Variable env : Env.
Variable op : OpName.

Lemma sends_fetch_csrf (h : Headers) : sends op 0 (fetch_csrf env h).
Proof.
  intros w. unfold fetch_csrf.
  exact (sends_respond op (EvCsrfToken h) (remote_csrf env (trace w) h) w).
Qed.

Lemma sends_fetch_change_user (u : string) (h : Headers) :
  sends op 0 (fetch_change_user env u h).
Proof.
  intros w. unfold fetch_change_user.
  exact (sends_respond op (EvChangeUser u h)
           (remote_change_user env (trace w) u h) w).
Qed.

(** One [fetch] of the GraphQL endpoint is one call. *)
Lemma sends_fetch_graphql (op' : OpName) (vars : Vars) (h : Headers) :
  sends op 1 (fetch_graphql env op' vars h).
Proof.
  intros w. unfold fetch_graphql.
  pose proof (sends_respond op (EvGraphQL op' vars h)
                (remote_graphql env (trace w) op' vars h) w) as H.
  destruct (isQuery op _) in H; lia.
Qed.

Lemma sends_fetch_graphql_other (op' : OpName) (vars : Vars) (h : Headers) :
  op' <> op -> sends op 0 (fetch_graphql env op' vars h).
Proof.
  intros Hop w. unfold fetch_graphql.
  pose proof (sends_respond op (EvGraphQL op' vars h)
                (remote_graphql env (trace w) op' vars h) w) as H.
  now rewrite (isQuery_other op _ _ _ _ Hop) in H.
Qed.

Lemma sends_read_query_file : sends op 0 (read_query_file env).
Proof.
  intros w. unfold read_query_file.
  destruct (query_file env (trace w)); cbn [snd trace];
    rewrite queryCount_snoc; cbn; lia.
Qed.

#[local] Hint Resolve sends_fetch_csrf sends_fetch_change_user
  sends_read_query_file sends_console sends_sleep : queries.

Lemma sends_csrfAttempts (h : Headers) (retries : Z) (k : nat) :
  forall a, sends op 0 (csrfAttempts env h k a retries).
Proof.
  induction k as [|k IH]; intros a; cbn [csrfAttempts]; unsent.
Qed.

#[local] Hint Resolve sends_csrfAttempts : queries.

Lemma sends_fetchCsrfToken (retries : Z) :
  sends op 0 (fetchCsrfToken env retries).
Proof. unfold fetchCsrfToken. unsent. Qed.

#[local] Hint Resolve sends_fetchCsrfToken : queries.

(** One GraphQL call is at most one request, of its own operation. *)
Lemma sends_graphqlQuery (op' : OpName) (vars : Vars) (force : bool) :
  sends op 1 (graphqlQuery env op' vars force).
Proof.
  unfold graphqlQuery.
  apply (sends_bind op 0 1); [unsent | intros s].
  apply (sends_bind op 0 1); [unsent | intros csrf].
  apply (sends_bind op 0 1); [unsent | intros s'].
  cbv zeta.
  apply (sends_bind op 1 0); [apply sends_fetch_graphql | intros [status body]].
  unsent.
Qed.

Lemma sends_graphqlQuery_other (op' : OpName) (vars : Vars) (force : bool) :
  op' <> op -> sends op 0 (graphqlQuery env op' vars force).
Proof.
  intros Hop. unfold graphqlQuery.
  apply (sends_bind op 0 0); [unsent | intros s].
  apply (sends_bind op 0 0); [unsent | intros csrf].
  apply (sends_bind op 0 0); [unsent | intros s'].
  cbv zeta.
  apply (sends_bind op 0 0);
    [now apply sends_fetch_graphql_other | intros [status body]].
  unsent.
Qed.

Lemma sends_user_of (d : GqlData) : sends op 0 (user_of d).
Proof. unfold user_of. unsent. Qed.

Lemma sends_jobsPipelines_of (d : GqlData) : sends op 0 (jobsPipelines_of d).
Proof. unfold jobsPipelines_of. unsent. Qed.

#[local] Hint Resolve sends_user_of sends_jobsPipelines_of : queries.

(** The switch asks for the session user only. *)
Lemma sends_verifySwitch :
  ApiGetSessionUser <> op -> sends op 0 (verifySwitch env).
Proof.
  intros Hop. unfold verifySwitch.
  apply (sends_try_catch op 0 0); [| intros e; unsent].
  apply (sends_bind op 0 0); [now apply sends_graphqlQuery_other | intros d].
  unsent.
Qed.

Lemma sends_switchOrgContext (u : string) :
  ApiGetSessionUser <> op -> sends op 0 (switchOrgContext env u).
Proof.
  intros Hop. pose proof (sends_verifySwitch Hop) as Hv.
  unfold switchOrgContext. unsent; exact Hv.
Qed.

Lemma sends_switchIfNeeded (o : string) (u : option string) :
  ApiGetSessionUser <> op -> sends op 0 (switchIfNeeded env o u).
Proof.
  intros Hop. unfold switchIfNeeded.
  destruct u as [u|]; [| apply sends_ret].
  destruct (truthy u && negb (String.eqb o "default"))%bool;
    [| apply sends_ret].
  apply (sends_try_catch op 0 0); [| intros e; unsent].
  apply (sends_bind op 0 0); [now apply sends_switchOrgContext | intros _].
  apply sends_ret.
Qed.

(** The details of one application are one call at most. *)
Lemma sends_fetchApplicationDetails (a : string) :
  sends op 1 (fetchApplicationDetails env a).
Proof.
  unfold fetchApplicationDetails.
  apply (sends_try_catch op 1 0); [| intros e; unsent].
  apply (sends_bind op 0 1); [unsent | intros q].
  apply (sends_bind op 1 0); [apply sends_graphqlQuery | intros d].
  unsent.
Qed.

Section Enrichment.

Variable fetchAll : bool.

Let wanted (cs : list Candidate) : nat :=
  length (filter (wantsDetails fetchAll) cs).

(** The mapper asks for the details of a candidate it wants them of,
    once, and of no other. *)
Lemma sends_enrichOne (c : Candidate) :
  sends op (if wantsDetails fetchAll c then 1 else 0)
        (enrichOne env fetchAll c).
Proof.
  unfold enrichOne, wantsDetails.
  destruct (negb fetchAll && negb (needsScheduling c))%bool; cbn [negb].
  - apply sends_ret.
  - apply (sends_bind op 1 0); [apply sends_fetchApplicationDetails |].
    intros d. unsent.
Qed.

Lemma sends_promiseAll (batch : list Candidate) :
  sends op (wanted batch) (promiseAll (enrichOne env fetchAll) batch).
Proof.
  induction batch as [|c batch IH]; cbn [promiseAll].
  - apply sends_ret.
  - apply (sends_weaken op
             ((if wantsDetails fetchAll c then 1 else 0)
              + (wanted batch + 0))).
    { unfold wanted. cbn [filter].
      destruct (wantsDetails fetchAll c); cbn [length]; lia. }
    apply sends_bind; [apply sends_enrichOne | intros y].
    apply sends_bind; [exact IH | intros ys]. apply sends_ret.
Qed.

Lemma sends_enrichBatches_empty (m : Z) (cs : list Candidate) (fuel : nat) :
  forall i enriched,
    m = 0 \/ (m < 0 /\ i < 0) ->
    sends op 0 (enrichBatches env fuel fetchAll m cs i enriched).
Proof.
  induction fuel as [|fuel IH]; intros i enriched Hm; cbn [enrichBatches];
    (destruct (negb (i <? Z.of_nat (length cs))); [apply sends_ret |]).
  - intros w. cbn [snd]. lia.
  - rewrite (slice_empty cs i m Hm). cbn [promiseAll].
    apply (sends_bind op 0 0); [apply sends_ret | intros ys].
    apply IH. lia.
Qed.

Lemma sends_enrichBatches_from (m : Z) (cs : list Candidate) (fuel : nat) :
  1 <= m ->
  forall i enriched,
    0 <= i ->
    sends op (wanted (skipn (Z.to_nat i) cs))
          (enrichBatches env fuel fetchAll m cs i enriched).
Proof.
  intros Hm.
  induction fuel as [|fuel IH]; intros i enriched Hi; cbn [enrichBatches];
    (destruct (Z.ltb_spec i (Z.of_nat (length cs))) as [Hlt|Hge];
     cbn [negb]; [| apply (sends_weaken op 0); [lia | apply sends_ret]]).
  - intros w. cbn [snd]. lia.
  - apply (sends_weaken op
             (wanted (slice cs i (i + m))
              + wanted (skipn (Z.to_nat (i + m)) cs))).
    { unfold wanted. rewrite (slice_batch cs i m Hi Hm Hlt) at 1.
      rewrite filter_app, length_app. lia. }
    apply sends_bind; [apply sends_promiseAll | intros ys].
    apply IH. lia.
Qed.

(** Whatever the batch size, the batches of one group hold no candidate
    twice. *)
Lemma sends_enrichBatches (m : Z) (cs : list Candidate) (fuel : nat)
  (enriched : list Candidate) :
  sends op (wanted cs) (enrichBatches env fuel fetchAll m cs 0 enriched).
Proof.
  destruct (Z.lt_trichotomy m 0) as [Hneg | [Hzero | Hpos]].
  - destruct fuel as [|fuel]; cbn [enrichBatches];
      (destruct (negb (0 <? Z.of_nat (length cs)));
       [apply (sends_weaken op 0); [lia | apply sends_ret] |]).
    + intros w. cbn [snd]. lia.
    + apply (sends_weaken op (wanted (slice cs 0 (0 + m)) + 0)).
      { unfold wanted. pose proof (filter_length_slice
                                     (wantsDetails fetchAll) cs 0 (0 + m)).
        lia. }
      apply sends_bind; [apply sends_promiseAll | intros ys].
      apply sends_enrichBatches_empty. lia.
  - apply (sends_weaken op 0); [lia |].
    apply sends_enrichBatches_empty. lia.
  - exact (sends_enrichBatches_from m cs fuel ltac:(lia) 0 enriched
             ltac:(lia)).
Qed.

Hypothesis not_user : ApiGetSessionUser <> op.

Lemma sends_enrichGroups (fuel : nat) (m : Z) (orgInfos : list OrgInfo)
  (groups : list (string * list Candidate)) :
  forall current enriched,
    sends op (wanted (flat_map snd groups))
          (enrichGroups env fuel fetchAll m orgInfos groups current enriched).
Proof.
  induction groups as [|[o cs] groups IH]; intros current enriched;
    cbn [enrichGroups flat_map snd].
  - apply sends_ret.
  - assert (Hw : wanted (cs ++ flat_map snd groups)
                 = (wanted cs + wanted (flat_map snd groups))%nat).
    { unfold wanted. now rewrite filter_app, length_app. }
    rewrite Hw.
    destruct (negb (truthy_opt (userIdOf orgInfos o))).
    + apply (sends_weaken op (0 + wanted (flat_map snd groups))); [lia |].
      apply sends_bind; [unsent | intros _]. apply IH.
    + apply (sends_weaken op (0 + (wanted cs + wanted (flat_map snd groups))));
        [lia |].
      apply sends_bind.
      * destruct (match current with
                  | Some c => negb (String.eqb c o)
                  | None => true
                  end); [| apply sends_ret].
        apply (sends_bind op 0 0); [unsent | intros _].
        apply (sends_try_catch op 0 0); [| intros e; unsent].
        apply (sends_bind op 0 0);
          [now apply sends_switchOrgContext | intros _].
        apply sends_ret.
      * intros switched. destruct (negb switched).
        { apply (sends_weaken op (wanted (flat_map snd groups))); [lia |].
          apply IH. }
        apply sends_bind; [apply sends_enrichBatches | intros enriched'].
        apply (sends_weaken op (0 + wanted (flat_map snd groups))); [lia |].
        apply sends_bind; [unsent | intros _]. apply IH.
Qed.

Lemma sends_enrichCandidatesWithDetails (fuel : nat)
  (cands : list Candidate) (orgInfos : list OrgInfo) (m : Z) :
  sends op (wanted cands)
        (enrichCandidatesWithDetails env fuel cands orgInfos m fetchAll).
Proof.
  unfold enrichCandidatesWithDetails.
  replace (wanted cands) with (wanted (flat_map snd (groupByOrg cands))).
  - apply sends_enrichGroups.
  - unfold wanted. apply filter_length_perm, groupByOrg_perm.
Qed.

End Enrichment.

End QueryCounting.

(** X20.  Enrichment asks for the details of a candidate once at most,
    and only of the candidates it is meant to look up: all of them when
    [fetchAll] is set, and otherwise those that need scheduling.  So the
    number of detail requests of one enrichment is at most the number of
    such candidates in its input, whatever the batch size, whatever the
    remote answers and however the run ends. *)
Theorem details_are_requested_once_at_most (env : Env) (fuel : nat)
  (cands : list Candidate) (orgInfos : list OrgInfo) (maxConcurrent : Z)
  (fetchAll : bool) (w : World) :
  let w' := snd (enrichCandidatesWithDetails env fuel cands orgInfos
                   maxConcurrent fetchAll w) in
  (queryCount ApiApplication (trace w')
   <= queryCount ApiApplication (trace w)
      + length (filter (wantsDetails fetchAll) cands))%nat
  /\ (fetchAll = false ->
      (queryCount ApiApplication (trace w')
       <= queryCount ApiApplication (trace w)
          + length (filter needsScheduling cands))%nat)
  /\ (fetchAll = true ->
      (queryCount ApiApplication (trace w')
       <= queryCount ApiApplication (trace w) + length cands)%nat).
Proof.
  intros w'.
  assert (H : (queryCount ApiApplication (trace w')
               <= queryCount ApiApplication (trace w)
                  + length (filter (wantsDetails fetchAll) cands))%nat).
  { apply (sends_enrichCandidatesWithDetails env ApiApplication fetchAll).
    discriminate. }
  split; [exact H |]. split; intros Hf; subst fetchAll.
  - rewrite (filter_ext (wantsDetails false) needsScheduling) in H;
      [exact H |].
    intros c. unfold wantsDetails. cbn [negb andb].
    now destruct (needsScheduling c).
  - pose proof (filter_length_le (wantsDetails true) cands). lia.
Qed.

(* ------------------------------------------------------------------ *)
(** ** Where the fetch of one organisation can fail *)

#[local] Hint Resolve sends_console sends_sleep sends_jobsPipelines_of
  : queries.

Section FetchFailure.

Variable env : Env.

Lemma catches_fetchAllApplications (fuel : nat) :
  catches (fetchAllApplications env fuel).
Proof.
  intros w e. unfold fetchAllApplications.
  destruct (fetchPages env fuel initialPageVars w) as [[[x|e'|] v] w1];
    cbn; discriminate.
Qed.

Lemma catches_switchIfNeeded (o : string) (u : option string) :
  catches (switchIfNeeded env o u).
Proof.
  unfold switchIfNeeded. destruct u as [u|]; [| apply catches_ret].
  destruct (truthy u && negb (String.eqb o "default"))%bool;
    [| apply catches_ret].
  through.
Qed.

Lemma extends_switchIfNeeded (o : string) (u : option string) (w : World) :
  exists evs, trace (snd (switchIfNeeded env o u w)) = trace w ++ evs.
Proof.
  pose proof (Stable_extends (trace w)) as HS.
  assert (Hp : preserves (fun w' => exists evs, trace w' = trace w ++ evs)
                 (switchIfNeeded env o u)).
  { apply keeps_switchIfNeeded; intros;
      first [now apply preserves_emit | now apply preserves_switchOrgContext]. }
  apply Hp. exists []. now rewrite app_nil_r.
Qed.

End FetchFailure.



(* ------------------------------------------------------------------ *)
(** ** The joins of the export *)

Section LookupLast.

Context {A : Type}.
Variable key : A -> string.
Variable k : string.

Let step (found : option A) (x : A) : option A :=
  if String.eqb (key x) k then Some x else found.

Lemma lookup_fold_some (items : list A) :
  forall x, exists y, fold_left step items (Some x) = Some y.
Proof.
  induction items as [|a items IH]; intros x; cbn [fold_left].
  - now exists x.
  - unfold step at 2. destruct (String.eqb (key a) k); apply IH.
Qed.

Lemma lookup_fold_found (items : list A) :
  forall found,
    In k (map key items) -> exists y, fold_left step items found = Some y.
Proof.
  induction items as [|a items IH]; intros found Hin; cbn [fold_left].
  - destruct Hin.
  - unfold step at 2. destruct (String.eqb (key a) k) eqn:Heq.
    + apply lookup_fold_some.
    + apply IH. destruct Hin as [Ha | Hin]; [| exact Hin].
      apply String.eqb_neq in Heq. now elim Heq.
Qed.

Lemma lookup_fold_origin (items : list A) :
  forall found y,
    fold_left step items found = Some y ->
    found = Some y \/ (In y items /\ key y = k).
Proof.
  induction items as [|a items IH]; intros found y H; cbn [fold_left] in H.
  - now left.
  - apply IH in H. destruct H as [H | [Hin Hk]].
    + unfold step in H. destruct (String.eqb (key a) k) eqn:Heq.
      * injection H as <-. right. split; [now left |].
        now apply String.eqb_eq.
      * now left.
    + right. split; [now right | exact Hk].
Qed.

(** A key that occurs is found, and what is found has the key. *)
Lemma lookupLast_found (items : list A) :
  In k (map key items) ->
  exists y, lookupLast key items k = Some y /\ In y items /\ key y = k.
Proof.
  intros Hin. destruct (lookup_fold_found items None Hin) as (y & Hy).
  exists y. split; [exact Hy |].
  destruct (lookup_fold_origin items None y Hy) as [H | H];
    [discriminate | exact H].
Qed.

End LookupLast.

Lemma Linked_left (cs cs' : list Company) (js js' : list Job)
  (c : Candidate) :
  Linked cs js c -> Linked (cs ++ cs') (js ++ js') c.
Proof.
  intros [Hj Hc]. unfold Linked. rewrite !map_app.
  split; apply in_or_app; now left.
Qed.

Lemma Linked_right (cs cs' : list Company) (js js' : list Job)
  (c : Candidate) :
  Linked cs' js' c -> Linked (cs ++ cs') (js ++ js') c.
Proof.
  intros [Hj Hc]. unfold Linked. rewrite !map_app.
  split; apply in_or_app; now right.
Qed.

Lemma AccLinked_addResult (acc : Acc) (r : PipelineFetchResult) :
  AccLinked acc ->
  Forall (Linked (companies r) (jobs r)) (candidates r) ->
  AccLinked (addResult acc r).
Proof.
  unfold AccLinked, addResult. cbn [allCompanies allJobs allCandidates].
  intros Ha Hr. apply Forall_app. split.
  - eapply Forall_impl; [| exact Ha]. intros c. apply Linked_left.
  - eapply Forall_impl; [| exact Hr]. intros c. apply Linked_right.
Qed.

Lemma slice_In {A : Type} (l : list A) (start stop : Z) (x : A) :
  In x (slice l start stop) -> In x l.
Proof.
  unfold slice. cbv zeta. intros H.
  match type of H with
  | In x (firstn ?n (skipn ?m l)) =>
      rewrite <- (firstn_skipn m l); apply in_or_app; right;
      rewrite <- (firstn_skipn n (skipn m l)); apply in_or_app; now left
  end.
Qed.

Section Joins.

Variable env : Env.

(** Normalisation gives every candidate its job and its company. *)
Lemma normalizePipelineData_linked (now : Z)
  (jobsPipelines : list JobPipeline) (applications : list ApplicationResult)
  (theOrgId : string) (theOrgName : option string) :
  let r := normalizePipelineData env now jobsPipelines applications theOrgId
                                 theOrgName in
  Forall (Linked (companies r) (jobs r)) (candidates r).
Proof.
  cbv zeta. unfold normalizePipelineData. cbv zeta.
  assert (Hempty : Fit [] []).
  { repeat split; [constructor | constructor | intros j []]. }
  pose proof (jobs_fold jobsPipelines [] [] Hempty) as Hjobs.
  cbv zeta in Hjobs.
  destruct (fold_left _ jobsPipelines ([], [])) as [cs js] eqn:Hfj.
  cbn [fst snd] in Hjobs. destruct Hjobs as (Hfit & _ & _).
  pose proof (apps_fold env now theOrgId theOrgName applications cs js []
                Hfit) as Happs.
  cbv zeta in Happs.
  destruct (fold_left _ applications (cs, js, [])) as [[cs' js'] cands]
    eqn:Hfa.
  cbn [fst snd companies jobs candidates] in *.
  destruct Happs as (_ & _ & _ & Hall); [intros c [] |].
  apply Forall_forall. intros c Hin. exact (Hall c Hin).
Qed.

Lemma yields_fetchPipelineForOrg_linked (fuel : nat) (o : string)
  (u : option string) :
  yields (fetchPipelineForOrg env fuel o u)
         (fun r => Forall (Linked (companies r) (jobs r)) (candidates r)).
Proof.
  unfold fetchPipelineForOrg.
  eapply yields_bind; [apply yields_any | intros sw _].
  destruct sw as [b|]; [| apply yields_ret; constructor].
  unfold pipelineQueries. returning.
  intros w r w' H. injection H as <- _.
  apply normalizePipelineData_linked.
Qed.

Lemma yields_attemptOrg_linked (fuel : nat) (maxRetries : Z) (o : OrgInfo)
  (label : string) (k : nat) :
  forall attempt acc,
    AccLinked acc ->
    yields (attemptOrg env fuel k attempt maxRetries o label acc) AccLinked.
Proof.
  induction k as [|k IH]; intros attempt acc Hacc; cbn [attemptOrg].
  - now apply yields_ret.
  - eapply yields_bind; [apply yields_any | intros _ _].
    eapply (yields_bind _ _ (fun step => AccLinked (snd step))).
    + apply yields_try_catch.
      * eapply yields_bind;
          [apply yields_fetchPipelineForOrg_linked | intros r Hr].
        eapply yields_bind; [apply yields_any | intros _ _].
        apply yields_ret. cbn [snd]. now apply AccLinked_addResult.
      * intros e. destruct (attempt =? maxRetries).
        -- eapply yields_bind; [apply yields_any | intros _ _].
           apply yields_ret. exact Hacc.
        -- eapply yields_bind; [apply yields_any | intros _ _].
           eapply yields_bind; [apply yields_any | intros _ _].
           apply yields_ret. exact Hacc.
    + intros [success acc'] Hacc'. cbn [snd] in Hacc'.
      destruct success; [now apply yields_ret | now apply IH].
Qed.

Lemma yields_processOrgs_linked (fuel : nat) (maxRetries : Z) (n : nat)
  (orgs : list OrgInfo) :
  forall i acc,
    AccLinked acc ->
    yields (processOrgs env fuel maxRetries n i orgs acc) AccLinked.
Proof.
  induction orgs as [|o orgs IH]; intros i acc Hacc; cbn [processOrgs].
  - now apply yields_ret.
  - eapply yields_bind; [apply yields_any | intros _ _].
    destruct (negb (truthy (org_userId o))).
    + eapply yields_bind; [apply yields_any | intros _ _].
      apply IH. exact Hacc.
    + eapply yields_bind;
        [apply yields_attemptOrg_linked; exact Hacc | intros acc' Hacc'].
      eapply yields_bind; [apply yields_any | intros _ _].
      now apply IH.
Qed.

(** What holds of every record that goes into the enrichment, and is
    not touched by working details into a record, holds of every record
    that comes out. *)
Section Kept.

Variable R : Candidate -> Prop.
Hypothesis R_applyDetails : forall c d, R c -> R (applyDetails env c d).

Variable fetchAll : bool.

Lemma yields_enrichOne_kept (c : Candidate) :
  R c -> yields (enrichOne env fetchAll c) R.
Proof.
  intros Hc. unfold enrichOne.
  destruct (negb fetchAll && negb (needsScheduling c))%bool;
    [now apply yields_ret |].
  eapply yields_bind; [apply yields_any | intros d _].
  destruct d as [d|]; apply yields_ret; [now apply R_applyDetails | exact Hc].
Qed.

Lemma yields_promiseAll_kept (batch : list Candidate) :
  Forall R batch ->
  yields (promiseAll (enrichOne env fetchAll) batch) (Forall R).
Proof.
  induction batch as [|c batch IH]; intros Hb; cbn [promiseAll].
  - apply yields_ret. constructor.
  - inversion Hb as [|? ? Hc Hrest]; subst.
    eapply yields_bind; [apply yields_enrichOne_kept; exact Hc | intros y Hy].
    eapply yields_bind; [apply IH; exact Hrest | intros ys Hys].
    apply yields_ret. now constructor.
Qed.

Lemma yields_enrichBatches_kept (m : Z) (cs : list Candidate) (fuel : nat) :
  Forall R cs ->
  forall i enriched,
    Forall R enriched ->
    yields (enrichBatches env fuel fetchAll m cs i enriched) (Forall R).
Proof.
  intros Hcs.
  induction fuel as [|fuel IH]; intros i enriched He; cbn [enrichBatches];
    (destruct (negb (i <? Z.of_nat (length cs))); [now apply yields_ret |]).
  - intros w a w' H. discriminate.
  - eapply yields_bind.
    + apply yields_promiseAll_kept. apply Forall_forall. intros x Hx.
      apply slice_In in Hx. revert x Hx. now apply Forall_forall.
    + intros ys Hys. apply IH. apply Forall_app. now split.
Qed.

Lemma yields_enrichGroups_kept (fuel : nat) (m : Z) (orgInfos : list OrgInfo)
  (groups : list (string * list Candidate)) :
  Forall R (flat_map snd groups) ->
  forall current enriched,
    Forall R enriched ->
    yields (enrichGroups env fuel fetchAll m orgInfos groups current enriched)
           (Forall R).
Proof.
  induction groups as [|[o cs] groups IH]; intros Hg current enriched He;
    cbn [enrichGroups].
  - now apply yields_ret.
  - cbn [flat_map snd] in Hg. apply Forall_app in Hg.
    destruct Hg as [Hcs Hg].
    assert (Hboth : Forall R (enriched ++ cs)) by (apply Forall_app; now split).
    destruct (negb (truthy_opt (userIdOf orgInfos o))).
    + eapply yields_bind; [apply yields_any | intros _ _].
      now apply IH.
    + eapply yields_bind; [apply yields_any | intros switched _].
      destruct (negb switched); [now apply IH |].
      eapply yields_bind;
        [apply yields_enrichBatches_kept; [exact Hcs | exact He] |].
      intros enriched' He'.
      eapply yields_bind; [apply yields_any | intros _ _].
      now apply IH.
Qed.

Lemma yields_enrichCandidatesWithDetails_kept (fuel : nat)
  (cands : list Candidate) (orgInfos : list OrgInfo) (m : Z) :
  Forall R cands ->
  yields (enrichCandidatesWithDetails env fuel cands orgInfos m fetchAll)
         (Forall R).
Proof.
  intros Hc. unfold enrichCandidatesWithDetails.
  apply yields_enrichGroups_kept; [| constructor].
  eapply Permutation_Forall; [| exact Hc].
  apply Permutation_sym, groupByOrg_perm.
Qed.

End Kept.

End Joins.

(** X22.  No row of the export misses its job or its company.  In the
    data that the command hands to the exporters, every candidate names a
    job and a company of the data, so the look-ups of the CSV export never
    fail: the [job_title] column of a row is the title of a job of the
    data with the job id of the candidate, and the [company_name] column
    is the organisation name of the candidate or, without one, the name
    of a company of the data with the company id of the candidate. *)
Theorem exported_rows_find_job_and_company (env : Env) (fuel : nat)
  (options : ExtractOptions) (loaded : option AshbySession)
  (data : PipelineFetchResult) (failed files : list string)
  (evs : list Event) (cand : Candidate) (cols : InterviewColumns) :
  extractCommand env fuel options loaded
  = (Ret (Exported data failed files), evs) ->
  In cand (candidates data) ->
  exists j co,
    In j (jobs data) /\ job_id j = jobId cand
    /\ In co (companies data) /\ company_id co = companyId cand
    /\ nth_error (csvRow data cols cand) 1 = Some (job_title j)
    /\ nth_error (csvRow data cols cand) 0
       = Some (match or_null (orgName cand) with
               | Some n => n
               | None => company_name co
               end).
Proof.
  unfold extractCommand. destruct loaded as [s|]; [| discriminate].
  destruct (extractWithSession env fuel options (mkWorld s [])) as [r w1]
    eqn:E.
  intros H Hin. injection H as -> _.
  unfold extractWithSession in E.
  bind_ret E s0 w2 H0 E.
  destruct (negb (hasAuthCookie s0)); [discriminate |].
  bind_ret E discovered w3 H1 E.
  destruct discovered as [err | [|o orgInfos]]; try discriminate.
  destruct (selectOrgs options (o :: orgInfos)) as [orgs|]; [| discriminate].
  bind_ret E acc w4 H2 E.
  assert (Hacc : AccLinked acc).
  { eapply yields_processOrgs_linked; [| exact H2]. constructor. }
  destruct (allCandidates acc) as [|c cs] eqn:Hc; [discriminate |].
  bind_ret E final w5 H3 E.
  injection E as <- <- <-. cbn [candidates jobs companies] in *.
  assert (Hfinal : Forall (Linked (allCompanies acc) (allJobs acc)) final).
  { unfold AccLinked in Hacc. rewrite Hc in Hacc.
    destruct (opt_detailed options).
    - apply try_catch_inv in H3.
      destruct H3 as [(out & Hr & Heq) | [(e & w6 & Hr & Hh) | (_ & Heq)]];
        [| | discriminate].
      + injection Heq as <-.
        eapply (yields_enrichCandidatesWithDetails_kept env
                  (Linked (allCompanies acc) (allJobs acc)));
          [| exact Hacc | exact Hr].
        intros c0 d Hc0. exact Hc0.
      + injection Hh as <- _. exact Hacc.
    - injection H3 as <- _. exact Hacc. }
  rewrite Forall_forall in Hfinal. destruct (Hfinal cand Hin) as [Hj Hco].
  destruct (lookupLast_found job_id (jobId cand) (allJobs acc) Hj)
    as (j & Hlj & Hinj & Hkj).
  destruct (lookupLast_found company_id (companyId cand) (allCompanies acc)
              Hco) as (co & Hlc & Hinc & Hkc).
  exists j, co. repeat split; try assumption.
  - unfold csvRow. cbv zeta. cbn [nth_error jobs]. rewrite Hlj. reflexivity.
  - unfold csvRow. cbv zeta. cbn [nth_error companies]. rewrite Hlc.
    cbn [option_map opt_or_else]. unfold or_else.
    destruct (or_null (orgName cand)); [reflexivity |].
    now destruct (company_name co).
Qed.

Lemma exported_rows_witness :
  exists j co,
    job_id j = "job-1"%string
    /\ company_id co
       = companyId (candidateOf (mockEnv twoTenants) 864000000 "org-a"
                      (Some "Acme"%string) (application "ann"))
    /\ nth_error
         (csvRow
            (match fst (extractCommand (mockEnv twoTenants) 5 defaultOptions
                          (Some aliceSession)) with
             | Ret (Exported data _ _) => data
             | _ => emptyResult
             end)
            (mkColumns "" "" "" "")
            (candidateOf (mockEnv twoTenants) 864000000 "org-a"
               (Some "Acme"%string) (application "ann")))
         1
       = Some (job_title j).
Proof.
  assert (Hrun :
            extractCommand (mockEnv twoTenants) 5 defaultOptions
                           (Some aliceSession)
            = (Ret (Exported
                      (match fst (extractCommand (mockEnv twoTenants) 5
                                    defaultOptions (Some aliceSession)) with
                       | Ret (Exported data _ _) => data
                       | _ => emptyResult
                       end)
                      [] ["out.json"; "out.csv"]%string),
               snd (extractCommand (mockEnv twoTenants) 5 defaultOptions
                      (Some aliceSession)))).
  { vm_compute. reflexivity. }
  assert (Hin :
            In (candidateOf (mockEnv twoTenants) 864000000 "org-a"
                  (Some "Acme"%string) (application "ann"))
               (candidates
                  (match fst (extractCommand (mockEnv twoTenants) 5
                                defaultOptions (Some aliceSession)) with
                   | Ret (Exported data _ _) => data
                   | _ => emptyResult
                   end))).
  { vm_compute. left. reflexivity. }
  destruct (exported_rows_find_job_and_company
              (mockEnv twoTenants) 5 defaultOptions (Some aliceSession)
              (match fst (extractCommand (mockEnv twoTenants) 5 defaultOptions
                            (Some aliceSession)) with
               | Ret (Exported data _ _) => data
               | _ => emptyResult
               end)
              [] ["out.json"; "out.csv"]%string
              (snd (extractCommand (mockEnv twoTenants) 5 defaultOptions
                      (Some aliceSession)))
              (candidateOf (mockEnv twoTenants) 864000000 "org-a"
                 (Some "Acme"%string) (application "ann"))
              (mkColumns "" "" "" "") Hrun Hin)
    as (j & co & _ & Hj & _ & Hco & Htitle & _).
  exists j, co. split; [exact Hj |]. split; [exact Hco | exact Htitle].
Defined.
